(** * Amazing Amazons: the decision engine of [src/bots/bot026.cpp]

    A shallow embedding of the board, the move generator, the evaluator and
    the tree search of the engine, with the request parser of its [main],
    followed by the properties of the specification that were checked
    against it.

    Conventions of the embedding.
    - A C [int] is a [Z]; the engine's counters stay far below 2^31, so no
      wrap-around is written out except where the source casts
      ([int8_t], [uint32_t]).
    - A C array is the list of its live cells; an index is a [Z] as in the
      source, and a read or a write outside the array (undefined in C++)
      reads [0] or writes nothing.
    - [float] and [double] values are exact rationals ([Q]); the three
      library functions [std::log], [std::sqrt] and [std::exp] are
      parameters of the search. Rounding is not modelled.
    - A pointer into the node pool is the index of the node, [None] for
      [nullptr]. *)

From Stdlib Require Import ZArith QArith Qabs Lia Lqa List Bool String Ascii DecimalString.
From stdpp Require Import base list.
Import ListNotations.
Open Scope Z_scope.

(** ** Constants *)

Definition NUM_SQUARES : Z := 64.
Definition EMPTY : Z := 0.
Definition BLACK : Z := 1.
Definition WHITE : Z := -1.
Definition OBSTACLE : Z := 2.

(** [DIRECTIONS[8][2]]: N, S, W, E, NW, NE, SW, SE as (row, col) steps. *)
Definition DIRECTIONS : list (Z * Z) :=
  [(-1, 0); (1, 0); (0, -1); (0, 1); (-1, -1); (-1, 1); (1, -1); (1, 1)].

(** The cast [(int8_t)a]. *)
Definition int8 (a : Z) : Z := (a + 128) mod 256 - 128.

(** [struct Move { int8_t x0, y0, x1, y1, x2, y2; }] *)
Record Move : Type := mkMove { x0 : Z; y0 : Z; x1 : Z; y1 : Z; x2 : Z; y2 : Z }.

(** The constructor [Move(int a, int b, int c, int d, int e, int f)]. *)
Definition Move_ (a b c d e f : Z) : Move :=
  mkMove (int8 a) (int8 b) (int8 c) (int8 d) (int8 e) (int8 f).

(** The sentinel [Move(-1,-1,-1,-1,-1,-1)]. *)
Definition NO_MOVE : Move := Move_ (-1) (-1) (-1) (-1) (-1) (-1).

Definition Move_eqb (a b : Move) : bool :=
  (x0 a =? x0 b) && (y0 a =? y0 b) && (x1 a =? x1 b) && (y1 a =? y1 b)
  && (x2 a =? x2 b) && (y2 a =? y2 b).

(** ** Board *)

(** [class Board] has the single member [int8_t grid[NUM_SQUARES]]; a board
    is that array, cell [row * 8 + col]. *)
Abbreviation Board := (list Z).

(** [grid[i]] *)
Definition grid_at (grid : Board) (i : Z) : Z :=
  if i <? 0 then 0 else default 0 (grid !! Z.to_nat i).

(** [grid[i] = v] *)
Definition grid_set (grid : Board) (i v : Z) : Board :=
  if i <? 0 then grid else <[Z.to_nat i := v]> grid.

(** [Board::Board()]: [memset] to [EMPTY], then [init_board]. *)
Definition init_board (grid : Board) : Board :=
  let g := grid_set grid (0*8 + 2) BLACK in
  let g := grid_set g (2*8 + 0) BLACK in
  let g := grid_set g (5*8 + 0) BLACK in
  let g := grid_set g (7*8 + 2) BLACK in
  let g := grid_set g (0*8 + 5) WHITE in
  let g := grid_set g (2*8 + 7) WHITE in
  let g := grid_set g (5*8 + 7) WHITE in
  grid_set g (7*8 + 5) WHITE.

Definition new_Board : Board := init_board (replicate 64 EMPTY).

(** The bounds test [nx < 0 || nx >= 8 || ny < 0 || ny >= 8], negated. *)
Definition on_board (x y : Z) : bool :=
  (0 <=? x) && (x <? 8) && (0 <=? y) && (y <? 8).

(** [Board::apply_move] *)
Definition apply_move (grid : Board) (m : Move) : Board :=
  let p_idx := x0 m * 8 + y0 m in
  let t_idx := x1 m * 8 + y1 m in
  let s_idx := x2 m * 8 + y2 m in
  let piece := grid_at grid p_idx in
  let g := grid_set grid p_idx EMPTY in
  let g := grid_set g t_idx piece in
  grid_set g s_idx OBSTACLE.



(** ** Move generator *)

Section MoveGen.

(** Capacity of [move_pool]. *)
Variable MAX_MOVES_POOL : Z.

(** The move pool is the list of its cells below [move_pool_ptr]; the
    pointer is the length of the list. *)
Definition pool_ptr {A} (pool : list A) : Z := Z.of_nat (length pool).

(** The inner [while (true)] of the shot phase, entered with [(ax, ay)] the
    cell last visited. A ray leaves the board within eight steps, which is
    the fuel every caller gives. *)
Fixpoint shot_loop (fuel : nat) (grid : Board) (p px py nx ny ad_row ad_col : Z)
    (ax ay : Z) (move_pool : list Move) : list Move :=
  match fuel with
  | O => move_pool
  | S fuel' =>
      let ax := ax + ad_row in
      let ay := ay + ad_col in
      if negb (on_board ax ay) then move_pool
      else
        let a_idx := ax * 8 + ay in
        if negb (grid_at grid a_idx =? EMPTY) && negb (a_idx =? p) then move_pool
        else if pool_ptr move_pool <? MAX_MOVES_POOL then
          shot_loop fuel' grid p px py nx ny ad_row ad_col ax ay
            (move_pool ++ [Move_ px py nx ny ax ay])
        else move_pool
  end.

(** [for (int ad = 0; ad < 8; ad++)] over the shot directions. *)
Definition shot_phase (grid : Board) (p px py nx ny : Z) (move_pool : list Move)
    : list Move :=
  fold_left
    (fun pool ad => shot_loop 8 grid p px py nx ny (fst ad) (snd ad) nx ny pool)
    DIRECTIONS move_pool.

(** The [while (true)] sliding the piece along one direction. *)
Fixpoint slide_loop (fuel : nat) (grid : Board) (p px py d_row d_col : Z)
    (nx ny : Z) (move_pool : list Move) : list Move :=
  match fuel with
  | O => move_pool
  | S fuel' =>
      let nx := nx + d_row in
      let ny := ny + d_col in
      if negb (on_board nx ny) then move_pool
      else
        let n_idx := nx * 8 + ny in
        if negb (grid_at grid n_idx =? EMPTY) then move_pool
        else
          slide_loop fuel' grid p px py d_row d_col nx ny
            (shot_phase grid p px py nx ny move_pool)
  end.

(** The body of [for (int p = 0; p < NUM_SQUARES; p++)]. *)
Definition piece_moves (grid : Board) (color : Z) (move_pool : list Move) (p : Z)
    : list Move :=
  if negb (grid_at grid p =? color) then move_pool
  else
    let px := p / 8 in
    let py := p mod 8 in
    fold_left
      (fun pool d => slide_loop 8 grid p px py (fst d) (snd d) px py pool)
      DIRECTIONS move_pool.

(** [Board::get_legal_moves(color, out_start_idx, out_count)]: the result is
    [(out_start_idx, out_count, move_pool)]. [count] is incremented exactly
    when a move is written, so it is the growth of the pool. *)
Definition get_legal_moves (grid : Board) (color : Z) (move_pool : list Move)
    : Z * Z * list Move :=
  let out_start_idx := pool_ptr move_pool in
  let pool' := fold_left (piece_moves grid color) (seqZ 0 NUM_SQUARES) move_pool in
  (out_start_idx, pool_ptr pool' - out_start_idx, pool').

(** The moves a call returned: cells [out_start_idx .. out_start_idx + out_count)
    of the pool. *)
Definition returned_moves (r : Z * Z * list Move) : list Move :=
  take (Z.to_nat (snd (fst r))) (drop (Z.to_nat (fst (fst r))) (snd r)).

End MoveGen.

(** ** Predicates used by the statements on the move generator *)

(** What the generator establishes for a move it writes, on the board it was
    called with: the three cells are on the board, the source holds a piece
    of the mover, the destination is empty and differs from the shot cell,
    and the shot cell is empty or is the source. *)
Definition gen_ok (grid : Board) (color : Z) (m : Move) : Prop :=
  on_board (x0 m) (y0 m) = true /\
  on_board (x1 m) (y1 m) = true /\
  on_board (x2 m) (y2 m) = true /\
  grid_at grid (x0 m * 8 + y0 m) = color /\
  grid_at grid (x1 m * 8 + y1 m) = EMPTY /\
  x2 m * 8 + y2 m <> x1 m * 8 + y1 m /\
  (grid_at grid (x2 m * 8 + y2 m) = EMPTY \/ x2 m * 8 + y2 m = x0 m * 8 + y0 m).

(** [pool'] is [pool] followed by moves that all satisfy [P]. *)
Definition extends (P : Move -> Prop) (pool pool' : list Move) : Prop :=
  exists l, pool' = pool ++ l /\ Forall P l.


(** ** Evaluator *)

(** [run_bfs]: the queue is the list of the cells between [head] and
    [tail] of [bfs_queue]; one turn of the [while (head < tail)] loop pops
    the first and pushes the improved neighbours at the end. *)
Definition bfs_relax (grid : Board) (d cx cy : Z) (st : list Z * list Z) (dir : Z * Z)
    : list Z * list Z :=
  let nx := cx + fst dir in
  let ny := cy + snd dir in
  if on_board nx ny then
    let n_idx := nx * 8 + ny in
    if (grid_at grid n_idx =? EMPTY) && (d <? grid_at (fst st) n_idx)
    then (grid_set (fst st) n_idx d, snd st ++ [n_idx])
    else st
  else st.

Fixpoint bfs_loop (fuel : nat) (grid : Board) (dist_out : list Z) (queue : list Z)
    : list Z :=
  match fuel with
  | O => dist_out
  | S fuel' =>
      match queue with
      | [] => dist_out
      | curr :: rest =>
          let d := grid_at dist_out curr + 1 in
          let cx := curr / 8 in
          let cy := curr mod 8 in
          let st := fold_left (bfs_relax grid d cx cy) DIRECTIONS (dist_out, rest) in
          bfs_loop fuel' grid (fst st) (snd st)
      end
  end.

(** Each push lowers one distance and each turn pops one cell, so the loop
    ends within twice the sum of the initial distances plus the seeds. *)
Definition bfs_fuel : nat := (2 * 64 * 99 + 4 + 1)%nat.

(** [for (int i = 0; i < 4; i++)] over a piece array: the four cells read.
    Boards of a game hold four pieces a side, where the list is the array. *)
Definition four (pieces : list Z) : list Z := take 4 pieces.

Definition run_bfs (grid : Board) (sources : list Z) : list Z :=
  let dist_out := replicate 64 99 in
  let dist_out := fold_left (fun dist s => grid_set dist s 0) (four sources) dist_out in
  bfs_loop bfs_fuel grid dist_out (four sources).

(** The [while] of [calc_mobility], entered at the first cell of the ray. *)
Fixpoint mob_ray (fuel : nat) (grid : Board) (d_row d_col nx ny mob : Z) : Z :=
  match fuel with
  | O => mob
  | S fuel' =>
      if on_board nx ny then
        if negb (grid_at grid (nx * 8 + ny) =? EMPTY) then mob
        else mob_ray fuel' grid d_row d_col (nx + d_row) (ny + d_col) (mob + 1)
      else mob
  end.

Definition calc_mobility (grid : Board) (pieces : list Z) : Z :=
  fold_left
    (fun mob p =>
       let px := p / 8 in
       let py := p mod 8 in
       fold_left
         (fun mob dir => mob_ray 8 grid (fst dir) (snd dir) (px + fst dir) (py + snd dir) mob)
         DIRECTIONS mob)
    (four pieces) 0.

(** [WEIGHTS_TABLE[28][5]] *)
Definition WEIGHTS_TABLE : list (list Q) :=
  [ [0.07747; 0.05755; 0.64627; 0.70431; 0.02438]; [0.05093; 0.06276; 0.69898; 0.66192; 0.02362];
    [0.06036; 0.06253; 0.60094; 0.67719; 0.01873]; [0.07597; 0.06952; 0.69061; 0.67989; 0.02098];
    [0.08083; 0.08815; 0.58981; 0.54664; 0.02318]; [0.09155; 0.08397; 0.56392; 0.54319; 0.02317];
    [0.10653; 0.10479; 0.54840; 0.53023; 0.02084]; [0.11534; 0.11515; 0.53325; 0.52423; 0.02237];
    [0.12943; 0.12673; 0.50841; 0.52208; 0.02490]; [0.12882; 0.13946; 0.49621; 0.51776; 0.03045];
    [0.13701; 0.15338; 0.47601; 0.51500; 0.03249]; [0.14530; 0.15565; 0.45365; 0.50934; 0.03830];
    [0.14521; 0.16388; 0.44531; 0.50517; 0.04864]; [0.13750; 0.16326; 0.43619; 0.50328; 0.05912];
    [0.13565; 0.15529; 0.42382; 0.50288; 0.07437]; [0.12382; 0.10361; 0.50487; 0.55808; 0.02791];
    [0.11809; 0.14632; 0.40738; 0.41782; 0.10308]; [0.10805; 0.15043; 0.40520; 0.43073; 0.10967];
    [0.09668; 0.15666; 0.40215; 0.44165; 0.10906]; [0.10585; 0.16319; 0.38220; 0.45465; 0.10062];
    [0.11123; 0.15516; 0.36904; 0.46534; 0.09118]; [0.12535; 0.10492; 0.35567; 0.48043; 0.08337];
    [0.28657; 0.16655; 0.38060; 0.42472; 0.10316]; [0.07143; 0.16655; 0.36658; 0.39520; 0.02194];
    [0.07143; 0.16655; 0.36658; 0.39520; 0.02194]; [0.07143; 0.16655; 0.36658; 0.39520; 0.02194];
    [0.07143; 0.16655; 0.36658; 0.39520; 0.02194]; [0.07143; 0.14627; 0.36658; 0.39520; 0.02194] ]%Q.

(** [fast_sigmoid] *)
Definition fast_sigmoid (x : Q) : Q := (0.5 * (x / (1 + Qabs x) + 1))%Q.

(** [POW2[]] of [evaluate]; note the entry [0] at index [0]. *)
Definition POW2 : list Q :=
  [0; 0.5; 0.25; 0.125; 0.0625; 0.03125; 0.015625; 0.0078125; 0.00390625]%Q.

(** [double scores[5]]: qt, kt, qp, kp, mob. *)
Record Scores : Type := mkScores { qt : Q; kt : Q; qp : Q; kp : Q; mob : Q }.

(** The first loop of [evaluate]: the cells of each side in index order. *)
Definition find_pieces (grid : Board) (root_player : Z) : list Z * list Z :=
  fold_left
    (fun acc i =>
       if grid_at grid i =? root_player then (fst acc ++ [i], snd acc)
       else if grid_at grid i =? - root_player then (fst acc, snd acc ++ [i])
       else acc)
    (seqZ 0 NUM_SQUARES) ([], []).

(** [POW2[d]] and [1.0 / (d + 1.0)]. *)
Definition pow2_at (d : Z) : Q := nth (Z.to_nat d) POW2 0%Q.
Definition inv_succ (d : Z) : Q := (1 / (inject_Z d + 1))%Q.

(** The body of the scoring loop for one cell, [dm] and [do_] its two
    distances: the updates of [scores[0]] .. [scores[3]] in source order. *)
Definition score_cell (dm do_ : Z) (s : Scores) : Scores :=
  if (dm =? 99) && (do_ =? 99) then s
  else
    let s0 := (if dm <? do_ then qt s + 1 else if do_ <? dm then qt s - 1 else qt s)%Q in
    let s1 :=
      (if dm <? do_ then (if dm <? 4 then kt s + inject_Z (4 - dm) else kt s)
       else if do_ <? dm then (if do_ <? 4 then kt s - inject_Z (4 - do_) else kt s)
       else kt s)%Q in
    let s2 := (if dm <? 9 then qp s + pow2_at dm else qp s)%Q in
    let s2 := (if do_ <? 9 then s2 - pow2_at do_ else s2)%Q in
    let s3 := (if dm <? 6 then kp s + inv_succ dm else kp s)%Q in
    let s3 := (if do_ <? 6 then s3 - inv_succ do_ else s3)%Q in
    mkScores s0 s1 s2 s3 (mob s).

(** The scoring loop of [evaluate] over the 64 cells, from the two distance
    fields. *)
Definition score_board (grid : Board) (dist_my dist_op : list Z) : Scores :=
  fold_left
    (fun s i =>
       if negb (grid_at grid i =? EMPTY) then s
       else score_cell (grid_at dist_my i) (grid_at dist_op i) s)
    (seqZ 0 NUM_SQUARES) (mkScores 0 0 0 0 0).

(** The five raw components of [evaluate], before weighting. *)
Definition raw_scores (grid : Board) (root_player : Z) : Scores :=
  let pieces := find_pieces grid root_player in
  let my_pieces := fst pieces in
  let opp_pieces := snd pieces in
  let dist_my := run_bfs grid my_pieces in
  let dist_op := run_bfs grid opp_pieces in
  let s := score_board grid dist_my dist_op in
  mkScores (qt s) (kt s) (qp s) (kp s)
    (inject_Z (calc_mobility grid my_pieces - calc_mobility grid opp_pieces)).

Definition scores_list (s : Scores) : list Q := [qt s; kt s; qp s; kp s; mob s].

(** [evaluate(board, root_player, turn)] *)
Definition evaluate (grid : Board) (root_player turn : Z) : Q :=
  let scores := scores_list (raw_scores grid root_player) in
  let idx := if 28 <=? turn then 27 else turn in
  let weights := nth (Z.to_nat idx) WEIGHTS_TABLE [] in
  let total :=
    fold_left (fun total sw => (total + fst sw * snd sw)%Q) (combine scores weights) 0%Q in
  fast_sigmoid (total * 0.2).

(** *** The mobility count in the words of the specification *)

Fixpoint take_while {A} (f : A -> bool) (l : list A) : list A :=
  match l with
  | [] => []
  | x :: l' => if f x then x :: take_while f l' else []
  end.

(** Squares reachable from [(px, py)] by sliding along [dir]: the empty
    on-board squares met before the first square that is not. *)
Definition slide_count (grid : Board) (px py : Z) (dir : Z * Z) : Z :=
  Z.of_nat (length (take_while
    (fun k => on_board (px + k * fst dir) (py + k * snd dir)
              && (grid_at grid ((px + k * fst dir) * 8 + (py + k * snd dir)) =? EMPTY))
    (seqZ 1 7))).

(** Empty squares one step away from [(px, py)]: at most 8. *)
Definition step_count (grid : Board) (px py : Z) : Z :=
  Z.of_nat (length (filter
    (fun dir => on_board (px + fst dir) (py + snd dir) = true
                /\ grid_at grid ((px + fst dir) * 8 + (py + snd dir)) = EMPTY)
    DIRECTIONS)).

Definition sumZ (l : list Z) : Z := fold_right Z.add 0 l.

(** Mobility by sliding (queen moves) and by single steps (king moves). *)
Definition slide_mobility (grid : Board) (pieces : list Z) : Z :=
  sumZ (map (fun p => sumZ (map (slide_count grid (p / 8) (p mod 8)) DIRECTIONS)) pieces).

Definition step_mobility (grid : Board) (pieces : list Z) : Z :=
  sumZ (map (fun p => step_count grid (p / 8) (p mod 8)) pieces).


(** ** Search tree *)

(** [class MCTSNode]; the three links are indices into [node_pool]. *)
Record MCTSNode : Type := mkNode {
  first_child : option nat;
  next_sibling : option nat;
  parent : option nat;
  move : Move;
  moves_start_idx : Z;
  moves_count : Z;
  wins : Q;
  visits : Z;
  player_just_moved : Z
}.

(** The globals a search works on: the two pools (their pointers are the
    lengths), the generator state and the two [_global] trackers. *)
Record Globals : Type := mkGlobals {
  move_pool : list Move;
  node_pool : list MCTSNode;
  xorshift_state : Z;
  best_child_global : option nat;
  max_visits_global : Z
}.

Definition set_move_pool (g : Globals) (mp : list Move) : Globals :=
  mkGlobals mp (node_pool g) (xorshift_state g) (best_child_global g) (max_visits_global g).
Definition set_node_pool (g : Globals) (np : list MCTSNode) : Globals :=
  mkGlobals (move_pool g) np (xorshift_state g) (best_child_global g) (max_visits_global g).
Definition set_xorshift_state (g : Globals) (x : Z) : Globals :=
  mkGlobals (move_pool g) (node_pool g) x (best_child_global g) (max_visits_global g).
Definition set_best (g : Globals) (b : option nat) (v : Z) : Globals :=
  mkGlobals (move_pool g) (node_pool g) (xorshift_state g) b v.

Definition set_moves (n : MCTSNode) (start count : Z) : MCTSNode :=
  mkNode (first_child n) (next_sibling n) (parent n) (move n) start count
         (wins n) (visits n) (player_just_moved n).
Definition set_first_child (n : MCTSNode) (c : option nat) : MCTSNode :=
  mkNode c (next_sibling n) (parent n) (move n) (moves_start_idx n) (moves_count n)
         (wins n) (visits n) (player_just_moved n).
Definition set_next_sibling (n : MCTSNode) (s : option nat) : MCTSNode :=
  mkNode (first_child n) s (parent n) (move n) (moves_start_idx n) (moves_count n)
         (wins n) (visits n) (player_just_moved n).
Definition set_stats (n : MCTSNode) (w : Q) (v : Z) : MCTSNode :=
  mkNode (first_child n) (next_sibling n) (parent n) (move n) (moves_start_idx n)
         (moves_count n) w v (player_just_moved n).

(** [pool[i]] for a C index; [None] outside the live cells. *)
Definition pool_at {A} (pool : list A) (i : Z) : option A :=
  if i <? 0 then None else pool !! Z.to_nat i.
Definition pool_set {A} (pool : list A) (i : Z) (v : A) : list A :=
  if i <? 0 then pool else <[Z.to_nat i := v]> pool.

(** [fast_rand]: xorshift on [uint32_t]; the result is also the new state. *)
Definition u32 (x : Z) : Z := x mod 2 ^ 32.
Definition fast_rand (x : Z) : Z :=
  let x := Z.lxor x (u32 (Z.shiftl x 13)) in
  let x := Z.lxor x (Z.shiftr x 17) in
  Z.lxor x (u32 (Z.shiftl x 5)).

(** [MCTSNode::init] *)
Definition node_init (p : option nat) (m : Move) (pjm : Z) : MCTSNode :=
  mkNode None None p m (-1) 0 0%Q 0 (int8 pjm).

(** The value of the default-constructed [Move()] of the root; it is
    indeterminate in the source and never read. *)
Definition Move_default : Move := mkMove 0 0 0 0 0 0.

Section Search.

Variable MAX_NODES : Z.
Variable MAX_MOVES_POOL : Z.

(** [std::log], [std::sqrt], [std::exp]. *)
Variable flog : Q -> Q.
Variable fsqrt : Q -> Q.
Variable fexp : Q -> Q.

(** [chrono::steady_clock::now() >= deadline] at the [k]-th reading of the
    clock by the search loop. *)
Variable now_ge_deadline : nat -> bool.

(** [new_node]: [None] is the null sentinel of an exhausted pool. *)
Definition new_node (g : Globals) (p : option nat) (m : Move) (pjm : Z)
    : option nat * Globals :=
  if MAX_NODES <=? pool_ptr (node_pool g) then (None, g)
  else (Some (length (node_pool g)),
        set_node_pool g (node_pool g ++ [node_init p m pjm])).

(** The score of a child in [uct_select_child]. *)
Definition ucb_score (C log_v : Q) (c : MCTSNode) : Q :=
  (wins c / (inject_Z (visits c) + 0.000001)
   + C * fsqrt (log_v / (inject_Z (visits c) + 0.000001)))%Q.

(** The [for] loop of [uct_select_child] along the sibling chain. *)
Fixpoint uct_loop (fuel : nat) (pool : list MCTSNode) (C log_v : Q)
    (c : option nat) (best : option nat) (best_score : Q) : option nat :=
  match c with
  | None => best
  | Some i =>
      match fuel with
      | O => None
      | S fuel' =>
          match pool !! i with
          | None => None
          | Some cn =>
              let score := ucb_score C log_v cn in
              if negb (Qle_bool score best_score)
              then uct_loop fuel' pool C log_v (next_sibling cn) (Some i) score
              else uct_loop fuel' pool C log_v (next_sibling cn) best best_score
          end
      end
  end.

(** [MCTSNode::uct_select_child] of the node at index [node]. *)
Definition uct_select_child (pool : list MCTSNode) (node : nat) (C : Q) : option nat :=
  n ← pool !! node;
  let log_v := flog (inject_Z (visits n) + 1) in
  uct_loop (length pool) pool C log_v (first_child n) None (- 1000000000)%Q.

(** Selection: [while (node->moves_count == 0 && node->first_child != nullptr)].
    [None] stands for a null or wild dereference. *)
Fixpoint select_loop (fuel : nat) (pool : list MCTSNode) (C : Q)
    (node : nat) (state : Board) (current_player : Z) : option (nat * Board * Z) :=
  match fuel with
  | O => None
  | S fuel' =>
      n ← pool !! node;
      if (moves_count n =? 0) && bool_decide (first_child n <> None) then
        c ← uct_select_child pool node C;
        cn ← pool !! c;
        select_loop fuel' pool C c (apply_move state (move cn)) (- current_player)
      else Some (node, state, current_player)
  end.

(** What the expansion step leaves: the globals, the node the iteration
    continues from, the working board and player, [win_prob], [terminal],
    and the node created, if any. *)
Record Expanded : Type := mkExpanded {
  ex_globals : Globals;
  ex_node : nat;
  ex_state : Board;
  ex_player : Z;
  ex_win_prob : Q;
  ex_terminal : bool;
  ex_new : option nat
}.

(** The [// Expand] block of [search]. *)
Definition expand (root_player : Z) (g : Globals) (node : nat) (state : Board)
    (current_player : Z) : option Expanded :=
  n ← node_pool g !! node;
  if 0 <? moves_count n then
    let x := fast_rand (xorshift_state g) in
    let offset := x mod moves_count n in
    let idx := moves_start_idx n + offset in
    m ← pool_at (move_pool g) idx;
    let last_idx := moves_start_idx n + moves_count n - 1 in
    m_last ← pool_at (move_pool g) last_idx;
    let mp := pool_set (pool_set (move_pool g) idx m_last) last_idx m in
    let n := set_moves n (moves_start_idx n) (moves_count n - 1) in
    let g := mkGlobals mp (<[node := n]> (node_pool g)) x
               (best_child_global g) (max_visits_global g) in
    let state := apply_move state m in
    let current_player := - current_player in
    match new_node g (Some node) m (- current_player) with
    | (Some new_n, g) =>
        let r := get_legal_moves MAX_MOVES_POOL state current_player (move_pool g) in
        let count := snd (fst r) in
        let child := set_moves (node_init (Some node) m (- current_player)) (fst (fst r)) count in
        let terminal := count =? 0 in
        let win_prob :=
          if terminal then (if current_player =? root_player then 0 else 1)%Q else 0%Q in
        let child := set_next_sibling child (first_child n) in
        let n := set_first_child n (Some new_n) in
        let np := <[node := n]> (<[new_n := child]> (node_pool g)) in
        Some (mkExpanded (mkGlobals (snd r) np x (best_child_global g) (max_visits_global g))
                new_n state current_player win_prob terminal (Some new_n))
    | (None, g) => Some (mkExpanded g node state current_player 0%Q false None)
    end
  else if bool_decide (first_child n = None) then
    Some (mkExpanded g node state current_player
            (if player_just_moved n =? root_player then 1 else 0)%Q true None)
  else Some (mkExpanded g node state current_player 0%Q false None).

(** One turn of the [// Backprop] loop on the node at [i]. *)
Definition backprop_node (root : nat) (root_player : Z) (win_prob : Q) (g : Globals)
    (i : nat) (n : MCTSNode) : Globals :=
  let v := visits n + 1 in
  let g :=
    if bool_decide (parent n = Some root) && (max_visits_global g <? v)
    then set_best g (Some i) v else g in
  let w :=
    (if player_just_moved n =? root_player then wins n + win_prob
     else wins n + (1 - win_prob))%Q in
  set_node_pool g (<[i := set_stats n w v]> (node_pool g)).

Fixpoint backprop (fuel : nat) (root : nat) (root_player : Z) (win_prob : Q)
    (g : Globals) (node : option nat) : option Globals :=
  match node with
  | None => Some g
  | Some i =>
      match fuel with
      | O => None
      | S fuel' =>
          n ← node_pool g !! i;
          backprop fuel' root root_player win_prob
            (backprop_node root root_player win_prob g i n) (parent n)
      end
  end.

(** What one iteration of the search loop did. *)
Record Iteration : Type := mkIteration {
  it_selected : nat;
  it_expanded : Expanded;
  it_evaluated : bool;
  it_win_prob : Q;
  it_globals : Globals
}.

(** The body of [while (true)] after the periodic check: select, expand,
    evaluate unless terminal, backpropagate. *)
Definition iterate (root_state : Board) (root_player turn : Z) (C : Q) (root : nat)
    (g : Globals) : option Iteration :=
  sel ← select_loop (length (node_pool g)) (node_pool g) C root root_state root_player;
  let '(node, state, current_player) := sel in
  ex ← expand root_player g node state current_player;
  let win_prob :=
    if ex_terminal ex then ex_win_prob ex
    else evaluate (ex_state ex) root_player turn in
  g' ← backprop (length (node_pool (ex_globals ex))) root root_player win_prob
         (ex_globals ex) (Some (ex_node ex));
  Some (mkIteration node ex (negb (ex_terminal ex)) win_prob g').

(** The state of the search loop: the globals, [iterations] and the number
    of clock readings made so far. *)
Record Loop : Type := mkLoop { lp_globals : Globals; lp_iterations : Z; lp_reads : nat }.

(** [while (true)] of [search]: [None] when the fuel runs out first. *)
Fixpoint search_loop (fuel : nat) (root_state : Board) (root_player turn : Z) (C : Q)
    (root : nat) (l : Loop) : option Loop :=
  match fuel with
  | O => None
  | S fuel' =>
      let g := lp_globals l in
      let step reads :=
        it ← iterate root_state root_player turn C root g;
        search_loop fuel' root_state root_player turn C root
          (mkLoop (it_globals it) (lp_iterations l + 1) reads) in
      if Z.land (lp_iterations l) 255 =? 0 then
        if now_ge_deadline (lp_reads l) then
          Some (mkLoop g (lp_iterations l) (S (lp_reads l)))
        else if MAX_NODES - 500 <? pool_ptr (node_pool g) then
          Some (mkLoop g (lp_iterations l) (S (lp_reads l)))
        else if MAX_MOVES_POOL - 5000 <? pool_ptr (move_pool g) then
          Some (mkLoop g (lp_iterations l) (S (lp_reads l)))
        else step (S (lp_reads l))
      else step (lp_reads l)
  end.

(** The globals after [n] iterations of the loop body. *)
Fixpoint iterate_n (n : nat) (root_state : Board) (root_player turn : Z) (C : Q)
    (root : nat) (g : Globals) : option Globals :=
  match n with
  | O => Some g
  | S n' =>
      it ← iterate root_state root_player turn C root g;
      iterate_n n' root_state root_player turn C root (it_globals it)
  end.

(** [C = 0.177f * std::exp(-0.008f * (turn - 1.41f))] *)
Definition ucb_constant (turn : Z) : Q :=
  (0.177 * fexp (- 0.008 * (inject_Z turn - 1.41)))%Q.

(** The start of [search]: both pools reset, the root allocated and its
    moves generated, the trackers cleared. [seed] is the generator state
    left by [seed_rng]. *)
Definition search_init (root_state : Board) (root_player : Z) (seed : Z)
    : option (nat * Globals) :=
  let g := mkGlobals [] [] seed None (-1) in
  match new_node g None Move_default (- root_player) with
  | (Some root, g) =>
      let r := get_legal_moves MAX_MOVES_POOL root_state root_player (move_pool g) in
      rn ← node_pool g !! root;
      Some (root, mkGlobals (snd r)
                    (<[root := set_moves rn (fst (fst r)) (snd (fst r))]> (node_pool g))
                    seed None (-1))
  | (None, _) => None
  end.

(** The three [return]s ending [search]. *)
Definition search_result (root : nat) (g : Globals) : option Move :=
  match best_child_global g with
  | Some b => move <$> node_pool g !! b
  | None =>
      rn ← node_pool g !! root;
      match first_child rn with
      | Some c => move <$> node_pool g !! c
      | None => Some NO_MOVE
      end
  end.

(** The loop of [search] from its start, and [search] itself. *)
Definition search_run (fuel : nat) (root_state : Board) (root_player turn : Z) (seed : Z)
    : option (nat * Loop) :=
  init ← search_init root_state root_player seed;
  l ← search_loop fuel root_state root_player turn (ucb_constant turn) (fst init)
        (mkLoop (snd init) 0 0);
  Some (fst init, l).

Definition search (fuel : nat) (root_state : Board) (root_player turn : Z) (seed : Z)
    : option Move :=
  r ← search_run fuel root_state root_player turn seed;
  search_result (fst r) (lp_globals (snd r)).

End Search.

(** ** Invariants of the search tree *)

Section Invariants.

Variable MAX_NODES : Z.
Variable MAX_MOVES_POOL : Z.
(** The side the search computes a move for, and the moves generated for
    the root. The root is the first node of the pool. *)
Variable root_player : Z.
Variable root_moves : list Move.

(** A node at index [i] of [pool], with [move_len] live cells in the move
    pool: its parent is an older node and the players alternate; its first
    child is a node whose parent it is; its next sibling is an older node
    with the same parent; its untried moves lie inside the move pool, the
    root's in the cells the root's generation wrote and the others' after
    them; its counters are not negative; a child of the root holds one of
    the root's moves. *)
Definition node_ok (pool : list MCTSNode) (move_len : Z) (i : nat) (n : MCTSNode) : Prop :=
  match parent n with
  | None => i = 0%nat /\ player_just_moved n = - root_player
  | Some p =>
      (p < i)%nat /\
      exists np, pool !! p = Some np /\ player_just_moved n = - player_just_moved np
  end /\
  (forall c, first_child n = Some c ->
     exists nc, pool !! c = Some nc /\ parent nc = Some i) /\
  (forall s, next_sibling n = Some s ->
     (s < i)%nat /\ parent n <> None /\
     exists ns, pool !! s = Some ns /\ parent ns = parent n) /\
  0 <= moves_count n /\
  (0 < moves_count n ->
     0 <= moves_start_idx n /\ moves_start_idx n + moves_count n <= move_len /\
     (i = 0%nat -> moves_start_idx n + moves_count n <= pool_ptr root_moves) /\
     (i <> 0%nat -> pool_ptr root_moves <= moves_start_idx n)) /\
  0 <= visits n /\ (0 <= wins n)%Q /\
  (parent n = Some 0%nat -> In (move n) root_moves).

(** The two pools: every node is [node_ok], the pointers are within the
    capacities, the cells written by the root's generation still hold moves
    of the root, and a root without first child has no child at all. *)
Definition pools_ok (g : Globals) : Prop :=
  (exists rn, node_pool g !! 0%nat = Some rn /\
     (first_child rn = None ->
      forall c nc, node_pool g !! c = Some nc -> parent nc <> Some 0%nat)) /\
  (forall i n, node_pool g !! i = Some n ->
     node_ok (node_pool g) (pool_ptr (move_pool g)) i n) /\
  pool_ptr (node_pool g) <= MAX_NODES /\
  pool_ptr (move_pool g) <= MAX_MOVES_POOL /\
  pool_ptr root_moves <= pool_ptr (move_pool g) /\
  (forall k m, (k < length root_moves)%nat -> move_pool g !! k = Some m -> In m root_moves).

(** The trackers: [max_visits_global] bounds the visits of every child of
    the root and is reached by [best_child_global], a child of the root.
    [fresh] is a node just created and not yet visited, if any. *)
Definition best_ok (fresh : option nat) (g : Globals) : Prop :=
  -1 <= max_visits_global g /\
  (forall c nc, node_pool g !! c = Some nc -> parent nc = Some 0%nat ->
     Some c <> fresh -> visits nc <= max_visits_global g) /\
  (forall c nc, node_pool g !! c = Some nc -> Some c = fresh -> visits nc = 0) /\
  match best_child_global g with
  | Some b =>
      exists nb, node_pool g !! b = Some nb /\ parent nb = Some 0%nat /\
                 visits nb = max_visits_global g
  | None =>
      max_visits_global g = -1 /\
      forall c nc, node_pool g !! c = Some nc -> parent nc = Some 0%nat -> Some c = fresh
  end.

(** The invariant of the search loop. *)
Definition search_inv (g : Globals) : Prop := pools_ok g /\ best_ok None g.

(** The pools are close to their capacity: the two pool tests of the
    periodic check of the search loop. *)
Definition near_capacity (g : Globals) : Prop :=
  MAX_NODES - 500 < pool_ptr (node_pool g) \/ MAX_MOVES_POOL - 5000 < pool_ptr (move_pool g).

End Invariants.

(** [pool'] has the nodes of [pool] with the same parent and player. *)
Definition same_links (pool pool' : list MCTSNode) : Prop :=
  forall j nj, pool !! j = Some nj ->
    exists nj', pool' !! j = Some nj' /\ parent nj' = parent nj /\
                player_just_moved nj' = player_just_moved nj.

(** ** The children of a node and the score of a child *)

(** The sibling chain from [c], as the loop of [uct_select_child] walks it. *)
Fixpoint chain (fuel : nat) (pool : list MCTSNode) (c : option nat) : list nat :=
  match c, fuel with
  | Some i, S fuel' =>
      match pool !! i with
      | Some cn => i :: chain fuel' pool (next_sibling cn)
      | None => []
      end
  | _, _ => []
  end.

Definition children (pool : list MCTSNode) (node : nat) : list nat :=
  match pool !! node with
  | Some n => chain (length pool) pool (first_child n)
  | None => []
  end.

(** The score [uct_select_child] gives the child at index [c] of the node at
    index [node]. *)
Definition child_score (fsqrt flog : Q -> Q) (pool : list MCTSNode) (C : Q)
    (node c : nat) : Q :=
  match pool !! node, pool !! c with
  | Some n, Some cn => ucb_score fsqrt C (flog (inject_Z (visits n) + 1)%Q) cn
  | _, _ => 0%Q
  end.


(** ** How the search loop ends *)

Section LoopExit.

Variable MAX_NODES : Z.
Variable MAX_MOVES_POOL : Z.
Variable flog : Q -> Q.
Variable fsqrt : Q -> Q.
Variable now_ge_deadline : nat -> bool.
Variable root_state : Board.
Variable root_player : Z.
Variable turn : Z.
Variable C : Q.
Variable root_moves : list Move.

(** The loop entered with globals [g], [it] iterations done and [r]
    readings of the clock made, ends in [l'] at check number [K]: [l'] is
    [g] after the iterations up to [256 * K]; at every check before [K] the
    deadline had not passed and no pool was close to its capacity; at check
    [K] one of the two holds; the pool pointers did not decrease and the
    root was visited once per iteration. *)
Definition loop_exit (g : Globals) (it : Z) (r : nat) (l' : Loop) (K : nat) : Prop :=
  search_inv MAX_NODES MAX_MOVES_POOL root_player root_moves (lp_globals l') /\
  lp_iterations l' = 256 * Z.of_nat K /\ lp_reads l' = S K /\
  iterate_n MAX_NODES MAX_MOVES_POOL flog fsqrt (Z.to_nat (256 * Z.of_nat K - it))
    root_state root_player turn C 0 g = Some (lp_globals l') /\
  (forall j, (r <= j < K)%nat ->
     now_ge_deadline j = false /\
     exists gj,
       iterate_n MAX_NODES MAX_MOVES_POOL flog fsqrt (Z.to_nat (256 * Z.of_nat j - it))
         root_state root_player turn C 0 g = Some gj /\
       ~ near_capacity MAX_NODES MAX_MOVES_POOL gj) /\
  (now_ge_deadline K = true \/ near_capacity MAX_NODES MAX_MOVES_POOL (lp_globals l')) /\
  pool_ptr (node_pool g) <= pool_ptr (node_pool (lp_globals l')) /\
  pool_ptr (move_pool g) <= pool_ptr (move_pool (lp_globals l')) /\
  exists rn rn', node_pool g !! 0%nat = Some rn /\
                 node_pool (lp_globals l') !! 0%nat = Some rn' /\
                 visits rn' = visits rn + (lp_iterations l' - it).

End LoopExit.

(** ** Rational stand-ins for the library functions

    The statements on the search hold for every [flog], [fsqrt] and [fexp]
    with [fsqrt] and [fexp] nowhere negative. These three functions are the
    instances used to state them at concrete inputs; each is within about
    [10^-6] of the real function where it is used here: the square root to
    six decimals, the exponential by its series to the fourth order
    (inverted for negative arguments), and the logarithm by
    [ln x = k ln 2 + 2 atanh ((r - 1) / (r + 1))] with [r = x / 2^k] in
    [[1, 2)] and seven terms of the series. *)

Definition approx_sqrt (x : Q) : Q :=
  if Qle_bool x 0 then 0%Q
  else (inject_Z (Z.sqrt (Qnum x * 10 ^ 12 / Zpos (Qden x))) / 1000000)%Q.

Definition exp_series (y : Q) : Q :=
  (1 + y + y * y / 2 + y * y * y / 6 + y * y * y * y / 24)%Q.

Definition approx_exp (x : Q) : Q :=
  if Qle_bool 0 x then exp_series x else (1 / exp_series (- x))%Q.

Definition approx_log (x : Q) : Q :=
  if Qle_bool x 0 then 0%Q
  else
    let k := Z.log2 (Qnum x / Zpos (Qden x)) in
    let r := Qred (x / inject_Z (2 ^ k)) in
    let y := Qred ((r - 1) / (r + 1)) in
    let y2 := Qred (y * y) in
    Qred (0.6931471806 * inject_Z k
          + 2 * y * (1 + y2 * (1 / 3 + y2 * (1 / 5 + y2 * (1 / 7 + y2 * (1 / 9
              + y2 * (1 / 11 + y2 * (1 / 13)))))))).

(** ** Statements on a whole search *)

Section Statements.

Variable MAX_NODES : Z.
Variable MAX_MOVES_POOL : Z.
Variable flog : Q -> Q.
Variable fsqrt : Q -> Q.
Variable fexp : Q -> Q.
Variable now_ge_deadline : nat -> bool.
Variable root_state : Board.
Variable root_player : Z.
Variable turn : Z.
Variable seed : Z.

(** The moves generated for the root. *)
Definition root_legal_moves : list Move :=
  returned_moves (get_legal_moves MAX_MOVES_POOL root_state root_player []).

(** The globals after [n] iterations of a search, and the iteration that
    follows. *)
Definition reaches (n : nat) (gn : Globals) (it : Iteration) : Prop :=
  exists g0,
    search_init MAX_NODES MAX_MOVES_POOL root_state root_player seed = Some (0%nat, g0) /\
    iterate_n MAX_NODES MAX_MOVES_POOL flog fsqrt n root_state root_player turn
      (ucb_constant fexp turn) 0 g0 = Some gn /\
    iterate MAX_NODES MAX_MOVES_POOL flog fsqrt root_state root_player turn
      (ucb_constant fexp turn) 0 gn = Some it.


(** The move [search] returns: the sentinel when the root has no child,
    else the move of a child of the root whose visit count no child of the
    root exceeds. When the node pool has room for a second node, the root
    has no child exactly when no move was generated for it or the loop was
    left before its first iteration. *)
Definition robust_child_result (fuel : nat) : Prop :=
  exists mv l rn,
    search MAX_NODES MAX_MOVES_POOL flog fsqrt fexp now_ge_deadline fuel
      root_state root_player turn seed = Some mv /\
    search_run MAX_NODES MAX_MOVES_POOL flog fsqrt fexp now_ge_deadline fuel
      root_state root_player turn seed = Some (0%nat, l) /\
    node_pool (lp_globals l) !! 0%nat = Some rn /\
    ((first_child rn = None /\ mv = NO_MOVE /\
      forall c nc, node_pool (lp_globals l) !! c = Some nc -> parent nc <> Some 0%nat) \/
     (first_child rn <> None /\ mv <> NO_MOVE /\
      exists b nb,
        node_pool (lp_globals l) !! b = Some nb /\ parent nb = Some 0%nat /\
        mv = move nb /\
        forall c nc, node_pool (lp_globals l) !! c = Some nc -> parent nc = Some 0%nat ->
                     visits nc <= visits nb)) /\
    (2 <= MAX_NODES ->
     (first_child rn = None <-> root_legal_moves = [] \/ lp_iterations l = 0)).




End Statements.

(** The capacities of [src/bots/bot026.cpp]. *)
Definition bot026_MAX_NODES : Z := 10000000.
Definition bot026_MAX_MOVES_POOL : Z := 70000000.

(** A clock at which the deadline has passed from the reading number [K] on. *)
Definition deadline_from (K : nat) (k : nat) : bool := Nat.leb K k.


(** * The programs: from standard input to standard output

    Standard input is the list of its lines, as [getline] hands them out;
    [getline] fails when the list is exhausted. *)

(** What a run of [main] leaves. *)
Inductive Outcome : Type :=
| Printed (out : string)  (** one line written to standard output, then [return 0] *)
| Silent                  (** [return 0] with nothing written *)
| Thrown                  (** an exception leaves [main]; nothing was written *)
| Undefined.              (** a step whose behaviour C++ leaves undefined *)

(** ** Reading integers *)

Definition INT_MIN : Z := - 2147483648.
Definition INT_MAX : Z := 2147483647.
Definition in_int (v : Z) : bool := (INT_MIN <=? v) && (v <=? INT_MAX).

(** [isspace] in the C locale. *)
Definition isspace (c : ascii) : bool :=
  let n := Z.of_nat (nat_of_ascii c) in (n =? 32) || ((9 <=? n) && (n <=? 13)).

Definition digit (c : ascii) : option Z :=
  let n := Z.of_nat (nat_of_ascii c) in
  if (48 <=? n) && (n <=? 57) then Some (n - 48) else None.

Fixpoint skip_space (s : list ascii) : list ascii :=
  match s with
  | c :: s' => if isspace c then skip_space s' else s
  | [] => []
  end.

(** The decimal digits at the head of [s]: their value from [acc] on,
    whether there was one, and what follows them. *)
Fixpoint read_digits (s : list ascii) (acc : Z) (any : bool) : Z * bool * list ascii :=
  match s with
  | c :: s' =>
      match digit c with
      | Some d => read_digits s' (10 * acc + d) true
      | None => (acc, any, s)
      end
  | [] => (acc, any, [])
  end.

(** An optional sign and decimal digits at the head of [s]: the value when
    there is a digit, and what follows. *)
Definition read_integer (s : list ascii) : option Z * list ascii :=
  let '(neg, s1) :=
    match s with
    | "-"%char :: r => (true, r)
    | "+"%char :: r => (false, r)
    | _ => (false, s)
    end in
  let '(v, any, rest) := read_digits s1 0 false in
  if any then (Some (if neg then - v else v), rest) else (None, rest).

(** [std::stoi(str)]: leading white space is skipped, what follows the
    digits is ignored; [None] when it throws ([invalid_argument] without a
    digit, [out_of_range] outside [int]). *)
Definition stoi (str : string) : option Z :=
  match fst (read_integer (skip_space (list_ascii_of_string str))) with
  | Some v => if in_int v then Some v else None
  | None => None
  end.

(** A [stringstream] read with [>>]: what is left of the text, and
    [failbit]. *)
Record stringstream : Type := mkStream { ss_text : list ascii; ss_fail : bool }.

Definition stringstream_ (l : string) : stringstream :=
  mkStream (list_ascii_of_string l) false.

(** [ss >> v] for an [int v]: the stream left and the value written to [v],
    if one is. On a stream that has failed nothing is read and [v] is left
    as it was; when no integer can be read 0 is written and [failbit] set;
    outside [int] the nearest bound is written and [failbit] set. *)
Definition extract_int (ss : stringstream) : stringstream * option Z :=
  if ss_fail ss then (ss, None)
  else
    match read_integer (skip_space (ss_text ss)) with
    | (Some v, rest) =>
        if in_int v then (mkStream rest false, Some v)
        else (mkStream rest true, Some (if v <? 0 then INT_MIN else INT_MAX))
    | (None, rest) => (mkStream rest true, Some 0)
    end.

(** ** Writing a move *)

(** [cout << v] for an [int]. *)
Definition print_int (v : Z) : string := NilZero.string_of_int (Z.to_int v).

(** The six coordinates separated by single spaces. *)
Definition print_move (m : Move) : string :=
  (print_int (x0 m) ++ " " ++ print_int (y0 m) ++ " " ++ print_int (x1 m) ++ " "
   ++ print_int (y1 m) ++ " " ++ print_int (x2 m) ++ " " ++ print_int (y2 m))%string.

(** ** [main] of [src/bots/bot026.cpp] *)

(** What one line of the history makes the replay loop do. *)
Inductive HistoryLine : Type :=
| Skip                    (** [c[0] == -1]: [continue] *)
| Replay (m : Move)       (** [board.apply_move(Move(c[0], ..., c[5]))] *)
| Uninitialised.          (** a [c[k]] is read that no extraction wrote *)

(** [n] extractions in a row: the value each one writes, if any. *)
Fixpoint extract_ints (n : nat) (ss : stringstream) : list (option Z) :=
  match n with
  | O => []
  | S n' => let '(ss', v) := extract_int ss in v :: extract_ints n' ss'
  end.

(** The body of [for (const auto& l : lines)] up to the call of
    [apply_move]. *)
Definition history_line (l : string) : HistoryLine :=
  let '(ss, c0) := extract_int (stringstream_ l) in
  match c0 with
  | Some v0 =>
      if v0 =? -1 then Skip
      else
        match extract_ints 5 ss with
        | [Some c1; Some c2; Some c3; Some c4; Some c5] => Replay (Move_ v0 c1 c2 c3 c4 c5)
        | _ => Uninitialised
        end
  | None => Uninitialised
  end.

(** The three cells of [m] are cells of [grid[NUM_SQUARES]]. *)
Definition in_grid (i : Z) : bool := (0 <=? i) && (i <? NUM_SQUARES).
Definition move_in_grid (m : Move) : bool :=
  in_grid (x0 m * 8 + y0 m) && in_grid (x1 m * 8 + y1 m) && in_grid (x2 m * 8 + y2 m).

(** The replay loop: [None] when a line reads an uninitialised [int] or
    makes [apply_move] index outside the grid. *)
Fixpoint replay (lines : list string) (board : Board) : option Board :=
  match lines with
  | [] => Some board
  | l :: rest =>
      match history_line l with
      | Skip => replay rest board
      | Replay m => if move_in_grid m then replay rest (apply_move board m) else None
      | Uninitialised => None
      end
  end.

(** [for (i < count) { string l; getline(cin, l); lines.push_back(l); }]:
    the result of [getline] is not looked at, a missing line is empty. *)
Fixpoint read_lines (count : nat) (input : list string) : list string :=
  match count with
  | O => []
  | S c =>
      match input with
      | l :: rest => l :: read_lines c rest
      | [] => EmptyString :: read_lines c []
      end
  end.

(** [my_color], from the first integer of [lines[0]]. *)
Definition color_of_line (l : string) : Z :=
  match snd (extract_int (stringstream_ l)) with
  | Some v => if v =? -1 then BLACK else WHITE
  | None => WHITE
  end.

(** What [main] has when it calls [search]: the turn, the board and the
    colour of the engine. *)
Record Request : Type := mkRequest { rq_turn : Z; rq_board : Board; rq_color : Z }.

(** [main] up to the call of [search]: the outcome when it ends before, else
    the request. *)
Definition read_request (input : list string) : Outcome + Request :=
  match input with
  | [] => inl Silent
  | line :: rest =>
      match stoi line with
      | None => inl Thrown
      | Some turn =>
          if negb (in_int (2 * turn) && in_int (2 * turn - 1)) then inl Undefined
          else
            let lines := read_lines (Z.to_nat (2 * turn - 1)) rest in
            match lines with
            | [] => inl Undefined
            | l0 :: _ =>
                match replay lines new_Board with
                | None => inl Undefined
                | Some board => inr (mkRequest turn board (color_of_line l0))
                end
            end
      end
  end.

(** [seed_rng], [clock] being the count of the steady clock. *)
Definition seed_rng (clock : Z) : Z :=
  let s := u32 clock in if s =? 0 then 3735928559 else s.

(** The line [main] writes for the result of [search]. *)
Definition print_best (best : Move) : string :=
  if negb (x0 best =? -1) then print_move best else "-1 -1 -1 -1 -1 -1"%string.

Section Main.

Variable MAX_NODES : Z.
Variable MAX_MOVES_POOL : Z.
Variable flog : Q -> Q.
Variable fsqrt : Q -> Q.
Variable fexp : Q -> Q.

(** The outcome of the deadline test of [search], reading by reading. The
    budget [limit - 0.05] that [main] passes is part of it. *)
Variable now_ge_deadline : nat -> bool.

(** [main]: [None] when the fuel of [search] runs out. *)
Definition main (clock : Z) (fuel : nat) (input : list string) : option Outcome :=
  match read_request input with
  | inl o => Some o
  | inr rq =>
      best ← search MAX_NODES MAX_MOVES_POOL flog fsqrt fexp now_ge_deadline fuel
               (rq_board rq) (rq_color rq) (rq_turn rq) (seed_rng clock);
      Some (Printed (print_best best))
  end.

End Main.

(** ** The random player of [src/bots/bot.cpp] *)

Module Bot.

(** [DIRECTIONS[8][2]] *)
Definition DIRECTIONS : list (Z * Z) :=
  [(-1, -1); (-1, 0); (-1, 1); (0, -1); (0, 1); (1, -1); (1, 0); (1, 1)].

Definition is_valid (x y : Z) : bool :=
  (0 <=? x) && (x <? 8) && (0 <=? y) && (y <? 8).

(** [grid[x][y]] of [array<array<int, 8>, 8>]: cell [x * 8 + y] of the 64. *)
Definition cell (grid : Board) (x y : Z) : Z := grid_at grid (x * 8 + y).

(** [while (is_valid(ax, ay))] of the arrow. A ray leaves the board within
    eight steps, which is the fuel the caller gives. *)
Fixpoint arrow_loop (fuel : nat) (grid : Board) (px py nx ny adx ady ax ay : Z)
    (moves : list Move) : list Move :=
  match fuel with
  | O => moves
  | S fuel' =>
      if is_valid ax ay then
        if negb (cell grid ax ay =? EMPTY) && negb ((ax =? px) && (ay =? py)) then moves
        else arrow_loop fuel' grid px py nx ny adx ady (ax + adx) (ay + ady)
               (moves ++ [mkMove px py nx ny ax ay])
      else moves
  end.

(** [for (int ad = 0; ad < 8; ad++)] *)
Definition arrows (grid : Board) (px py nx ny : Z) (moves : list Move) : list Move :=
  fold_left (fun mv (ad : Z * Z) =>
               arrow_loop 8 grid px py nx ny (fst ad) (snd ad) (nx + fst ad) (ny + snd ad) mv)
            DIRECTIONS moves.

(** [while (is_valid(nx, ny) && grid[nx][ny] == EMPTY)] of the piece. *)
Fixpoint slide_loop (fuel : nat) (grid : Board) (px py dx dy nx ny : Z)
    (moves : list Move) : list Move :=
  match fuel with
  | O => moves
  | S fuel' =>
      if is_valid nx ny && (cell grid nx ny =? EMPTY) then
        slide_loop fuel' grid px py dx dy (nx + dx) (ny + dy) (arrows grid px py nx ny moves)
      else moves
  end.

(** The body of the two loops on [px] and [py]. *)
Definition piece_moves (grid : Board) (color px py : Z) (moves : list Move) : list Move :=
  if negb (cell grid px py =? color) then moves
  else
    fold_left (fun mv (d : Z * Z) =>
                 slide_loop 8 grid px py (fst d) (snd d) (px + fst d) (py + snd d) mv)
              DIRECTIONS moves.

(** [Board::get_legal_moves] *)
Definition get_legal_moves (grid : Board) (color : Z) : list Move :=
  fold_left (fun mv px =>
               fold_left (fun mv py => piece_moves grid color px py mv) (seqZ 0 8) mv)
            (seqZ 0 8) [].

(** [Board::apply_move]: [None] when a coordinate is outside the arrays. *)
Definition apply_move (grid : Board) (m : Move) : option Board :=
  if is_valid (x0 m) (y0 m) && is_valid (x1 m) (y1 m) && is_valid (x2 m) (y2 m) then
    let piece := cell grid (x0 m) (y0 m) in
    let g := grid_set grid (x0 m * 8 + y0 m) EMPTY in
    let g := grid_set g (x1 m * 8 + y1 m) piece in
    Some (grid_set g (x2 m * 8 + y2 m) OBSTACLE)
  else None.

(** [while (iss >> v) coords.push_back(v);]: the integers read up to the
    first extraction that fails. Every extraction that succeeds takes a
    character, so the length of the text bounds the turns of the loop. *)
Fixpoint extract_loop (fuel : nat) (ss : stringstream) : list Z :=
  match fuel with
  | O => []
  | S fuel' =>
      let '(ss', v) := extract_int ss in
      match v with
      | Some v => if ss_fail ss' then [] else v :: extract_loop fuel' ss'
      | None => []
      end
  end.

Definition coords_of (l : string) : list Z :=
  extract_loop (S (String.length l)) (stringstream_ l).

(** The replay loop: [None] when [coords] is indexed past its end or
    [apply_move] indexes outside the grid. *)
Fixpoint replay (lines : list string) (board : Board) : option Board :=
  match lines with
  | [] => Some board
  | l :: rest =>
      match coords_of l with
      | [] => None
      | c0 :: cs =>
          if c0 =? -1 then replay rest board
          else
            match cs with
            | c1 :: c2 :: c3 :: c4 :: c5 :: _ =>
                board' ← apply_move board (mkMove c0 c1 c2 c3 c4 c5);
                replay rest board'
            | _ => None
            end
      end
  end.

(** The reading loop: [None] when [getline] fails ([return 0]). *)
Fixpoint read_lines (count : nat) (input : list string) : option (list string) :=
  match count with
  | O => Some []
  | S c =>
      match input with
      | l :: rest => (l ::.) <$> read_lines c rest
      | [] => None
      end
  end.

(** [main] up to the generation of the moves: the outcome when it ends
    before, else the board and the colour of the player. *)
Definition read_request (input : list string) : Outcome + (Board * Z) :=
  match input with
  | [] => inl Silent
  | line :: rest =>
      match stoi line with
      | None => inl Silent
      | Some turn_id =>
          if negb (in_int (2 * turn_id) && in_int (2 * turn_id - 1)) then inl Undefined
          else
            match read_lines (Z.to_nat (2 * turn_id - 1)) rest with
            | None => inl Silent
            | Some lines =>
                match lines with
                | [] => inl Undefined
                | l0 :: _ =>
                    match coords_of l0 with
                    | [] => inl Undefined
                    | v :: _ =>
                        match replay lines new_Board with
                        | None => inl Undefined
                        | Some board => inr (board, if v =? -1 then BLACK else WHITE)
                        end
                    end
                end
            end
      end
  end.

(** [main], [rand] being the value [rand()] returns. *)
Definition main (rand : Z) (input : list string) : Outcome :=
  match read_request input with
  | inl o => o
  | inr (board, my_color) =>
      let legal_moves := get_legal_moves board my_color in
      let best_move :=
        match legal_moves with
        | [] => mkMove (-1) (-1) (-1) (-1) (-1) (-1)
        | _ =>
            default Move_default
              (legal_moves !! Z.to_nat (rand mod Z.of_nat (length legal_moves)))
        end in
      Printed (print_move best_move)
  end.

End Bot.

(** ** Statements on the programs *)



Section ProgramStatements.

Variable MAX_NODES : Z.
Variable MAX_MOVES_POOL : Z.
Variable flog : Q -> Q.
Variable fsqrt : Q -> Q.
Variable fexp : Q -> Q.
Variable now_ge_deadline : nat -> bool.

(** [main] of [bot026.cpp] writes a line for the request [rq]: the sentinel
    or a move of the list generated for the board and the colour of [rq]. *)
Definition emits_generated_move (clock : Z) (fuel : nat) (input : list string)
    (rq : Request) : Prop :=
  exists out,
    main MAX_NODES MAX_MOVES_POOL flog fsqrt fexp now_ge_deadline clock fuel input
    = Some (Printed out) /\
    (out = "-1 -1 -1 -1 -1 -1"%string \/
     exists m,
       In m (root_legal_moves MAX_MOVES_POOL (rq_board rq) (rq_color rq)) /\
       out = print_move m).


End ProgramStatements.

(** [main] of [bot.cpp] writes a line for the board and the colour it read:
    the sentinel when no move is generated, else a generated move. *)
Definition bot_emits_generated_move (rand : Z) (input : list string) (board : Board)
    (color : Z) : Prop :=
  exists m,
    Bot.main rand input = Printed (print_move m) /\
    ((Bot.get_legal_moves board color = [] /\ m = mkMove (-1) (-1) (-1) (-1) (-1) (-1)) \/
     In m (Bot.get_legal_moves board color)).

(** ** Measures of the loops *)

(** The cells left on the board beyond [(x, y)] along the step [(dr, dc)]. *)
Definition ray_room (dr dc x y : Z) : Z :=
  if dr =? 1 then 7 - x
  else if dr =? -1 then x
  else if dc =? 1 then 7 - y
  else y.

(** What bounds the turns left to the loop of [run_bfs]: every push lowers
    a distance, every turn pops a cell. *)
Definition bfs_measure (dist_out : list Z) (queue : list Z) : Z :=
  sumZ dist_out + Z.of_nat (length queue).

(** ** The iteration after [n] iterations *)

Section IterationAfter.

Variable MAX_NODES : Z.
Variable MAX_MOVES_POOL : Z.
Variable flog : Q -> Q.
Variable fsqrt : Q -> Q.
Variable fexp : Q -> Q.
Variable root_state : Board.
Variable root_player : Z.
Variable turn : Z.
Variable seed : Z.

(** The globals after [n] iterations of a search with the iteration that
    follows them (the pair [reaches] describes), computed. *)
Definition iteration_after (n : nat) : option (Globals * Iteration) :=
  init ← search_init MAX_NODES MAX_MOVES_POOL root_state root_player seed;
  gn ← iterate_n MAX_NODES MAX_MOVES_POOL flog fsqrt n root_state root_player turn
         (ucb_constant fexp turn) 0 (snd init);
  it ← iterate MAX_NODES MAX_MOVES_POOL flog fsqrt root_state root_player turn
         (ucb_constant fexp turn) 0 gn;
  Some (gn, it).


End IterationAfter.

(** ** The moves of the game *)

(** The cells [(x + j dr, y + j dc)], [1 <= j <= k], along the step [d] are
    on the board and their indices satisfy [free]. *)
Definition clear_path (free : Z -> Prop) (x y : Z) (d : Z * Z) (k : Z) : Prop :=
  forall j, 1 <= j <= k ->
    on_board (x + j * fst d) (y + j * snd d) = true /\
    free ((x + j * fst d) * 8 + (y + j * snd d)).

(** [m] is a move of the game for [color] on [grid]: a piece of [color]
    stands on the source; it slides along one of the eight directions over
    empty cells to the destination; the arrow flies from the destination
    along one of the eight directions over cells that are empty or the
    source the piece has left. *)
Definition legal_move (grid : Board) (color : Z) (m : Move) : Prop :=
  on_board (x0 m) (y0 m) = true /\
  grid_at grid (x0 m * 8 + y0 m) = color /\
  (exists d k,
     In d DIRECTIONS /\ 1 <= k /\
     x1 m = x0 m + k * fst d /\ y1 m = y0 m + k * snd d /\
     clear_path (fun i => grid_at grid i = EMPTY) (x0 m) (y0 m) d k) /\
  (exists d k,
     In d DIRECTIONS /\ 1 <= k /\
     x2 m = x1 m + k * fst d /\ y2 m = y1 m + k * snd d /\
     clear_path (fun i => grid_at grid i = EMPTY \/ i = x0 m * 8 + y0 m) (x1 m) (y1 m) d k).

(** [pool'] is [pool] followed by moves among which is [m]. *)
Definition appends (m : Move) (pool pool' : list Move) : Prop :=
  exists l, pool' = pool ++ l /\ In m l.

(** The wins of every node are between 0 and its visits: a sum of scores
    between 0 and 1, one a visit. *)
Definition stats_ok (g : Globals) : Prop :=
  forall j nj, node_pool g !! j = Some nj -> (0 <= wins nj <= inject_Z (visits nj))%Q.

(** * Properties *)

(** ** Cells of a board *)


Lemma grid_at_set_ne (grid : Board) i j v :
  i <> j -> grid_at (grid_set grid i v) j = grid_at grid j.
Proof.
  intros Hne. unfold grid_at, grid_set.
  destruct (Z.ltb_spec j 0); [reflexivity|].
  destruct (Z.ltb_spec i 0); [reflexivity|].
  rewrite list_lookup_insert_ne by lia. reflexivity.
Qed.

Lemma length_grid_set (grid : Board) i v :
  length (grid_set grid i v) = length grid.
Proof. unfold grid_set. destruct (i <? 0); [reflexivity|apply length_insert]. Qed.

Lemma grid_at_outside (grid : Board) i :
  ~ (0 <= i < Z.of_nat (length grid)) -> grid_at grid i = 0.
Proof.
  intros Hi. unfold grid_at. destruct (Z.ltb_spec i 0); [reflexivity|].
  rewrite lookup_ge_None_2 by lia. reflexivity.
Qed.




(** ** The move generator writes only moves satisfying [gen_ok] *)

Lemma extends_refl P pool : extends P pool pool.
Proof. exists []. split; [symmetry; apply app_nil_r|constructor]. Qed.

Lemma extends_trans P a b c : extends P a b -> extends P b c -> extends P a c.
Proof.
  intros (l1 & -> & H1) (l2 & -> & H2). exists (l1 ++ l2). split.
  - symmetry. apply app_assoc.
  - apply Forall_app. split; assumption.
Qed.

Lemma extends_snoc (P : Move -> Prop) pool m : P m -> extends P pool (pool ++ [m]).
Proof. intros H. exists [m]. split; [reflexivity|]. repeat constructor. exact H. Qed.

Lemma fold_left_extends {A} P (f : list Move -> A -> list Move) (xs : list A) :
  (forall x pool, In x xs -> extends P pool (f pool x)) ->
  forall pool, extends P pool (fold_left f xs pool).
Proof.
  induction xs as [|x xs IH]; intros Hf pool; cbn [fold_left].
  - apply extends_refl.
  - eapply extends_trans; [apply Hf; left; reflexivity|].
    apply IH. intros y q Hy. apply Hf. right. exact Hy.
Qed.

Lemma int8_small v : -128 <= v < 128 -> int8 v = v.
Proof. intros H. unfold int8. rewrite Z.mod_small by lia. lia. Qed.

Lemma on_board_spec x y : on_board x y = true <-> 0 <= x < 8 /\ 0 <= y < 8.
Proof. unfold on_board. rewrite !andb_true_iff, !Z.leb_le, !Z.ltb_lt. lia. Qed.

Lemma DIRECTIONS_step d :
  In d DIRECTIONS -> -1 <= fst d <= 1 /\ -1 <= snd d <= 1 /\ (fst d <> 0 \/ snd d <> 0).
Proof.
  unfold DIRECTIONS. cbn [In].
  intros H. repeat (destruct H as [<-|H]; [cbn; lia|]). contradiction.
Qed.

Section MoveGenFacts.

Variable MAX_MOVES_POOL : Z.
Variable grid : Board.
Variable color : Z.

Lemma shot_loop_extends fuel p px py nx ny ad_row ad_col :
  -1 <= ad_row <= 1 -> -1 <= ad_col <= 1 -> (ad_row <> 0 \/ ad_col <> 0) ->
  on_board px py = true -> on_board nx ny = true -> p = px * 8 + py ->
  grid_at grid p = color -> grid_at grid (nx * 8 + ny) = EMPTY ->
  forall k ax ay pool,
    0 <= k -> ax = nx + k * ad_row -> ay = ny + k * ad_col ->
    extends (gen_ok grid color) pool
      (shot_loop MAX_MOVES_POOL fuel grid p px py nx ny ad_row ad_col ax ay pool).
Proof.
  intros Hr Hc Hnz Hp Hn -> Hsrc Hdst.
  apply on_board_spec in Hp. apply on_board_spec in Hn.
  induction fuel as [|fuel IH]; intros k ax ay pool Hk Hax Hay; cbn [shot_loop].
  - apply extends_refl.
  - destruct (on_board (ax + ad_row) (ay + ad_col)) eqn:Hon; cbn [negb];
      [|apply extends_refl].
    destruct (negb (grid_at grid ((ax + ad_row) * 8 + (ay + ad_col)) =? EMPTY)
              && negb ((ax + ad_row) * 8 + (ay + ad_col) =? px * 8 + py)) eqn:Hblk;
      [apply extends_refl|].
    destruct (pool_ptr pool <? MAX_MOVES_POOL); [|apply extends_refl].
    eapply extends_trans; [apply extends_snoc|apply (IH (k + 1)); lia].
    pose proof Hon as Hon'. apply on_board_spec in Hon'.
    unfold gen_ok, Move_. cbn [x0 y0 x1 y1 x2 y2].
    rewrite !int8_small by lia.
    repeat split; try (apply on_board_spec; lia); try assumption.
    + subst ax ay. nia.
    + apply andb_false_iff in Hblk. destruct Hblk as [H|H].
      * left. apply negb_false_iff, Z.eqb_eq in H. exact H.
      * right. apply negb_false_iff, Z.eqb_eq in H. exact H.
Qed.

Lemma shot_phase_extends p px py nx ny pool :
  on_board px py = true -> on_board nx ny = true -> p = px * 8 + py ->
  grid_at grid p = color -> grid_at grid (nx * 8 + ny) = EMPTY ->
  extends (gen_ok grid color) pool (shot_phase MAX_MOVES_POOL grid p px py nx ny pool).
Proof.
  intros Hp Hn Hpe Hsrc Hdst. unfold shot_phase.
  apply fold_left_extends. intros ad q Had.
  destruct (DIRECTIONS_step ad Had) as (Hr & Hc & Hnz).
  apply (shot_loop_extends 8 p px py nx ny (fst ad) (snd ad) Hr Hc Hnz Hp Hn Hpe Hsrc Hdst 0);
    lia.
Qed.

Lemma slide_loop_extends fuel p px py d_row d_col :
  on_board px py = true -> p = px * 8 + py -> grid_at grid p = color ->
  forall nx ny pool,
    extends (gen_ok grid color) pool
      (slide_loop MAX_MOVES_POOL fuel grid p px py d_row d_col nx ny pool).
Proof.
  intros Hp Hpe Hsrc.
  induction fuel as [|fuel IH]; intros nx ny pool; cbn [slide_loop].
  - apply extends_refl.
  - destruct (on_board (nx + d_row) (ny + d_col)) eqn:Hon; cbn [negb];
      [|apply extends_refl].
    destruct (Z.eqb_spec (grid_at grid ((nx + d_row) * 8 + (ny + d_col))) EMPTY) as [He|He];
      cbn [negb]; [|apply extends_refl].
    eapply extends_trans; [|apply IH].
    apply shot_phase_extends; assumption.
Qed.

Lemma piece_moves_extends pool p :
  0 <= p < 64 ->
  extends (gen_ok grid color) pool (piece_moves MAX_MOVES_POOL grid color pool p).
Proof.
  intros Hp. unfold piece_moves.
  destruct (Z.eqb_spec (grid_at grid p) color) as [He|He]; cbn [negb];
    [|apply extends_refl].
  apply fold_left_extends. intros d q _.
  apply slide_loop_extends; [| |exact He].
  - apply on_board_spec.
    pose proof (Z.div_pos p 8). pose proof (Z.mod_pos_bound p 8).
    assert (p / 8 < 8) by (apply Z.div_lt_upper_bound; lia). lia.
  - pose proof (Z.div_mod p 8). lia.
Qed.

Lemma get_legal_moves_unfold pool :
  get_legal_moves MAX_MOVES_POOL grid color pool
  = (pool_ptr pool,
     pool_ptr (fold_left (piece_moves MAX_MOVES_POOL grid color) (seqZ 0 NUM_SQUARES) pool)
     - pool_ptr pool,
     fold_left (piece_moves MAX_MOVES_POOL grid color) (seqZ 0 NUM_SQUARES) pool).
Proof. reflexivity. Qed.

Lemma get_legal_moves_extends pool :
  extends (gen_ok grid color) pool
    (snd (get_legal_moves MAX_MOVES_POOL grid color pool)).
Proof.
  rewrite get_legal_moves_unfold. cbn [snd].
  apply fold_left_extends. intros p q Hp. apply piece_moves_extends.
  apply list_elem_of_In, elem_of_seqZ in Hp. unfold NUM_SQUARES in Hp. lia.
Qed.

(** The pool is extended by exactly the moves returned, and the start index
    and count delimit them. *)
Lemma get_legal_moves_shape pool :
  let r := get_legal_moves MAX_MOVES_POOL grid color pool in
  fst (fst r) = pool_ptr pool /\
  snd (fst r) = Z.of_nat (length (returned_moves r)) /\
  snd r = pool ++ returned_moves r /\
  Forall (gen_ok grid color) (returned_moves r).
Proof.
  intros r. subst r.
  pose proof (get_legal_moves_extends pool) as (l & Hl & HP).
  revert Hl. rewrite get_legal_moves_unfold. unfold returned_moves. cbn [fst snd].
  generalize (fold_left (piece_moves MAX_MOVES_POOL grid color) (seqZ 0 NUM_SQUARES) pool).
  intros pool' ->.
  unfold pool_ptr. rewrite length_app.
  replace (Z.to_nat (Z.of_nat (length pool + length l) - Z.of_nat (length pool)))
    with (length l) by lia.
  rewrite Nat2Z.id, drop_app_length, firstn_all.
  repeat split; try reflexivity; [lia|exact HP].
Qed.

Lemma returned_moves_ok pool m :
  m ∈ returned_moves (get_legal_moves MAX_MOVES_POOL grid color pool) ->
  gen_ok grid color m.
Proof.
  intros Hm. destruct (get_legal_moves_shape pool) as (_ & _ & _ & HP).
  rewrite Forall_forall in HP. apply HP, Hm.
Qed.

End MoveGenFacts.

(** ** Effect of applying a generated move *)

Lemma apply_move_frame (grid : Board) m i :
  i <> x0 m * 8 + y0 m -> i <> x1 m * 8 + y1 m -> i <> x2 m * 8 + y2 m ->
  grid_at (apply_move grid m) i = grid_at grid i.
Proof.
  intros H0 H1 H2. unfold apply_move.
  rewrite !grid_at_set_ne by congruence. reflexivity.
Qed.

Lemma length_apply_move (grid : Board) m : length (apply_move grid m) = length grid.
Proof. unfold apply_move. rewrite !length_grid_set. reflexivity. Qed.





(** ** Evaluator: the pieces found for each side *)

Lemma find_pieces_fold (a b : Z -> bool) (cells : list Z) (my opp : list Z) :
  fold_left
    (fun acc i =>
       if a i then (fst acc ++ [i], snd acc)
       else if b i then (fst acc, snd acc ++ [i]) else acc)
    cells (my, opp)
  = (my ++ List.filter a cells, opp ++ List.filter (fun i => negb (a i) && b i) cells).
Proof.
  revert my opp. induction cells as [|i cells IH]; intros my opp; cbn [fold_left List.filter].
  - rewrite !app_nil_r. reflexivity.
  - destruct (a i); cbn [negb andb fst snd].
    + rewrite IH, <- app_assoc. reflexivity.
    + destruct (b i); cbn [fst snd]; rewrite IH, <- ?app_assoc; reflexivity.
Qed.

(** The first list holds the cells of [root_player], the second those of
    the other side. *)
Lemma find_pieces_spec (grid : Board) (root_player : Z) :
  root_player <> 0 ->
  find_pieces grid root_player
  = (List.filter (fun i => grid_at grid i =? root_player) (seqZ 0 NUM_SQUARES),
     List.filter (fun i => grid_at grid i =? - root_player) (seqZ 0 NUM_SQUARES)).
Proof.
  intros Hnz. unfold find_pieces.
  rewrite (find_pieces_fold (fun i => grid_at grid i =? root_player)
             (fun i => grid_at grid i =? - root_player)).
  cbn [app]. f_equal. apply filter_ext. intros i.
  destruct (Z.eqb_spec (grid_at grid i) root_player) as [->|]; cbn [negb andb];
    [|reflexivity].
  destruct (Z.eqb_spec root_player (- root_player)); [lia|reflexivity].
Qed.


(** ** Evaluator: antisymmetry of the raw components *)




Lemma raw_scores_unfold (grid : Board) (root_player : Z) :
  raw_scores grid root_player
  = mkScores
      (qt (score_board grid (run_bfs grid (fst (find_pieces grid root_player)))
                            (run_bfs grid (snd (find_pieces grid root_player)))))
      (kt (score_board grid (run_bfs grid (fst (find_pieces grid root_player)))
                            (run_bfs grid (snd (find_pieces grid root_player)))))
      (qp (score_board grid (run_bfs grid (fst (find_pieces grid root_player)))
                            (run_bfs grid (snd (find_pieces grid root_player)))))
      (kp (score_board grid (run_bfs grid (fst (find_pieces grid root_player)))
                            (run_bfs grid (snd (find_pieces grid root_player)))))
      (inject_Z (calc_mobility grid (fst (find_pieces grid root_player))
                 - calc_mobility grid (snd (find_pieces grid root_player)))).
Proof. reflexivity. Qed.



(** ** Evaluator: mobility *)

Lemma take_while_snoc_false {A} (f : A -> bool) (l : list A) (x : A) :
  f x = false -> take_while f (l ++ [x]) = take_while f l.
Proof.
  intros Hx. induction l as [|y l IH]; cbn [app take_while].
  - rewrite Hx. reflexivity.
  - destruct (f y); [rewrite IH|]; reflexivity.
Qed.

(** The loop of [calc_mobility] along one ray counts the squares of
    [take_while] on the steps [k, k+1, ...]. *)
Lemma mob_ray_take_while (grid : Board) (px py d_row d_col : Z) (fuel : nat) :
  forall k mob,
    mob_ray fuel grid d_row d_col (px + k * d_row) (py + k * d_col) mob
    = mob + Z.of_nat (length (take_while
        (fun k => on_board (px + k * d_row) (py + k * d_col)
                  && (grid_at grid ((px + k * d_row) * 8 + (py + k * d_col)) =? EMPTY))
        (seqZ k (Z.of_nat fuel)))).
Proof.
  induction fuel as [|fuel IH]; intros k mob.
  - rewrite seqZ_nil by lia. cbn [mob_ray take_while length]. lia.
  - rewrite seqZ_cons by lia.
    replace (Z.pred (Z.of_nat (S fuel))) with (Z.of_nat fuel) by lia.
    cbn [mob_ray take_while].
    destruct (on_board (px + k * d_row) (py + k * d_col)); cbn [andb]; [|cbn; lia].
    destruct (grid_at grid ((px + k * d_row) * 8 + (py + k * d_col)) =? EMPTY);
      cbn [negb]; [|cbn; lia].
    replace (px + k * d_row + d_row) with (px + Z.succ k * d_row) by lia.
    replace (py + k * d_col + d_col) with (py + Z.succ k * d_col) by lia.
    rewrite IH. cbn [length]. lia.
Qed.

Lemma mob_ray_slide_count (grid : Board) (px py : Z) (dir : Z * Z) (mob : Z) :
  on_board px py = true -> In dir DIRECTIONS ->
  mob_ray 8 grid (fst dir) (snd dir) (px + fst dir) (py + snd dir) mob
  = mob + slide_count grid px py dir.
Proof.
  intros Hp Hd. apply on_board_spec in Hp.
  destruct (DIRECTIONS_step dir Hd) as (Hr & Hc & Hnz).
  pose proof (mob_ray_take_while grid px py (fst dir) (snd dir) 8 1 mob) as H.
  rewrite !Z.mul_1_l in H. rewrite H. unfold slide_count. do 3 f_equal.
  change (seqZ 1 (Z.of_nat 8)) with (seqZ 1 7 ++ [8]).
  apply take_while_snoc_false.
  apply andb_false_iff. left.
  destruct (on_board (px + 8 * fst dir) (py + 8 * snd dir)) eqn:E; [|reflexivity].
  apply on_board_spec in E. lia.
Qed.

Lemma fold_left_add_sumZ {A} (f : A -> Z) (g : Z -> A -> Z) (l : list A) :
  (forall acc x, In x l -> g acc x = acc + f x) ->
  forall acc, fold_left g l acc = acc + sumZ (map f l).
Proof.
  induction l as [|x l IH]; intros Hg acc; cbn [fold_left map sumZ fold_right].
  - lia.
  - rewrite Hg by (left; reflexivity).
    rewrite IH by (intros a y Hy; apply Hg; right; exact Hy).
    unfold sumZ. lia.
Qed.

Lemma cell_on_board p : 0 <= p < 64 -> on_board (p / 8) (p mod 8) = true.
Proof.
  intros Hp. apply on_board_spec.
  pose proof (Z.div_pos p 8). pose proof (Z.mod_pos_bound p 8).
  assert (p / 8 < 8) by (apply Z.div_lt_upper_bound; lia). lia.
Qed.

(** [calc_mobility] is the sliding count of the four pieces it reads. *)
Lemma calc_mobility_slide (grid : Board) (pieces : list Z) :
  Forall (fun p => 0 <= p < 64) pieces ->
  calc_mobility grid pieces = slide_mobility grid (four pieces).
Proof.
  intros Hp. unfold calc_mobility, slide_mobility.
  assert (H4 : Forall (fun p => 0 <= p < 64) (four pieces))
    by (unfold four; apply Forall_take, Hp).
  rewrite Forall_forall in H4.
  rewrite (fold_left_add_sumZ
             (fun p => sumZ (map (slide_count grid (p / 8) (p mod 8)) DIRECTIONS))).
  - lia.
  - intros acc p Hin.
    apply (fold_left_add_sumZ (slide_count grid (p / 8) (p mod 8))).
    intros a d Hd. apply mob_ray_slide_count; [|exact Hd].
    apply cell_on_board, H4, list_elem_of_In, Hin.
Qed.

Lemma find_pieces_range (grid : Board) (root_player : Z) :
  root_player <> 0 ->
  Forall (fun p => 0 <= p < 64) (fst (find_pieces grid root_player)) /\
  Forall (fun p => 0 <= p < 64) (snd (find_pieces grid root_player)).
Proof.
  intros Hnz. rewrite find_pieces_spec by exact Hnz. cbn [fst snd].
  split; apply Forall_forall; intros p Hp; apply list_elem_of_In, filter_In in Hp;
    destruct Hp as [Hp _]; apply list_elem_of_In, elem_of_seqZ in Hp;
    unfold NUM_SQUARES in Hp; lia.
Qed.

Lemma take_while_length_le {A} (f : A -> bool) (l : list A) :
  (length (take_while f l) <= length l)%nat.
Proof.
  induction l as [|x l IH]; cbn [take_while length]; [lia|].
  destruct (f x); cbn [length]; lia.
Qed.

Lemma slide_count_bounds (grid : Board) (px py : Z) (dir : Z * Z) :
  0 <= slide_count grid px py dir <= 7.
Proof.
  unfold slide_count.
  match goal with |- context [take_while ?f ?l] =>
    pose proof (take_while_length_le f l) as H end.
  rewrite length_seqZ in H. lia.
Qed.

(** C5, as amended: the mobility component of the evaluator is the number
    of empty squares reachable from the side's pieces by sliding any number
    of steps along each of the 8 directions, up to the first square that is
    not empty or the edge (summed over pieces and directions, nothing
    deduplicated), minus the same number for the opponent. A direction
    contributes between 0 and 7 squares, so a piece contributes up to 56,
    not 8. The pieces are the cells holding the side's colour, of which the
    code reads the first four. *)
Theorem C5_mobility_component (grid : Board) (root_player : Z) :
  root_player = BLACK \/ root_player = WHITE ->
  let my_pieces := List.filter (fun i => grid_at grid i =? root_player) (seqZ 0 64) in
  let opp_pieces := List.filter (fun i => grid_at grid i =? - root_player) (seqZ 0 64) in
  mob (raw_scores grid root_player)
  = inject_Z (slide_mobility grid (four my_pieces) - slide_mobility grid (four opp_pieces))
  /\ (forall px py dir, 0 <= slide_count grid px py dir <= 7).
Proof.
  intros Hside my_pieces opp_pieces.
  assert (Hnz : root_player <> 0) by (unfold BLACK, WHITE in Hside; lia).
  split; [|intros; apply slide_count_bounds].
  rewrite raw_scores_unfold. cbn [mob].
  destruct (find_pieces_range grid root_player Hnz) as [Hmy Hopp].
  rewrite (calc_mobility_slide grid _ Hmy), (calc_mobility_slide grid _ Hopp).
  rewrite find_pieces_spec by exact Hnz. reflexivity.
Qed.

(** C5 as stated fails. On the opening position Black's four pieces reach
    60 squares by sliding, which is what [calc_mobility] counts, against 20
    squares one step away; four pieces contributing at most 8 each could not
    exceed 32. After Black's move (0,2) to (1,2) shooting (2,2) the
    component is 56 - 62 = -6, where counting single steps gives +2. *)
Lemma C5_counterexample :
  calc_mobility new_Board (fst (find_pieces new_Board BLACK)) = 60 /\
  step_mobility new_Board (fst (find_pieces new_Board BLACK)) = 20 /\
  mob (raw_scores (apply_move new_Board (mkMove 0 2 1 2 2 2)) BLACK) = inject_Z (-6) /\
  step_mobility (apply_move new_Board (mkMove 0 2 1 2 2 2))
    (fst (find_pieces (apply_move new_Board (mkMove 0 2 1 2 2 2)) BLACK))
  - step_mobility (apply_move new_Board (mkMove 0 2 1 2 2 2))
      (snd (find_pieces (apply_move new_Board (mkMove 0 2 1 2 2 2)) BLACK)) = 2.
Proof. vm_compute. repeat split. Qed.

Lemma C5_witness :
  (BLACK = BLACK \/ BLACK = WHITE) /\
  mob (raw_scores new_Board BLACK)
  = inject_Z (slide_mobility new_Board
                (four (List.filter (fun i => grid_at new_Board i =? BLACK) (seqZ 0 64)))
              - slide_mobility new_Board
                  (four (List.filter (fun i => grid_at new_Board i =? - BLACK) (seqZ 0 64)))).
Proof.
  split; [left; reflexivity|].
  apply (C5_mobility_component new_Board BLACK). left. reflexivity.
Defined.

(** ** Search: the selection rule *)

Lemma Qle_bool_false_lt (a b : Q) : Qle_bool a b = false -> (b < a)%Q.
Proof.
  intros H. apply Qnot_le_lt. intros Hle. apply Qle_bool_iff in Hle. congruence.
Qed.

Lemma Qle_bool_true_le (a b : Q) : Qle_bool a b = true -> (a <= b)%Q.
Proof. apply Qle_bool_iff. Qed.

Section Selection.

Variable fsqrt : Q -> Q.
Variable pool : list MCTSNode.
Variable C : Q.
Variable log_v : Q.

Let score (i : nat) : Q :=
  match pool !! i with Some cn => ucb_score fsqrt C log_v cn | None => 0%Q end.

(** Siblings are older nodes of the pool. *)
Hypothesis siblings_older :
  forall i n s, pool !! i = Some n -> next_sibling n = Some s ->
    (s < i)%nat /\ is_Some (pool !! s).

(** The loop returns the first node of the chain with the greatest score,
    provided that score exceeds the initial [best_score]; otherwise it
    returns the initial [best]. *)
Lemma uct_loop_max (fuel : nat) :
  forall c best best_score,
    (forall i, c = Some i -> (i < fuel)%nat /\ is_Some (pool !! i)) ->
    let res := uct_loop fsqrt fuel pool C log_v c best best_score in
    (res = best /\ Forall (fun i => (score i <= best_score)%Q) (chain fuel pool c)) \/
    (exists r l1 l2,
        res = Some r /\ chain fuel pool c = l1 ++ r :: l2 /\
        (best_score < score r)%Q /\
        Forall (fun i => (score i < score r)%Q) l1 /\
        Forall (fun i => (score i <= score r)%Q) l2).
Proof.
  induction fuel as [|fuel IH]; intros c best bs Hc res; subst res.
  - destruct c as [i|]; [destruct (Hc i eq_refl); lia|].
    left. split; [reflexivity|constructor].
  - destruct c as [i|]; [|left; split; [reflexivity|constructor]].
    destruct (Hc i eq_refl) as [Hi [cn Hcn]].
    cbn [uct_loop chain]. rewrite Hcn.
    assert (Hnext : forall s, next_sibling cn = Some s ->
              (s < fuel)%nat /\ is_Some (pool !! s)).
    { intros s Hs. destruct (siblings_older i cn s Hcn Hs). split; [lia|assumption]. }
    assert (Hsc : score i = ucb_score fsqrt C log_v cn) by (unfold score; rewrite Hcn; reflexivity).
    destruct (Qle_bool (ucb_score fsqrt C log_v cn) bs) eqn:Hcmp; cbn [negb].
    + apply Qle_bool_true_le in Hcmp.
      destruct (IH (next_sibling cn) best bs Hnext)
        as [[Hres Hall]|(r & l1 & l2 & Hres & Hch & Hlt & H1 & H2)].
      * left. split; [exact Hres|]. constructor; [rewrite Hsc; exact Hcmp|exact Hall].
      * right. exists r, (i :: l1), l2. split; [exact Hres|]. split; [cbn; rewrite Hch; reflexivity|].
        split; [exact Hlt|]. split; [|exact H2].
        constructor; [|exact H1]. rewrite Hsc. lra.
    + apply Qle_bool_false_lt in Hcmp.
      destruct (IH (next_sibling cn) (Some i) (ucb_score fsqrt C log_v cn) Hnext)
        as [[Hres Hall]|(r & l1 & l2 & Hres & Hch & Hlt & H1 & H2)].
      * right. exists i, [], (chain fuel pool (next_sibling cn)).
        split; [exact Hres|]. split; [reflexivity|]. split; [rewrite Hsc; exact Hcmp|].
        split; [constructor|]. rewrite Hsc. exact Hall.
      * right. exists r, (i :: l1), l2. split; [exact Hres|]. split; [cbn; rewrite Hch; reflexivity|].
        split; [lra|]. split; [|exact H2].
        constructor; [|exact H1]. rewrite Hsc. exact Hlt.
Qed.

End Selection.

(** ** Search: what the invariant gives the selection *)

Section SearchFacts.

Variable MAX_NODES : Z.
Variable MAX_MOVES_POOL : Z.
Variable root_player : Z.
Variable root_moves : list Move.
Variable flog : Q -> Q.
Variable fsqrt : Q -> Q.

Hypothesis fsqrt_nonneg : forall x, (0 <= fsqrt x)%Q.
Hypothesis root_side : root_player = BLACK \/ root_player = WHITE.

Local Abbreviation pools_ok := (pools_ok MAX_NODES MAX_MOVES_POOL root_player root_moves).

Lemma ucb_score_nonneg (C log_v : Q) (cn : MCTSNode) :
  (0 <= C)%Q -> (0 <= wins cn)%Q -> 0 <= visits cn ->
  (0 <= ucb_score fsqrt C log_v cn)%Q.
Proof.
  intros HC Hw Hv. unfold ucb_score.
  assert (Hd : (0 < inject_Z (visits cn) + 0.000001)%Q).
  { assert (0 <= inject_Z (visits cn))%Q by (rewrite <- (Zle_Qle 0); exact Hv). lra. }
  assert (H1 : (0 <= wins cn / (inject_Z (visits cn) + 0.000001))%Q).
  { apply Qle_shift_div_l; [exact Hd|]. lra. }
  pose proof (Qmult_le_0_compat _ _ HC
                (fsqrt_nonneg (log_v / (inject_Z (visits cn) + 0.000001)))) as H2.
  lra.
Qed.

Lemma pools_ok_siblings (g : Globals) :
  pools_ok g ->
  forall i n s, node_pool g !! i = Some n -> next_sibling n = Some s ->
    (s < i)%nat /\ is_Some (node_pool g !! s).
Proof.
  intros (_ & Hn & _) i n s Hi Hs.
  destruct (Hn i n Hi) as (_ & _ & Hns & _).
  destruct (Hns s Hs) as (Hlt & _ & ns & Hl & _). split; [exact Hlt|]. exists ns. exact Hl.
Qed.

(** The nodes of a sibling chain have the parent of its first node. *)
Lemma chain_parent (g : Globals) (p : option nat) (fuel : nat) :
  pools_ok g ->
  forall c,
    (forall i, c = Some i -> exists ni, node_pool g !! i = Some ni /\ parent ni = p) ->
    Forall (fun j => exists nj, node_pool g !! j = Some nj /\ parent nj = p)
           (chain fuel (node_pool g) c).
Proof.
  intros Hok. induction fuel as [|fuel IH]; intros c Hc.
  - destruct c; constructor.
  - destruct c as [i|]; [|constructor]. cbn [chain].
    destruct (Hc i eq_refl) as (ni & Hi & Hp). rewrite Hi.
    constructor; [exists ni; split; assumption|].
    apply IH. intros s Hs.
    destruct Hok as (_ & Hn & _). destruct (Hn i ni Hi) as (_ & _ & Hns & _).
    destruct (Hns s Hs) as (_ & _ & ns & Hl & Hps). exists ns. split; [exact Hl|congruence].
Qed.

Lemma children_parent (g : Globals) (node : nat) :
  pools_ok g ->
  Forall (fun j => exists nj, node_pool g !! j = Some nj /\ parent nj = Some node)
         (children (node_pool g) node).
Proof.
  intros Hok. unfold children.
  destruct (node_pool g !! node) as [n|] eqn:Hn; [|constructor].
  apply chain_parent; [exact Hok|]. intros i Hi.
  destruct Hok as (_ & Hnodes & _). destruct (Hnodes node n Hn) as (_ & Hfc & _).
  exact (Hfc i Hi).
Qed.

(** Under the invariant [uct_select_child] returns a child, the first of
    the chain among those with the greatest score. *)
Lemma uct_select_child_ok (g : Globals) (node : nat) (n : MCTSNode) (C : Q) :
  pools_ok g -> (0 <= C)%Q ->
  node_pool g !! node = Some n -> first_child n <> None ->
  exists c l1 l2,
    uct_select_child flog fsqrt (node_pool g) node C = Some c /\
    children (node_pool g) node = l1 ++ c :: l2 /\
    Forall (fun i => (child_score fsqrt flog (node_pool g) C node i
                      < child_score fsqrt flog (node_pool g) C node c)%Q) l1 /\
    Forall (fun i => (child_score fsqrt flog (node_pool g) C node i
                      <= child_score fsqrt flog (node_pool g) C node c)%Q) l2.
Proof.
  intros Hok HC Hn Hfc.
  unfold uct_select_child, children, child_score. rewrite Hn. cbn [mbind option_bind].
  set (lv := flog (inject_Z (visits n) + 1)%Q).
  destruct (first_child n) as [c0|] eqn:Hc0; [clear Hfc|congruence].
  pose proof Hok as (_ & Hnodes & _).
  destruct (Hnodes node n Hn) as (_ & Hfcn & _).
  destruct (Hfcn c0 Hc0) as (nc0 & Hl0 & Hp0).
  assert (Hstart : forall i, Some c0 = Some i ->
            (i < length (node_pool g))%nat /\ is_Some (node_pool g !! i)).
  { intros i [= <-]. split; [eapply lookup_lt_Some; exact Hl0|exists nc0; exact Hl0]. }
  destruct (uct_loop_max fsqrt (node_pool g) C lv (pools_ok_siblings g Hok)
              (length (node_pool g)) (Some c0) None (- 1000000000)%Q Hstart)
    as [[_ Hall]|(r & l1 & l2 & Hres & Hch & _ & H1 & H2)].
  - exfalso.
    destruct (length (node_pool g)) as [|len] eqn:Hlen;
      [apply lookup_lt_Some in Hl0; lia|].
    cbn [chain] in Hall. rewrite Hl0 in Hall. inversion Hall as [|? ? Hsc _]; subst.
    rewrite Hl0 in Hsc.
    destruct (Hnodes c0 nc0 Hl0) as (_ & _ & _ & _ & _ & Hv & Hw & _).
    pose proof (ucb_score_nonneg C lv nc0 HC Hw Hv). lra.
  - exists r, l1, l2. split; [exact Hres|]. split; [exact Hch|].
    split; [exact H1|exact H2].
Qed.

(** Selection ends, at a node that has untried moves or no child; the
    player to move there is the opponent of the player who moved into it. *)
Lemma select_loop_ok (g : Globals) (C : Q) :
  pools_ok g -> (0 <= C)%Q ->
  forall fuel node n state cp,
    node_pool g !! node = Some n -> player_just_moved n = - cp ->
    (length (node_pool g) <= fuel + node)%nat ->
    exists node' n' state' cp',
      select_loop flog fsqrt fuel (node_pool g) C node state cp = Some (node', state', cp') /\
      node_pool g !! node' = Some n' /\ player_just_moved n' = - cp' /\
      (moves_count n' <> 0 \/ first_child n' = None) /\
      (cp' = cp \/ cp' = - cp).
Proof.
  intros Hok HC. induction fuel as [|fuel IH]; intros node n state cp Hn Hpjm Hfuel.
  - apply lookup_lt_Some in Hn. lia.
  - cbn [select_loop]. rewrite Hn. cbn [mbind option_bind].
    destruct (Z.eqb_spec (moves_count n) 0) as [Hmc|Hmc]; cbn [andb].
    + case_bool_decide as Hfc.
      * destruct (uct_select_child_ok g node n C Hok HC Hn Hfc)
          as (c & l1 & l2 & Hsel & Hch & _).
        rewrite Hsel. cbn [mbind option_bind].
        pose proof (children_parent g node Hok) as Hpar.
        rewrite Hch, Forall_app, Forall_cons in Hpar.
        destruct Hpar as (_ & (nc & Hc & Hpc) & _). rewrite Hc. cbn [mbind option_bind].
        pose proof Hok as (_ & Hnodes & _).
        destruct (Hnodes c nc Hc) as (Hp & _). rewrite Hpc in Hp.
        destruct Hp as (Hlt & np & Hnp & Hpj). rewrite Hn in Hnp. injection Hnp as <-.
        destruct (IH c nc (apply_move state (move nc)) (- cp) Hc) as
          (node' & n' & state' & cp' & Hs & Hn' & Hpj' & Hstop & Hcp); [lia|lia|].
        exists node', n', state', cp'. repeat split; try assumption. lia.
      * exists node, n, state, cp. repeat split; try assumption; [|left; reflexivity].
        right. destruct (first_child n); [discriminate Hfc|reflexivity].
    + exists node, n, state, cp. repeat split; try assumption; left; [exact Hmc|reflexivity].
Qed.

(** Node invariants survive changes that keep links and players. *)
Lemma node_ok_mono (pool pool' : list MCTSNode) (ml ml' : Z) (i : nat) (n : MCTSNode) :
  node_ok root_player root_moves pool ml i n -> same_links pool pool' -> ml <= ml' ->
  node_ok root_player root_moves pool' ml' i n.
Proof.
  intros (Hp & Hfc & Hns & Hmc & Hreg & Hv & Hw & Hmv) Hsame Hml.
  unfold node_ok. split; [|split; [|split; [|split; [|split; [|split; [|split]]]]]];
    try assumption.
  - destruct (parent n) as [p|]; [|exact Hp].
    destruct Hp as (Hlt & np & Hnp & Hpj). split; [exact Hlt|].
    destruct (Hsame p np Hnp) as (np' & Hnp' & _ & Hpj'). exists np'.
    split; [exact Hnp'|congruence].
  - intros c Hc. destruct (Hfc c Hc) as (nc & Hnc & Hpc).
    destruct (Hsame c nc Hnc) as (nc' & Hnc' & Hpc' & _). exists nc'.
    split; [exact Hnc'|congruence].
  - intros s Hs. destruct (Hns s Hs) as (Hlt & Hnn & ns & Hl & Hps).
    split; [exact Hlt|]. split; [exact Hnn|].
    destruct (Hsame s ns Hl) as (ns' & Hl' & Hps' & _). exists ns'.
    split; [exact Hl'|congruence].
  - intros Hpos. destruct (Hreg Hpos) as (H1 & H2 & H3 & H4).
    repeat split; try assumption. lia.
Qed.

Lemma same_links_refl (pool : list MCTSNode) : same_links pool pool.
Proof. intros j nj Hj. exists nj. repeat split. exact Hj. Qed.

(** Replacing a node by one with the same parent and player keeps links. *)
Lemma same_links_insert (pool : list MCTSNode) (i : nat) (n n' : MCTSNode) :
  pool !! i = Some n -> parent n' = parent n ->
  player_just_moved n' = player_just_moved n ->
  same_links pool (<[i := n']> pool).
Proof.
  intros Hi Hp Hpj j nj Hj. destruct (decide (i = j)) as [->|Hne].
  - exists n'. rewrite list_lookup_insert_eq by (eapply lookup_lt_Some; exact Hj).
    rewrite Hi in Hj. injection Hj as <-. repeat split; assumption.
  - exists nj. rewrite list_lookup_insert_ne by exact Hne. repeat split. exact Hj.
Qed.

Lemma same_links_app (pool extra : list MCTSNode) : same_links pool (pool ++ extra).
Proof.
  intros j nj Hj. exists nj. repeat split. apply lookup_app_l_Some. exact Hj.
Qed.

Lemma same_links_trans (a b c : list MCTSNode) :
  same_links a b -> same_links b c -> same_links a c.
Proof.
  intros Hab Hbc j nj Hj. destruct (Hab j nj Hj) as (nj' & Hj' & Hp & Hpj).
  destruct (Hbc j nj' Hj') as (nj'' & Hj'' & Hp' & Hpj'). exists nj''.
  split; [exact Hj''|]. split; congruence.
Qed.

End SearchFacts.

(** ** The move generator respects the capacity of the pool *)

Lemma fold_left_preserves {A B} (P : A -> Prop) (f : A -> B -> A) (l : list B) :
  (forall a x, P a -> P (f a x)) -> forall a, P a -> P (fold_left f l a).
Proof.
  intros Hf. induction l as [|x l IH]; intros a Ha; cbn [fold_left]; [exact Ha|].
  apply IH, Hf, Ha.
Qed.

Lemma shot_loop_cap M fuel grid p px py nx ny ad_row ad_col :
  forall ax ay pool,
    pool_ptr pool <= M ->
    pool_ptr (shot_loop M fuel grid p px py nx ny ad_row ad_col ax ay pool) <= M.
Proof.
  induction fuel as [|fuel IH]; intros ax ay pool Hp; cbn [shot_loop]; [exact Hp|].
  destruct (negb (on_board (ax + ad_row) (ay + ad_col))); [exact Hp|].
  destruct (negb (grid_at grid ((ax + ad_row) * 8 + (ay + ad_col)) =? EMPTY)
            && negb ((ax + ad_row) * 8 + (ay + ad_col) =? p)); [exact Hp|].
  destruct (Z.ltb_spec (pool_ptr pool) M); [|exact Hp].
  apply IH. unfold pool_ptr in *. rewrite length_app. cbn [length]. lia.
Qed.

Lemma slide_loop_cap M fuel grid p px py d_row d_col :
  forall nx ny pool,
    pool_ptr pool <= M ->
    pool_ptr (slide_loop M fuel grid p px py d_row d_col nx ny pool) <= M.
Proof.
  induction fuel as [|fuel IH]; intros nx ny pool Hp; cbn [slide_loop]; [exact Hp|].
  destruct (negb (on_board (nx + d_row) (ny + d_col))); [exact Hp|].
  destruct (negb (grid_at grid ((nx + d_row) * 8 + (ny + d_col)) =? EMPTY)); [exact Hp|].
  apply IH. unfold shot_phase.
  apply (fold_left_preserves (fun pool => pool_ptr pool <= M)); [|exact Hp].
  intros a x Ha. apply shot_loop_cap, Ha.
Qed.

(** [get_legal_moves] never moves the pointer past the capacity. *)
Lemma get_legal_moves_cap M grid color pool :
  pool_ptr pool <= M ->
  pool_ptr (snd (get_legal_moves M grid color pool)) <= M.
Proof.
  intros Hp. rewrite get_legal_moves_unfold. cbn [snd].
  apply (fold_left_preserves (fun pool => pool_ptr pool <= M)); [|exact Hp].
  intros a x Ha. unfold piece_moves.
  destruct (negb (grid_at grid x =? color)); [exact Ha|].
  apply (fold_left_preserves (fun pool => pool_ptr pool <= M)); [|exact Ha].
  intros b d Hb. apply slide_loop_cap, Hb.
Qed.

Lemma shot_loop_full (M : Z) (fuel : nat) (grid : Board) (p px py nx ny dr dc ax ay : Z)
    (pool : list Move) :
  M <= pool_ptr pool ->
  shot_loop M fuel grid p px py nx ny dr dc ax ay pool = pool.
Proof.
  intros Hfull. destruct fuel as [|fuel]; [reflexivity|]. cbn [shot_loop].
  destruct (negb (on_board (ax + dr) (ay + dc))); [reflexivity|].
  destruct (negb (grid_at grid ((ax + dr) * 8 + (ay + dc)) =? EMPTY)
            && negb ((ax + dr) * 8 + (ay + dc) =? p)); [reflexivity|].
  destruct (Z.ltb_spec (pool_ptr pool) M); [lia|reflexivity].
Qed.

Lemma fold_left_fixed {A B} (f : A -> B -> A) (l : list B) (a : A) :
  (forall x, f a x = a) -> fold_left f l a = a.
Proof.
  intros Hf. induction l as [|x l IH]; cbn [fold_left]; [reflexivity|].
  rewrite Hf. exact IH.
Qed.

Lemma slide_loop_full (M : Z) (grid : Board) (p px py dr dc : Z) (pool : list Move) :
  M <= pool_ptr pool ->
  forall (fuel : nat) (nx ny : Z),
    slide_loop M fuel grid p px py dr dc nx ny pool = pool.
Proof.
  intros Hfull. induction fuel as [|fuel IH]; intros nx ny; [reflexivity|].
  cbn [slide_loop].
  destruct (negb (on_board (nx + dr) (ny + dc))); [reflexivity|].
  destruct (negb (grid_at grid ((nx + dr) * 8 + (ny + dc)) =? EMPTY)); [reflexivity|].
  unfold shot_phase. rewrite fold_left_fixed; [apply IH|].
  intros ad. apply shot_loop_full, Hfull.
Qed.

(** On a full pool the generator writes nothing. *)
Lemma get_legal_moves_full (M : Z) (grid : Board) (color : Z) (pool : list Move) :
  M <= pool_ptr pool ->
  get_legal_moves M grid color pool = (pool_ptr pool, 0, pool).
Proof.
  intros Hfull. rewrite get_legal_moves_unfold.
  assert (Hfold : fold_left (piece_moves M grid color) (seqZ 0 NUM_SQUARES) pool = pool).
  { apply fold_left_fixed. intros p. unfold piece_moves.
    destruct (negb (grid_at grid p =? color)); [reflexivity|].
    apply fold_left_fixed. intros d. apply slide_loop_full, Hfull. }
  rewrite Hfold. f_equal. f_equal. lia.
Qed.

(** ** Search: the invariant through one expansion *)

Lemma pool_at_Some {A} (pool : list A) (i : Z) :
  0 <= i < pool_ptr pool -> exists v, pool_at pool i = Some v /\ pool !! Z.to_nat i = Some v.
Proof.
  intros Hi. unfold pool_at, pool_ptr in *. destruct (Z.ltb_spec i 0); [lia|].
  destruct (lookup_lt_is_Some_2 pool (Z.to_nat i)) as [v Hv]; [lia|].
  exists v. split; exact Hv.
Qed.

Lemma length_pool_set {A} (pool : list A) (i : Z) (v : A) :
  length (pool_set pool i v) = length pool.
Proof. unfold pool_set. destruct (i <? 0); [reflexivity|apply length_insert]. Qed.

Lemma pool_set_lookup_ne {A} (pool : list A) (i : Z) (v : A) (k : nat) :
  0 <= i -> Z.to_nat i <> k -> pool_set pool i v !! k = pool !! k.
Proof.
  intros Hi Hk. unfold pool_set. destruct (Z.ltb_spec i 0); [lia|].
  apply list_lookup_insert_ne. exact Hk.
Qed.

Lemma pool_set_lookup {A} (pool : list A) (i : Z) (v w : A) (k : nat) :
  pool_set pool i v !! k = Some w -> w = v \/ pool !! k = Some w.
Proof.
  unfold pool_set. destruct (i <? 0); [right; assumption|].
  intros H. destruct (decide (Z.to_nat i = k)) as [<-|Hne].
  - left. apply list_lookup_insert_Some in H. destruct H as [(_ & E & _)|(Hne & _)];
      [symmetry; exact E|contradiction].
  - right. rewrite list_lookup_insert_ne in H by exact Hne. exact H.
Qed.

Section ExpansionFacts.

Variable MAX_NODES : Z.
Variable MAX_MOVES_POOL : Z.
Variable root_player : Z.
Variable root_moves : list Move.

Hypothesis root_side : root_player = BLACK \/ root_player = WHITE.

Local Abbreviation pools_ok := (pools_ok MAX_NODES MAX_MOVES_POOL root_player root_moves).
Local Abbreviation node_ok := (node_ok root_player root_moves).

(** The trackers' invariant only reads the parent and the visits of nodes. *)
Lemma best_ok_same_stats (f : option nat) (g : Globals) (mp' : list Move)
    (pool' : list MCTSNode) (x' : Z) :
  length pool' = length (node_pool g) ->
  (forall j nj nj', node_pool g !! j = Some nj -> pool' !! j = Some nj' ->
     parent nj' = parent nj /\ visits nj' = visits nj) ->
  best_ok f g ->
  best_ok f (mkGlobals mp' pool' x' (best_child_global g) (max_visits_global g)).
Proof.
  intros Hlen Hsame (Hmax & Hle & Hfresh & Hbest).
  assert (Hback : forall c nc', pool' !! c = Some nc' ->
            exists nc, node_pool g !! c = Some nc /\ parent nc' = parent nc
                       /\ visits nc' = visits nc).
  { intros c nc' Hc.
    destruct (lookup_lt_is_Some_2 (node_pool g) c) as [nc Hnc];
      [rewrite <- Hlen; eapply lookup_lt_Some; exact Hc|].
    exists nc. split; [exact Hnc|]. exact (Hsame c nc nc' Hnc Hc). }
  unfold best_ok. cbn [max_visits_global best_child_global node_pool].
  split; [exact Hmax|]. split; [|split].
  - intros c nc' Hc Hp Hf. destruct (Hback c nc' Hc) as (nc & Hnc & Hp' & Hv').
    rewrite Hv'. apply (Hle c nc Hnc); [congruence|exact Hf].
  - intros c nc' Hc Hf. destruct (Hback c nc' Hc) as (nc & Hnc & _ & Hv').
    rewrite Hv'. exact (Hfresh c nc Hnc Hf).
  - destruct (best_child_global g) as [b|].
    + destruct Hbest as (nb & Hnb & Hp & Hv).
      destruct (lookup_lt_is_Some_2 pool' b) as [nb' Hnb'];
        [rewrite Hlen; eapply lookup_lt_Some; exact Hnb|].
      destruct (Hsame b nb nb' Hnb Hnb') as [Hp' Hv'].
      exists nb'. split; [exact Hnb'|]. split; congruence.
    + destruct Hbest as [Hm Hnone]. split; [exact Hm|].
      intros c nc' Hc Hp. destruct (Hback c nc' Hc) as (nc & Hnc & Hp' & _).
      apply (Hnone c nc Hnc). congruence.
Qed.

(** Taking an untried move: the swap with the last untried move and the
    decrement of the count keep the invariant, and a move taken at the root
    is one of the root's moves. *)
Lemma take_move_ok (g : Globals) (node : nat) (n : MCTSNode) (offset x : Z) :
  pools_ok g -> best_ok None g ->
  node_pool g !! node = Some n -> 0 < moves_count n ->
  0 <= offset < moves_count n ->
  exists m m_last,
    pool_at (move_pool g) (moves_start_idx n + offset) = Some m /\
    pool_at (move_pool g) (moves_start_idx n + moves_count n - 1) = Some m_last /\
    (node = 0%nat -> In m root_moves) /\
    let mp := pool_set (pool_set (move_pool g) (moves_start_idx n + offset) m_last)
                (moves_start_idx n + moves_count n - 1) m in
    let n1 := set_moves n (moves_start_idx n) (moves_count n - 1) in
    let g1 := mkGlobals mp (<[node := n1]> (node_pool g)) x
                (best_child_global g) (max_visits_global g) in
    pools_ok g1 /\ best_ok None g1.
Proof.
  intros Hok Hbest Hn Hpos Hoff.
  pose proof Hok as ((rn & Hrn & Hrc) & Hnodes & Hcn & Hcm & Hrl & Hrm).
  pose proof (Hnodes node n Hn) as Hnode.
  destruct Hnode as (Hpar & Hfc & Hns & Hmc & Hreg & Hv & Hw & Hmv).
  destruct (Hreg Hpos) as (Hs0 & Hend & Hroot & Hnonroot).
  destruct (pool_at_Some (move_pool g) (moves_start_idx n + offset)) as (m & Hm & Hm'); [lia|].
  destruct (pool_at_Some (move_pool g) (moves_start_idx n + moves_count n - 1))
    as (ml & Hml & Hml'); [lia|].
  exists m, ml. split; [exact Hm|]. split; [exact Hml|].
  assert (Hin : node = 0%nat -> In m root_moves /\ In ml root_moves).
  { intros ->. specialize (Hroot eq_refl). unfold pool_ptr in Hroot.
    split; [apply (Hrm (Z.to_nat (moves_start_idx n + offset)))
           |apply (Hrm (Z.to_nat (moves_start_idx n + moves_count n - 1)))];
      try assumption; lia. }
  split; [intros H0; apply Hin, H0|].
  intros mp n1 g1. subst g1.
  assert (Hlen_mp : length mp = length (move_pool g))
    by (unfold mp; rewrite !length_pool_set; reflexivity).
  assert (Hsame : same_links (node_pool g) (<[node := n1]> (node_pool g)))
    by (apply (same_links_insert _ node n n1 Hn); reflexivity).
  assert (Hlook : forall i ni, <[node := n1]> (node_pool g) !! i = Some ni ->
            (i = node /\ ni = n1) \/ (i <> node /\ node_pool g !! i = Some ni)).
  { intros i ni Hi. destruct (decide (node = i)) as [<-|Hne].
    - left. rewrite list_lookup_insert_eq in Hi by (eapply lookup_lt_Some; exact Hn).
      injection Hi as <-. split; reflexivity.
    - right. rewrite list_lookup_insert_ne in Hi by exact Hne. split; [congruence|exact Hi]. }
  split.
  - unfold pools_ok. cbn [node_pool move_pool].
    unfold pool_ptr in *. rewrite Hlen_mp, length_insert.
    split; [|split; [|split; [|split; [|split]]]]; try assumption.
    + destruct (decide (node = 0%nat)) as [->|Hne].
      * exists n1. rewrite list_lookup_insert_eq by (eapply lookup_lt_Some; exact Hn).
        split; [reflexivity|]. intros Hfc1 c nc Hc.
        rewrite Hn in Hrn. injection Hrn as <-.
        destruct (Hlook c nc Hc) as [[-> ->]|[_ Hc']].
        -- unfold n1. cbn [set_moves parent].
           destruct (parent n) as [p|]; [destruct Hpar as [Hlt _]; lia|discriminate].
        -- exact (Hrc Hfc1 c nc Hc').
      * exists rn. rewrite list_lookup_insert_ne by exact Hne.
        split; [exact Hrn|]. intros Hfc1 c nc Hc.
        destruct (Hlook c nc Hc) as [[-> ->]|[_ Hc']].
        -- cbn [set_moves parent]. exact (Hrc Hfc1 node n Hn).
        -- exact (Hrc Hfc1 c nc Hc').
    + intros i ni Hi. destruct (Hlook i ni Hi) as [[-> ->]|[_ Hi']].
      * apply (node_ok_mono root_player root_moves (node_pool g) _
                 (Z.of_nat (length (move_pool g))));
          [|exact Hsame|lia].
        unfold node_ok, n1. cbn [set_moves parent first_child next_sibling
          moves_count moves_start_idx visits wins move player_just_moved].
        split; [exact Hpar|]. split; [exact Hfc|]. split; [exact Hns|].
        split; [lia|]. split; [|split; [exact Hv|split; [exact Hw|exact Hmv]]].
        intros Hpos'. unfold pool_ptr in *. repeat split; try lia.
      * apply (node_ok_mono root_player root_moves (node_pool g) _
                 (Z.of_nat (length (move_pool g))));
          [exact (Hnodes i ni Hi')|exact Hsame|lia].
    + intros k mk Hk Hmk. unfold mp in Hmk.
      destruct (decide (node = 0%nat)) as [H0|Hne].
      * destruct (Hin H0) as [Him Hil].
        apply pool_set_lookup in Hmk. destruct Hmk as [->|Hmk]; [exact Him|].
        apply pool_set_lookup in Hmk. destruct Hmk as [->|Hmk]; [exact Hil|].
        exact (Hrm k mk Hk Hmk).
      * specialize (Hnonroot Hne).
        rewrite !pool_set_lookup_ne in Hmk by lia. exact (Hrm k mk Hk Hmk).
  - apply (best_ok_same_stats None g mp (<[node := n1]> (node_pool g)) x);
      [apply length_insert| |exact Hbest].
    intros j nj nj' Hj Hj'. destruct (Hlook j nj' Hj') as [[-> ->]|[_ Hj'']].
    + rewrite Hn in Hj. injection Hj as <-. split; reflexivity.
    + rewrite Hj in Hj''. injection Hj'' as <-. split; reflexivity.
Qed.

(** Creating a child: the new node, linked in front of the children of its
    parent, with the moves generated for it, keeps the invariant; until it
    is visited it is the [fresh] node of the trackers' invariant. *)
Lemma add_child_ok (g1 : Globals) (node : nat) (n1 : MCTSNode) (m : Move)
    (cur : Z) (state : Board) :
  pools_ok g1 -> best_ok None g1 ->
  node_pool g1 !! node = Some n1 -> player_just_moved n1 = cur ->
  cur = 1 \/ cur = -1 ->
  (node = 0%nat -> In m root_moves) ->
  pool_ptr (node_pool g1) < MAX_NODES ->
  let len := length (node_pool g1) in
  let r := get_legal_moves MAX_MOVES_POOL state cur (move_pool g1) in
  let child := set_next_sibling
                 (set_moves (node_init (Some node) m (- cur)) (fst (fst r)) (snd (fst r)))
                 (first_child n1) in
  let n2 := set_first_child n1 (Some len) in
  let np := <[node := n2]> (<[len := child]> (node_pool g1 ++ [node_init (Some node) m (- cur)])) in
  let gf := mkGlobals (snd r) np (xorshift_state g1)
              (best_child_global g1) (max_visits_global g1) in
  pools_ok gf /\ best_ok (Some len) gf.
Proof.
  intros Hok Hbest Hn Hpj Hcur Hm Hcap len r child n2 np gf. subst gf.
  pose proof Hok as ((rn & Hrn & Hrc) & Hnodes & Hcn & Hcm & Hrl & Hrm).
  destruct (Hnodes node n1 Hn) as (Hpar & Hfc & Hns & Hmc & Hreg & Hv & Hw & Hmv).
  destruct (get_legal_moves_shape MAX_MOVES_POOL state cur (move_pool g1))
    as (Hstart & Hcount & Hpool & _).
  fold r in Hstart, Hcount, Hpool.
  pose proof (get_legal_moves_cap MAX_MOVES_POOL state cur (move_pool g1) Hcm) as Hcap_m.
  fold r in Hcap_m.
  assert (Hnode_lt : (node < len)%nat) by (eapply lookup_lt_Some; exact Hn).
  assert (Hnp : np = <[node := n2]> (node_pool g1) ++ [child]).
  { unfold np. rewrite (insert_app_r_alt (node_pool g1)) by (unfold len; lia).
    replace (len - length (node_pool g1))%nat with 0%nat by (unfold len; lia).
    cbn [insert list_insert]. apply insert_app_l. exact Hnode_lt. }
  assert (Hlen_np : length np = S len).
  { rewrite Hnp, length_app, length_insert. cbn [length]. unfold len. lia. }
  assert (Hlook : forall j nj, np !! j = Some nj ->
            (j = len /\ nj = child) \/
            (j = node /\ nj = n2) \/
            (j <> node /\ (j < len)%nat /\ node_pool g1 !! j = Some nj)).
  { intros j nj Hj. rewrite Hnp in Hj.
    destruct (decide (j < len)%nat) as [Hlt|Hge].
    - rewrite lookup_app_l in Hj by (rewrite length_insert; exact Hlt).
      destruct (decide (node = j)) as [<-|Hne].
      + rewrite list_lookup_insert_eq in Hj by exact Hnode_lt. injection Hj as <-.
        right. left. split; reflexivity.
      + rewrite list_lookup_insert_ne in Hj by exact Hne. right. right.
        split; [congruence|]. split; [exact Hlt|exact Hj].
    - rewrite lookup_app_r in Hj by (rewrite length_insert; unfold len in *; lia).
      rewrite length_insert in Hj. fold len in Hj.
      destruct (j - len)%nat as [|k] eqn:Hk; cbn in Hj; [|discriminate].
      injection Hj as <-. left. split; [lia|reflexivity]. }
  assert (Hchild : np !! len = Some child).
  { rewrite Hnp, lookup_app_r by (rewrite length_insert; unfold len; lia).
    rewrite length_insert. fold len. rewrite Nat.sub_diag. reflexivity. }
  assert (Hsame : same_links (node_pool g1) np).
  { rewrite Hnp. eapply same_links_trans; [|apply same_links_app].
    apply (same_links_insert _ node n1 n2 Hn); reflexivity. }
  assert (Hml : pool_ptr (move_pool g1) <= pool_ptr (snd r)).
  { rewrite Hpool. unfold pool_ptr. rewrite length_app. lia. }
  assert (Hint : int8 (- cur) = - cur) by (destruct Hcur as [-> | ->]; reflexivity).
  split.
  - unfold pools_ok. cbn [node_pool move_pool].
    split; [|split; [|split; [|split; [|split]]]].
    + destruct (decide (node = 0%nat)) as [H0|Hne].
      * exists n2. split; [|discriminate].
        rewrite Hnp, lookup_app_l by (rewrite length_insert; lia).
        rewrite H0. apply list_lookup_insert_eq. lia.
      * exists rn. split.
        -- rewrite Hnp, lookup_app_l by (rewrite length_insert; lia).
           rewrite list_lookup_insert_ne by exact Hne. exact Hrn.
        -- intros Hrfc c nc Hc.
           destruct (Hlook c nc Hc) as [[-> ->]|[[-> ->]|(_ & _ & Hc')]].
           ++ cbn. congruence.
           ++ cbn [n2 set_first_child parent]. exact (Hrc Hrfc node n1 Hn).
           ++ exact (Hrc Hrfc c nc Hc').
    + intros j nj Hj.
      destruct (Hlook j nj Hj) as [[-> ->]|[[-> ->]|(_ & _ & Hj')]].
      * unfold node_ok, child.
        cbn [set_next_sibling set_moves node_init parent first_child next_sibling
             moves_count moves_start_idx visits wins move player_just_moved].
        split; [|split; [|split; [|split; [|split; [|split; [|split]]]]]].
        -- split; [exact Hnode_lt|]. exists n2. split.
           ++ rewrite Hnp, lookup_app_l by (rewrite length_insert; lia).
              apply list_lookup_insert_eq. exact Hnode_lt.
           ++ cbn [n2 set_first_child player_just_moved]. rewrite Hint, Hpj. reflexivity.
        -- discriminate.
        -- intros s Hs. destruct (Hfc s Hs) as (ns & Hl & Hps).
           split; [eapply lookup_lt_Some; exact Hl|]. split; [discriminate|].
           destruct (Hsame s ns Hl) as (ns' & Hl' & Hps' & _).
           exists ns'. split; [exact Hl'|congruence].
        -- lia.
        -- intros Hpos. unfold pool_ptr in *. rewrite Hpool, length_app.
           repeat split; try lia.
        -- lia.
        -- lra.
        -- intros [= ->]. apply Hm. reflexivity.
      * pose proof (node_ok_mono root_player root_moves (node_pool g1) np
                      (pool_ptr (move_pool g1)) (pool_ptr (snd r)) node n1
                      (Hnodes node n1 Hn) Hsame Hml)
          as (Hpar' & _ & Hns' & Hmc' & Hreg' & Hv' & Hw' & Hmv').
        unfold node_ok, n2.
        cbn [set_first_child parent first_child next_sibling
             moves_count moves_start_idx visits wins move player_just_moved].
        split; [exact Hpar'|]. split; [|split; [exact Hns'|split; [exact Hmc'|
          split; [exact Hreg'|split; [exact Hv'|split; [exact Hw'|exact Hmv']]]]]].
        intros c [= <-]. exists child. split; [exact Hchild|reflexivity].
      * apply (node_ok_mono root_player root_moves (node_pool g1) _ (pool_ptr (move_pool g1)));
          [exact (Hnodes j nj Hj')|exact Hsame|exact Hml].
    + unfold pool_ptr in *. rewrite Hlen_np. fold len in Hcap. lia.
    + exact Hcap_m.
    + lia.
    + intros k mk Hk Hmk. rewrite Hpool in Hmk.
      rewrite lookup_app_l in Hmk by (unfold pool_ptr in Hrl; lia).
      exact (Hrm k mk Hk Hmk).
  - destruct Hbest as (Hmax & Hle & _ & Hb).
    unfold best_ok. cbn [node_pool max_visits_global best_child_global].
    split; [exact Hmax|]. split; [|split].
    + intros c nc Hc Hp Hf.
      destruct (Hlook c nc Hc) as [[-> ->]|[[-> ->]|(_ & _ & Hc')]].
      * congruence.
      * cbn [n2 set_first_child visits]. apply (Hle node n1 Hn); [exact Hp|discriminate].
      * apply (Hle c nc Hc'); [exact Hp|discriminate].
    + intros c nc Hc [= ->]. rewrite Hchild in Hc. injection Hc as <-. reflexivity.
    + destruct (best_child_global g1) as [b|].
      * destruct Hb as (nb & Hnb & Hpb & Hvb).
        destruct (decide (b = node)) as [->|Hne].
        -- exists n2. rewrite Hn in Hnb. injection Hnb as <-. split; [|split; assumption].
           rewrite Hnp, lookup_app_l by (rewrite length_insert; lia).
           apply list_lookup_insert_eq. exact Hnode_lt.
        -- exists nb. split; [|split; assumption].
           rewrite Hnp, lookup_app_l
             by (rewrite length_insert; eapply lookup_lt_Some; exact Hnb).
           rewrite list_lookup_insert_ne by congruence. exact Hnb.
      * destruct Hb as [Hm1 Hnone]. split; [exact Hm1|].
        intros c nc Hc Hp.
        destruct (Hlook c nc Hc) as [[-> ->]|[[-> ->]|(_ & _ & Hc')]].
        -- reflexivity.
        -- exfalso. specialize (Hnone node n1 Hn Hp). discriminate.
        -- exfalso. specialize (Hnone c nc Hc' Hp). discriminate.
Qed.

(** The expansion step succeeds and keeps the invariant; a node it
    creates is the node the iteration continues from. *)
Lemma expand_ok (g : Globals) (node : nat) (n : MCTSNode) (state : Board) (cp : Z) :
  pools_ok g -> best_ok None g ->
  node_pool g !! node = Some n -> player_just_moved n = - cp ->
  cp = 1 \/ cp = -1 ->
  exists ex,
    expand MAX_NODES MAX_MOVES_POOL root_player g node state cp = Some ex /\
    pools_ok (ex_globals ex) /\ best_ok (ex_new ex) (ex_globals ex) /\
    (ex_new ex = None \/ ex_new ex = Some (ex_node ex)) /\
    is_Some (node_pool (ex_globals ex) !! ex_node ex) /\
    pool_ptr (node_pool g) <= pool_ptr (node_pool (ex_globals ex)) /\
    pool_ptr (move_pool g) <= pool_ptr (move_pool (ex_globals ex)) /\
    (0 <= ex_win_prob ex <= 1)%Q.
Proof.
  intros Hok Hbest Hn Hpj Hcp.
  unfold expand. rewrite Hn. cbn [mbind option_bind].
  destruct (Z.ltb_spec 0 (moves_count n)) as [Hpos|Hnpos].
  - set (x := fast_rand (xorshift_state g)).
    assert (Hoff : 0 <= x mod moves_count n < moves_count n)
      by (apply Z.mod_pos_bound; exact Hpos).
    destruct (take_move_ok g node n (x mod moves_count n) x Hok Hbest Hn Hpos Hoff)
      as (m & ml & Hm & Hml & Hin & H1).
    rewrite Hm, Hml. cbn [mbind option_bind].
    cbv zeta in H1. destruct H1 as [Hok1 Hbest1].
    set (mp := pool_set (pool_set (move_pool g) (moves_start_idx n + x mod moves_count n) ml)
                 (moves_start_idx n + moves_count n - 1) m) in *.
    set (n1 := set_moves n (moves_start_idx n) (moves_count n - 1)) in *.
    set (g1 := mkGlobals mp (<[node := n1]> (node_pool g)) x
                 (best_child_global g) (max_visits_global g)) in *.
    assert (Hn1 : node_pool g1 !! node = Some n1)
      by (apply list_lookup_insert_eq; eapply lookup_lt_Some; exact Hn).
    assert (Hlen1 : pool_ptr (node_pool g1) = pool_ptr (node_pool g))
      by (unfold pool_ptr, g1; cbn [node_pool]; rewrite length_insert; reflexivity).
    assert (Hlenm : pool_ptr (move_pool g1) = pool_ptr (move_pool g))
      by (unfold pool_ptr, g1, mp; cbn [move_pool]; rewrite !length_pool_set; reflexivity).
    unfold new_node. destruct (Z.leb_spec MAX_NODES (pool_ptr (node_pool g1))) as [Hfull|Hroom].
    + exists (mkExpanded g1 node (apply_move state m) (- cp) 0%Q false None).
      cbn [ex_globals ex_new ex_node ex_win_prob].
      split; [reflexivity|]. split; [exact Hok1|]. split; [exact Hbest1|].
      split; [left; reflexivity|]. split; [exists n1; exact Hn1|].
      split; [lia|]. split; [lia|]. lra.
    + assert (Hcur : - cp = 1 \/ - cp = -1) by lia.
      assert (Hpj1 : player_just_moved n1 = - cp) by exact Hpj.
      pose proof (add_child_ok g1 node n1 m (- cp) (apply_move state m)
                    Hok1 Hbest1 Hn1 Hpj1 Hcur Hin Hroom) as H2.
      cbv zeta in H2. destruct H2 as [Hok2 Hbest2].
      eexists. split; [reflexivity|].
      cbn [ex_globals ex_new ex_node ex_win_prob set_node_pool node_pool move_pool
           best_child_global max_visits_global xorshift_state] in *.
      split; [exact Hok2|]. split; [exact Hbest2|].
      split; [right; reflexivity|].
      pose proof Hok2 as (_ & _ & _ & _ & _ & _).
      split.
      { apply lookup_lt_is_Some_2. rewrite !length_insert, length_app. cbn [length]. lia. }
      split.
      { unfold pool_ptr in *. rewrite !length_insert, length_app. cbn [length].
        unfold g1; cbn [node_pool]. rewrite length_insert. lia. }
      split.
      { unfold g1. cbn [move_pool].
        destruct (get_legal_moves_shape MAX_MOVES_POOL (apply_move state m) (- cp) mp)
          as (_ & _ & Hpool & _).
        rewrite Hpool. unfold pool_ptr in *. rewrite length_app.
        unfold mp. rewrite !length_pool_set. lia. }
      unfold g1. cbn [move_pool].
      destruct (snd (fst (get_legal_moves MAX_MOVES_POOL (apply_move state m) (- cp) mp)) =? 0);
        [destruct (- cp =? root_player)|]; lra.
  - assert (Hmc0 : moves_count n = 0).
    { pose proof Hok as (_ & Hnodes & _).
      destruct (Hnodes node n Hn) as (_ & _ & _ & Hmc & _). lia. }
    case_bool_decide.
    + eexists. split; [reflexivity|]. cbn [ex_globals ex_new ex_node ex_win_prob].
      split; [exact Hok|]. split; [exact Hbest|]. split; [left; reflexivity|].
      split; [exists n; exact Hn|]. split; [lia|]. split; [lia|].
      destruct (player_just_moved n =? root_player); lra.
    + eexists. split; [reflexivity|]. cbn [ex_globals ex_new ex_node ex_win_prob].
      split; [exact Hok|]. split; [exact Hbest|]. split; [left; reflexivity|].
      split; [exists n; exact Hn|]. split; [lia|]. split; [lia|]. lra.
Qed.

End ExpansionFacts.

(** ** The evaluator returns a value between 0 and 1 *)

Lemma fast_sigmoid_bounds (x : Q) : (0 <= fast_sigmoid x <= 1)%Q.
Proof.
  unfold fast_sigmoid.
  assert (Ha : (0 <= Qabs x)%Q) by apply Qabs_nonneg.
  assert (Hx : (x <= Qabs x)%Q) by apply Qle_Qabs.
  assert (Hx' : (- x <= Qabs x)%Q) by (rewrite <- (Qabs_opp x); apply Qle_Qabs).
  assert (Hd : (0 < 1 + Qabs x)%Q) by lra.
  assert (Hlo : (- (1) <= x / (1 + Qabs x))%Q) by (apply Qle_shift_div_l; [exact Hd|lra]).
  assert (Hhi : (x / (1 + Qabs x) <= 1)%Q) by (apply Qle_shift_div_r; [exact Hd|lra]).
  lra.
Qed.

Lemma evaluate_bounds (grid : Board) (root_player turn : Z) :
  (0 <= evaluate grid root_player turn <= 1)%Q.
Proof. unfold evaluate. apply fast_sigmoid_bounds. Qed.

(** ** Search: the invariant through backpropagation *)

Section BackpropFacts.

Variable MAX_NODES : Z.
Variable MAX_MOVES_POOL : Z.
Variable root_player : Z.
Variable root_moves : list Move.

Local Abbreviation pools_ok := (pools_ok MAX_NODES MAX_MOVES_POOL root_player root_moves).

Lemma backprop_node_ok (fresh : option nat) (g : Globals) (i : nat) (n : MCTSNode)
    (win_prob : Q) :
  pools_ok g -> best_ok fresh g -> node_pool g !! i = Some n ->
  fresh = None \/ fresh = Some i ->
  (0 <= win_prob <= 1)%Q ->
  let g' := backprop_node 0 root_player win_prob g i n in
  pools_ok g' /\ best_ok None g' /\
  length (node_pool g') = length (node_pool g) /\ move_pool g' = move_pool g.
Proof.
  intros Hok Hbest Hn Hfresh Hwp g'.
  pose proof Hok as ((rn & Hrn & Hrc) & Hnodes & Hcn & Hcm & Hrl & Hrm).
  destruct (Hnodes i n Hn) as (Hpar & Hfc & Hns & Hmc & Hreg & Hv & Hw & Hmv).
  set (v := visits n + 1).
  set (w := (if player_just_moved n =? root_player then wins n + win_prob
             else wins n + (1 - win_prob))%Q).
  set (n' := set_stats n w v).
  set (upd := bool_decide (parent n = Some 0%nat) && (max_visits_global g <? v)).
  assert (Hg' : g' = mkGlobals (move_pool g) (<[i := n']> (node_pool g)) (xorshift_state g)
                       (if upd then Some i else best_child_global g)
                       (if upd then v else max_visits_global g)).
  { unfold g', backprop_node. fold v w n' upd. destruct upd; reflexivity. }
  assert (Hlook : forall j nj, <[i := n']> (node_pool g) !! j = Some nj ->
            (j = i /\ nj = n') \/ (j <> i /\ node_pool g !! j = Some nj)).
  { intros j nj Hj. destruct (decide (i = j)) as [<-|Hne].
    - left. rewrite list_lookup_insert_eq in Hj by (eapply lookup_lt_Some; exact Hn).
      injection Hj as <-. split; reflexivity.
    - right. rewrite list_lookup_insert_ne in Hj by exact Hne. split; [congruence|exact Hj]. }
  assert (Hself : <[i := n']> (node_pool g) !! i = Some n')
    by (apply list_lookup_insert_eq; eapply lookup_lt_Some; exact Hn).
  assert (Hsame : same_links (node_pool g) (<[i := n']> (node_pool g)))
    by (apply (same_links_insert _ i n n' Hn); reflexivity).
  assert (Hw' : (0 <= w)%Q) by (unfold w; destruct (player_just_moved n =? root_player); lra).
  rewrite Hg'. cbn [node_pool move_pool]. rewrite length_insert.
  split; [|split; [|split; reflexivity]].
  - unfold pools_ok. cbn [node_pool move_pool]. unfold pool_ptr in *.
    rewrite length_insert.
    split; [|split; [|split; [|split; [|split]]]]; try assumption.
    + destruct (decide (i = 0%nat)) as [->|Hne].
      * exists n'. split; [exact Hself|]. intros Hfc' c nc Hc.
        rewrite Hn in Hrn. injection Hrn as <-.
        destruct (Hlook c nc Hc) as [[-> ->]|[_ Hc']].
        -- exact (Hrc Hfc' 0%nat n Hn).
        -- exact (Hrc Hfc' c nc Hc').
      * exists rn. rewrite list_lookup_insert_ne by exact Hne. split; [exact Hrn|].
        intros Hfc' c nc Hc. destruct (Hlook c nc Hc) as [[-> ->]|[_ Hc']].
        -- exact (Hrc Hfc' i n Hn).
        -- exact (Hrc Hfc' c nc Hc').
    + intros j nj Hj.
      apply (node_ok_mono root_player root_moves (node_pool g) _
               (Z.of_nat (length (move_pool g)))); [|exact Hsame|lia].
      destruct (Hlook j nj Hj) as [[-> ->]|[_ Hj']]; [|exact (Hnodes j nj Hj')].
      unfold node_ok, n'. cbn [set_stats parent first_child next_sibling
        moves_count moves_start_idx visits wins move player_just_moved].
      split; [exact Hpar|]. split; [exact Hfc|]. split; [exact Hns|].
      split; [exact Hmc|]. split; [exact Hreg|]. split; [unfold v; lia|].
      split; [exact Hw'|exact Hmv].
  - destruct Hbest as (Hmax & Hle & Hfr & Hb).
    unfold best_ok. cbn [node_pool max_visits_global best_child_global].
    assert (Hle' : forall c nc, node_pool g !! c = Some nc -> parent nc = Some 0%nat ->
              c <> i -> visits nc <= max_visits_global g).
    { intros c nc Hc Hp Hci. apply (Hle c nc Hc Hp).
      destruct Hfresh as [-> | ->]; congruence. }
    destruct upd eqn:Hupd.
    + apply andb_true_iff in Hupd. destruct Hupd as [Hp0 Hlt].
      apply bool_decide_eq_true in Hp0. apply Z.ltb_lt in Hlt.
      split; [lia|]. split; [|split].
      * intros c nc Hc Hp _. destruct (Hlook c nc Hc) as [[-> ->]|[Hci Hc']].
        -- cbn [n' set_stats visits]. lia.
        -- specialize (Hle' c nc Hc' Hp Hci). lia.
      * intros c nc _ [=].
      * exists n'. split; [exact Hself|]. split; [exact Hp0|reflexivity].
    + apply andb_false_iff in Hupd.
      split; [exact Hmax|]. split; [|split].
      * intros c nc Hc Hp _. destruct (Hlook c nc Hc) as [[-> ->]|[Hci Hc']].
        -- cbn [n' set_stats visits parent] in *.
           destruct Hupd as [Hp0|Hlt];
             [apply bool_decide_eq_false in Hp0; contradiction|].
           apply Z.ltb_ge in Hlt. exact Hlt.
        -- exact (Hle' c nc Hc' Hp Hci).
      * intros c nc _ [=].
      * destruct (best_child_global g) as [b|].
        -- destruct Hb as (nb & Hnb & Hpb & Hvb).
           destruct (decide (b = i)) as [->|Hbi].
           ++ exfalso. rewrite Hn in Hnb. injection Hnb as <-.
              destruct Hupd as [Hp0|Hlt];
                [apply bool_decide_eq_false in Hp0; contradiction|].
              apply Z.ltb_ge in Hlt. unfold v in Hlt. lia.
           ++ exists nb. rewrite list_lookup_insert_ne by congruence.
              split; [exact Hnb|]. split; assumption.
        -- destruct Hb as [Hm1 Hnone]. split; [exact Hm1|].
           intros c nc Hc Hp. exfalso.
           destruct (Hlook c nc Hc) as [[-> ->]|[Hci Hc']].
           ++ cbn [n' set_stats parent] in Hp.
              destruct Hupd as [Hp0|Hlt];
                [apply bool_decide_eq_false in Hp0; contradiction|].
              apply Z.ltb_ge in Hlt. unfold v in Hlt. lia.
           ++ specialize (Hnone c nc Hc' Hp).
              destruct Hfresh as [-> | ->]; congruence.
Qed.

(** Backpropagation reaches the root, visits it once more, and restores the
    loop invariant. *)
Lemma backprop_ok (win_prob : Q) (fuel : nat) :
  (0 <= win_prob <= 1)%Q ->
  forall (fresh : option nat) (g : Globals) (i : nat),
    pools_ok g -> best_ok fresh g -> is_Some (node_pool g !! i) ->
    fresh = None \/ fresh = Some i -> (i < fuel)%nat ->
    exists g',
      backprop fuel 0 root_player win_prob g (Some i) = Some g' /\
      pools_ok g' /\ best_ok None g' /\
      length (node_pool g') = length (node_pool g) /\ move_pool g' = move_pool g /\
      exists rn rn', node_pool g !! 0%nat = Some rn /\ node_pool g' !! 0%nat = Some rn' /\
                     visits rn' = visits rn + 1.
Proof.
  intros Hwp. induction fuel as [|fuel IH]; intros fresh g i Hok Hbest [n Hn] Hfresh Hfuel;
    [lia|].
  cbn [backprop]. rewrite Hn. cbn [mbind option_bind].
  destruct (backprop_node_ok fresh g i n win_prob Hok Hbest Hn Hfresh Hwp)
    as (Hok' & Hbest' & Hlen & Hmp).
  pose proof Hok as (_ & Hnodes & _).
  destruct (Hnodes i n Hn) as (Hpar & _).
  destruct (parent n) as [p|] eqn:Hp.
  - destruct Hpar as (Hlt & np & Hnp & _).
    destruct (IH None (backprop_node 0 root_player win_prob g i n) p Hok' Hbest')
      as (g' & Hrun & Hok'' & Hbest'' & Hlen' & Hmp' & rn & rn' & Hr & Hr' & Hvis).
    + apply lookup_lt_is_Some_2. rewrite Hlen. eapply lookup_lt_Some. exact Hnp.
    + left. reflexivity.
    + lia.
    + exists g'. split; [exact Hrun|]. split; [exact Hok''|]. split; [exact Hbest''|].
      split; [congruence|]. split; [congruence|].
      exists rn, rn'. split; [|split; assumption].
      unfold backprop_node in Hr. cbn [node_pool set_node_pool] in Hr.
      rewrite list_lookup_insert_ne in Hr by lia.
      destruct (bool_decide (parent n = Some 0%nat) && (max_visits_global g <? visits n + 1));
        exact Hr.
  - destruct Hpar as [-> _].
    exists (backprop_node 0 root_player win_prob g 0 n).
    split; [destruct fuel; reflexivity|]. split; [exact Hok'|]. split; [exact Hbest'|].
    split; [assumption|]. split; [assumption|].
    eexists n, _. split; [exact Hn|]. split.
    + unfold backprop_node. cbn [node_pool set_node_pool].
      apply list_lookup_insert_eq.
      destruct (bool_decide (parent n = Some 0%nat) && (max_visits_global g <? visits n + 1));
        cbn [set_best node_pool]; eapply lookup_lt_Some; exact Hn.
    + reflexivity.
Qed.

End BackpropFacts.

(** ** Search: one iteration, the start and the loop *)

(** The expansion step leaves the statistics and the move of the nodes
    already in the pool as they are. *)
Lemma expand_old_nodes MAX_NODES MAX_MOVES_POOL root_player (g : Globals) (node : nat)
    (state : Board) (cp : Z) (ex : Expanded) (j : nat) (nj : MCTSNode) :
  expand MAX_NODES MAX_MOVES_POOL root_player g node state cp = Some ex ->
  node_pool g !! j = Some nj ->
  exists nj', node_pool (ex_globals ex) !! j = Some nj' /\
              visits nj' = visits nj /\ wins nj' = wins nj /\ move nj' = move nj /\
              parent nj' = parent nj.
Proof.
  unfold expand. intros Hex Hj.
  destruct (node_pool g !! node) as [n|] eqn:Hn; [|discriminate].
  cbn [mbind option_bind] in Hex.
  assert (Hnl : (node < length (node_pool g))%nat) by (eapply lookup_lt_Some; exact Hn).
  assert (Hjl : (j < length (node_pool g))%nat) by (eapply lookup_lt_Some; exact Hj).
  destruct (0 <? moves_count n).
  - match type of Hex with context [pool_at (move_pool g) ?b] =>
      destruct (pool_at (move_pool g) b) as [m|]; [|discriminate] end.
    cbn [mbind option_bind] in Hex.
    match type of Hex with context [pool_at (move_pool g) ?b] =>
      destruct (pool_at (move_pool g) b) as [ml|]; [|discriminate] end.
    cbn [mbind option_bind] in Hex.
    unfold new_node in Hex. cbn [node_pool] in Hex.
    match type of Hex with context [MAX_NODES <=? ?b] => destruct (MAX_NODES <=? b) end.
    + injection Hex as <-. cbn [ex_globals node_pool].
      destruct (decide (node = j)) as [<-|Hne].
      * rewrite list_lookup_insert_eq by exact Hnl. rewrite Hn in Hj. injection Hj as <-.
        eexists. split; [reflexivity|]. repeat split.
      * rewrite list_lookup_insert_ne by exact Hne. exists nj. repeat split. exact Hj.
    + apply (inj Some) in Hex. subst ex. cbn [ex_globals node_pool set_node_pool].
      destruct (decide (node = j)) as [<-|Hne].
      * rewrite list_lookup_insert_eq
          by (rewrite length_insert, length_app, length_insert; lia).
        rewrite Hn in Hj. injection Hj as <-.
        eexists. split; [reflexivity|]. repeat split.
      * rewrite list_lookup_insert_ne by exact Hne.
        rewrite list_lookup_insert_ne by (rewrite length_insert; lia).
        rewrite lookup_app_l by (rewrite length_insert; exact Hjl).
        rewrite list_lookup_insert_ne by exact Hne.
        exists nj. repeat split. exact Hj.
  - destruct (bool_decide (first_child n = None)); injection Hex as <-;
      exists nj; repeat split; exact Hj.
Qed.

Section LoopFacts.

Variable MAX_NODES : Z.
Variable MAX_MOVES_POOL : Z.
Variable flog : Q -> Q.
Variable fsqrt : Q -> Q.
Variable fexp : Q -> Q.
Variable now_ge_deadline : nat -> bool.
Variable root_state : Board.
Variable root_player : Z.
Variable turn : Z.

Hypothesis fsqrt_nonneg : forall x, (0 <= fsqrt x)%Q.
Hypothesis root_side : root_player = BLACK \/ root_player = WHITE.
Hypothesis nodes_capacity : 0 < MAX_NODES.
Hypothesis moves_capacity : 0 <= MAX_MOVES_POOL.

(** The moves generated for the root. *)
Variable root_moves : list Move.
Hypothesis root_moves_eq :
  root_moves = returned_moves (get_legal_moves MAX_MOVES_POOL root_state root_player []).

Local Abbreviation inv := (search_inv MAX_NODES MAX_MOVES_POOL root_player root_moves).

Lemma root_lookup (g : Globals) :
  inv g -> exists rn, node_pool g !! 0%nat = Some rn /\ parent rn = None /\
                      player_just_moved rn = - root_player.
Proof.
  intros [((rn & Hrn & _) & Hnodes & _) _]. exists rn. split; [exact Hrn|].
  destruct (Hnodes 0%nat rn Hrn) as (Hpar & _).
  destruct (parent rn) as [p|]; [destruct Hpar; lia|]. destruct Hpar. split; [reflexivity|assumption].
Qed.

(** An iteration from a state satisfying the invariant runs to its end and
    re-establishes the invariant; neither pool pointer decreases, and the
    root is visited once more. *)
Lemma iterate_ok (g : Globals) (C : Q) :
  inv g -> (0 <= C)%Q ->
  exists it sel state cp,
    iterate MAX_NODES MAX_MOVES_POOL flog fsqrt root_state root_player turn C 0 g = Some it /\
    inv (it_globals it) /\
    select_loop flog fsqrt (length (node_pool g)) (node_pool g) C 0 root_state root_player
      = Some (it_selected it, state, cp) /\
    node_pool g !! it_selected it = Some sel /\
    player_just_moved sel = - cp /\ (cp = root_player \/ cp = - root_player) /\
    (moves_count sel <> 0 \/ first_child sel = None) /\
    expand MAX_NODES MAX_MOVES_POOL root_player g (it_selected it) state cp
      = Some (it_expanded it) /\
    it_evaluated it = negb (ex_terminal (it_expanded it)) /\
    it_win_prob it = (if ex_terminal (it_expanded it) then ex_win_prob (it_expanded it)
                      else evaluate (ex_state (it_expanded it)) root_player turn) /\
    pool_ptr (node_pool g) <= pool_ptr (node_pool (it_globals it)) <= MAX_NODES /\
    pool_ptr (move_pool g) <= pool_ptr (move_pool (it_globals it)) <= MAX_MOVES_POOL /\
    exists rn rn', node_pool g !! 0%nat = Some rn /\
                   node_pool (it_globals it) !! 0%nat = Some rn' /\
                   visits rn' = visits rn + 1.
Proof.
  intros Hinv HC. pose proof Hinv as [Hok Hbest].
  destruct (root_lookup g Hinv) as (rn & Hrn & _ & Hrpj).
  destruct (select_loop_ok MAX_NODES MAX_MOVES_POOL root_player root_moves flog fsqrt
              fsqrt_nonneg g C Hok HC (length (node_pool g)) 0%nat rn root_state
              root_player Hrn Hrpj)
    as (node & sel & state & cp & Hsel & Hnode & Hpj & Hstop & Hcp); [lia|].
  assert (Hcp1 : cp = 1 \/ cp = -1) by (unfold BLACK, WHITE in root_side; lia).
  destruct (expand_ok MAX_NODES MAX_MOVES_POOL root_player root_moves g node sel state cp
              Hok Hbest Hnode Hpj Hcp1)
    as (ex & Hex & Hok1 & Hbest1 & Hnew & Hlive & Hpn & Hpm & Hwp).
  set (wp := (if ex_terminal ex then ex_win_prob ex
              else evaluate (ex_state ex) root_player turn)).
  assert (Hwp' : (0 <= wp <= 1)%Q).
  { unfold wp. destruct (ex_terminal ex); [exact Hwp|apply evaluate_bounds]. }
  destruct (backprop_ok MAX_NODES MAX_MOVES_POOL root_player root_moves wp
              (length (node_pool (ex_globals ex))) Hwp' (ex_new ex) (ex_globals ex)
              (ex_node ex) Hok1 Hbest1 Hlive)
    as (g' & Hbp & Hok2 & Hbest2 & Hlen2 & Hmp2 & rn1 & rn2 & Hr1 & Hr2 & Hvis).
  { destruct Hnew as [-> | ->]; [left|right]; reflexivity. }
  { destruct Hlive as [? Hl]. eapply lookup_lt_Some. exact Hl. }
  exists (mkIteration node ex (negb (ex_terminal ex)) wp g'), sel, state, cp.
  cbn [it_globals it_selected it_expanded it_evaluated it_win_prob].
  split.
  { unfold iterate. rewrite Hsel. cbn [mbind option_bind]. rewrite Hex.
    cbn [mbind option_bind]. fold wp. rewrite Hbp. reflexivity. }
  split; [split; assumption|]. split; [exact Hsel|]. split; [exact Hnode|].
  split; [exact Hpj|]. split; [exact Hcp|]. split; [exact Hstop|]. split; [exact Hex|].
  split; [reflexivity|]. split; [reflexivity|].
  pose proof Hok2 as (_ & _ & Hc1 & Hc2 & _).
  unfold pool_ptr in *. rewrite Hlen2, Hmp2 in *. split; [lia|]. split; [lia|].
  exists rn, rn2. split; [exact Hrn|]. split; [exact Hr2|].
  destruct (expand_old_nodes _ _ _ _ _ _ _ _ 0%nat rn Hex Hrn) as (rn1' & Hr1' & Hv1 & _).
  rewrite Hr1 in Hr1'. injection Hr1' as <-. lia.
Qed.

(** The start of [search] establishes the invariant: the pools hold the
    root and its moves. *)
Lemma search_init_unfold (seed : Z) :
  search_init MAX_NODES MAX_MOVES_POOL root_state root_player seed
  = Some (0%nat,
          mkGlobals (snd (get_legal_moves MAX_MOVES_POOL root_state root_player []))
            [set_moves (node_init None Move_default (- root_player))
               (fst (fst (get_legal_moves MAX_MOVES_POOL root_state root_player [])))
               (snd (fst (get_legal_moves MAX_MOVES_POOL root_state root_player [])))]
            seed None (-1)).
Proof.
  unfold search_init, new_node. cbn [node_pool move_pool].
  change (pool_ptr (@nil MCTSNode)) with 0.
  destruct (Z.leb_spec MAX_NODES 0) as [Hle|_]; [lia|]. reflexivity.
Qed.

Lemma search_init_ok (seed : Z) :
  exists g0 rn,
    search_init MAX_NODES MAX_MOVES_POOL root_state root_player seed = Some (0%nat, g0) /\
    inv g0 /\ node_pool g0 = [rn] /\ move_pool g0 = root_moves /\
    first_child rn = None /\ visits rn = 0 /\
    moves_count rn = pool_ptr root_moves /\ moves_start_idx rn = 0.
Proof.
  rewrite search_init_unfold.
  destruct (get_legal_moves_shape MAX_MOVES_POOL root_state root_player [])
    as (Hstart & Hcount & Hpool & _).
  pose proof (get_legal_moves_cap MAX_MOVES_POOL root_state root_player []) as Hcap.
  rewrite <- root_moves_eq in Hcount, Hpool. cbn [app] in Hpool.
  revert Hstart Hcount Hpool Hcap.
  generalize (get_legal_moves MAX_MOVES_POOL root_state root_player []).
  intros [[start count] pool]. cbn [fst snd]. intros -> -> -> Hcap.
  change (pool_ptr (@nil Move)) with 0 in *.
  assert (Hint : int8 (- root_player) = - root_player)
    by (destruct root_side as [-> | ->]; reflexivity).
  eexists _, _. split; [reflexivity|].
  split; [|unfold pool_ptr;
           cbn [node_pool move_pool set_moves node_init first_child visits moves_count
                moves_start_idx];
           split; [exact eq_refl|split; [exact eq_refl|split; [exact eq_refl|split;
             [exact eq_refl|split; exact eq_refl]]]]].
  split.
  - unfold pools_ok. cbn [node_pool move_pool].
    split; [|split; [|split; [|split; [|split]]]].
    + eexists. split; [reflexivity|]. intros _ c nc Hc.
      destruct c as [|c]; [|discriminate]. injection Hc as <-. discriminate.
    + intros i n Hi. destruct i as [|i]; [|discriminate]. injection Hi as <-.
      unfold node_ok. cbn [set_moves node_init parent first_child next_sibling
        moves_count moves_start_idx visits wins move player_just_moved].
      split; [split; [reflexivity|exact Hint]|].
      split; [discriminate|]. split; [discriminate|].
      unfold pool_ptr. split; [lia|]. split; [intros _; repeat split; try lia|].
      split; [lia|]. split; [lra|discriminate].
    + unfold pool_ptr. cbn [length]. lia.
    + apply Hcap. exact moves_capacity.
    + apply Z.le_refl.
    + intros k m _ Hm. apply list_elem_of_In. eapply list_elem_of_lookup_2. exact Hm.
  - unfold best_ok. cbn [node_pool max_visits_global best_child_global].
    split; [lia|]. split; [|split; [|split; [reflexivity|]]].
    + intros c nc Hc Hp. destruct c as [|c]; [|discriminate]. injection Hc as <-. discriminate.
    + intros c nc _ [=].
    + intros c nc Hc Hp. destruct c as [|c]; [|discriminate]. injection Hc as <-. discriminate.
Qed.

Hypothesis fexp_nonneg : forall x, (0 <= fexp x)%Q.

Lemma ucb_constant_nonneg : (0 <= ucb_constant fexp turn)%Q.
Proof.
  unfold ucb_constant.
  pose proof (fexp_nonneg (- 0.008 * (inject_Z turn - 1.41))%Q) as H.
  apply Qmult_le_0_compat; [lra|exact H].
Qed.

Lemma land_255 (it : Z) : 0 <= it -> Z.land it 255 = it mod 256.
Proof. intros _. change 255 with (Z.ones 8). rewrite Z.land_ones by lia. reflexivity. Qed.

Local Abbreviation near_capacity := (near_capacity MAX_NODES MAX_MOVES_POOL).
Local Abbreviation loop_exit C :=
  (loop_exit MAX_NODES MAX_MOVES_POOL flog fsqrt now_ge_deadline root_state root_player
     turn C root_moves).

(** The loop ends at the first periodic check at which the deadline has
    passed or a pool is close to its capacity; [k] is a reading of the clock
    at which the deadline has passed. *)
Lemma search_loop_ok (C : Q) (k : nat) :
  (0 <= C)%Q -> now_ge_deadline k = true ->
  forall fuel l,
    inv (lp_globals l) ->
    (lp_reads l <= k)%nat ->
    256 * (Z.of_nat (lp_reads l) - 1) < lp_iterations l <= 256 * Z.of_nat (lp_reads l) ->
    0 <= lp_iterations l ->
    (Z.to_nat (256 * Z.of_nat k - lp_iterations l) < fuel)%nat ->
    exists l' K,
      search_loop MAX_NODES MAX_MOVES_POOL flog fsqrt now_ge_deadline fuel
        root_state root_player turn C 0 l = Some l' /\
      (K <= k)%nat /\
      loop_exit C (lp_globals l) (lp_iterations l) (lp_reads l) l' K.
Proof.
  intros HC Hk. induction fuel as [|fuel IH]; intros [g it r] Hinv Hr Hrel Hit Hfuel; [lia|].
  cbn [lp_globals lp_iterations lp_reads] in *.
  destruct (root_lookup g Hinv) as (rn & Hrn & _).
  assert (Hhere : (now_ge_deadline r = true \/ near_capacity g) ->
            it = 256 * Z.of_nat r ->
            loop_exit C g it r (mkLoop g it (S r)) r).
  { intros Hor Hiteq. unfold loop_exit. cbn [lp_globals lp_iterations lp_reads].
    split; [exact Hinv|]. split; [exact Hiteq|]. split; [reflexivity|].
    split; [replace (256 * Z.of_nat r - it) with 0 by lia; reflexivity|].
    split; [intros j Hj; lia|]. split; [exact Hor|]. split; [lia|]. split; [lia|].
    exists rn, rn. split; [exact Hrn|]. split; [exact Hrn|]. lia. }
  assert (Hstep : forall r',
            (r' <= k)%nat -> 256 * (Z.of_nat r' - 1) < it + 1 <= 256 * Z.of_nat r' ->
            (forall j, (r <= j < r')%nat ->
               now_ge_deadline j = false /\ it = 256 * Z.of_nat j /\ ~ near_capacity g) ->
            it < 256 * Z.of_nat k ->
            exists l' K,
              (it0 ← iterate MAX_NODES MAX_MOVES_POOL flog fsqrt root_state root_player
                       turn C 0 g;
               search_loop MAX_NODES MAX_MOVES_POOL flog fsqrt now_ge_deadline fuel
                 root_state root_player turn C 0
                 (mkLoop (it_globals it0) (it + 1) r')) = Some l' /\
              (K <= k)%nat /\ loop_exit C g it r l' K).
  { intros r' Hr' Hrel' Hfalse Hlt.
    destruct (iterate_ok g C Hinv HC)
      as (it0 & sel & st & cp & Hrun & Hinv' & _ & _ & _ & _ & _ & _ & _ & _ & Hpn & Hpm
          & rn0 & rn1 & Hrn0 & Hrn1 & Hv1).
    rewrite Hrun. cbn [mbind option_bind].
    destruct (IH (mkLoop (it_globals it0) (it + 1) r')) as
      (l' & K & Hloop & HK & Hinv'' & Hit' & Hreads & Hfinal & Hbefore & Hstop & Hpn' & Hpm'
       & rn1' & rn2 & Hrn1' & Hrn2 & Hv2);
      cbn [lp_globals lp_iterations lp_reads]; try assumption; try lia.
    cbn [lp_globals lp_iterations lp_reads] in *.
    assert (Hsplit : forall j, 256 * Z.of_nat j - it > 0 ->
              Z.to_nat (256 * Z.of_nat j - it) = S (Z.to_nat (256 * Z.of_nat j - (it + 1))))
      by (intros j Hj; lia).
    assert (HK' : (r' <= K)%nat \/ (K < r')%nat) by lia.
    assert (HrK : it + 1 <= 256 * Z.of_nat K).
    { destruct (Z.le_gt_cases (it + 1) (256 * Z.of_nat K)) as [H|H]; [exact H|].
      exfalso. assert (Hgt : (K < r')%nat) by lia.
      assert (Z.of_nat K <= Z.of_nat r' - 1) by lia.
      rewrite Hit' in Hv2.
      destruct (root_lookup _ Hinv') as (ra & Hra & _).
      destruct (root_lookup _ Hinv'') as (rb & Hrb & _).
      rewrite Hrn1' in Hra. injection Hra as <-. rewrite Hrn2 in Hrb. injection Hrb as <-.
      revert Hfinal. replace (Z.to_nat (256 * Z.of_nat K - (it + 1))) with 0%nat by lia.
      cbn [iterate_n]. intros [= E]. rewrite <- E in Hrn2. rewrite Hrn1' in Hrn2.
      injection Hrn2 as <-. lia. }
    exists l', K. split; [exact Hloop|]. split; [exact HK|].
    unfold loop_exit.
    split; [exact Hinv''|]. split; [exact Hit'|]. split; [exact Hreads|].
    split.
    { rewrite (Hsplit K) by lia. cbn [iterate_n]. rewrite Hrun. cbn [mbind option_bind].
      exact Hfinal. }
    split.
    { intros j Hj. destruct (decide (j < r')%nat) as [Hlt'|Hge].
      - destruct (Hfalse j) as (Hf & Hje & Hnc); [lia|]. split; [exact Hf|].
        exists g. split; [|exact Hnc].
        replace (256 * Z.of_nat j - it) with 0 by lia. reflexivity.
      - destruct (Hbefore j) as (Hf & gj & Hgj & Hnc); [lia|]. split; [exact Hf|].
        exists gj. split; [|exact Hnc].
        rewrite (Hsplit j) by lia. cbn [iterate_n]. rewrite Hrun. cbn [mbind option_bind].
        exact Hgj. }
    split; [exact Hstop|]. split; [lia|]. split; [lia|].
    exists rn0, rn2. split; [exact Hrn0|]. split; [exact Hrn2|].
    rewrite Hrn1 in Hrn1'. injection Hrn1' as <-. lia. }
  cbn [search_loop lp_globals lp_iterations lp_reads].
  rewrite land_255 by exact Hit.
  destruct (Z.eqb_spec (it mod 256) 0) as [Hmod|Hmod].
  - assert (Hiteq : it = 256 * Z.of_nat r).
    { pose proof (Z.div_mod it 256). lia. }
    destruct (now_ge_deadline r) eqn:Hdl.
    + exists (mkLoop g it (S r)), r. split; [reflexivity|]. split; [exact Hr|].
      apply Hhere; [left; reflexivity|exact Hiteq].
    + destruct (Z.ltb_spec (MAX_NODES - 500) (pool_ptr (node_pool g))) as [Hn|Hn].
      * exists (mkLoop g it (S r)), r. split; [reflexivity|]. split; [exact Hr|].
        apply Hhere; [right; left; exact Hn|exact Hiteq].
      * destruct (Z.ltb_spec (MAX_MOVES_POOL - 5000) (pool_ptr (move_pool g))) as [Hm|Hm].
        -- exists (mkLoop g it (S r)), r. split; [reflexivity|]. split; [exact Hr|].
           apply Hhere; [right; right; exact Hm|exact Hiteq].
        -- assert (Hrk : (r < k)%nat).
           { destruct (decide (r = k)) as [->|]; [congruence|lia]. }
           apply (Hstep (S r)); try lia.
           intros j Hj. assert (j = r) by lia. subst j.
           split; [exact Hdl|]. split; [exact Hiteq|].
           unfold near_capacity. lia.
  - assert (Hitlt : it < 256 * Z.of_nat r).
    { destruct (Z.eq_dec it (256 * Z.of_nat r)) as [E|]; [|lia].
      exfalso. apply Hmod. rewrite E, Z.mul_comm. apply Z.mod_mul. lia. }
    apply (Hstep r); try lia.
Qed.

End LoopFacts.

(** ** The stand-ins are nowhere negative *)

Lemma approx_sqrt_nonneg (x : Q) : (0 <= approx_sqrt x)%Q.
Proof.
  unfold approx_sqrt. destruct (Qle_bool x 0); [lra|].
  apply Qle_shift_div_l; [lra|].
  rewrite Qmult_0_l. rewrite <- (Zle_Qle 0). apply Z.sqrt_nonneg.
Qed.

Lemma exp_series_pos (y : Q) : (0 <= y -> 1 <= exp_series y)%Q.
Proof.
  intros Hy. unfold exp_series.
  assert (H2 : (0 <= y * y)%Q) by nra.
  assert (H3 : (0 <= y * y * y)%Q) by nra.
  assert (H4 : (0 <= y * y * y * y)%Q) by nra.
  assert (H2' : (0 <= y * y / 2)%Q) by (apply Qle_shift_div_l; lra).
  assert (H3' : (0 <= y * y * y / 6)%Q) by (apply Qle_shift_div_l; lra).
  assert (H4' : (0 <= y * y * y * y / 24)%Q) by (apply Qle_shift_div_l; lra).
  lra.
Qed.

Lemma approx_exp_nonneg (x : Q) : (0 <= approx_exp x)%Q.
Proof.
  unfold approx_exp. destruct (Qle_bool 0 x) eqn:E.
  - apply Qle_bool_iff in E. pose proof (exp_series_pos x E). lra.
  - apply Qle_bool_false_lt in E.
    assert (H : (1 <= exp_series (- x))%Q) by (apply exp_series_pos; lra).
    apply Qle_shift_div_l; lra.
Qed.

(** ** The four ways the expansion step can go *)

Lemma expand_cases MAX_NODES MAX_MOVES_POOL root_player (g : Globals) (node : nat)
    (n : MCTSNode) (state : Board) (cp : Z) (ex : Expanded) :
  expand MAX_NODES MAX_MOVES_POOL root_player g node state cp = Some ex ->
  node_pool g !! node = Some n ->
  (moves_count n <= 0 /\ first_child n = None /\
   ex = mkExpanded g node state cp
          (if player_just_moved n =? root_player then 1 else 0)%Q true None) \/
  (moves_count n <= 0 /\ first_child n <> None /\
   ex = mkExpanded g node state cp 0%Q false None) \/
  (0 < moves_count n /\ MAX_NODES <= pool_ptr (node_pool g) /\
   ex_new ex = None /\ ex_node ex = node /\ ex_terminal ex = false /\
   ex_player ex = - cp /\
   pool_ptr (node_pool (ex_globals ex)) = pool_ptr (node_pool g)) \/
  (0 < moves_count n /\ pool_ptr (node_pool g) < MAX_NODES /\
   exists child m mp,
     ex_new ex = Some (length (node_pool g)) /\ ex_node ex = length (node_pool g) /\
     node_pool (ex_globals ex) !! length (node_pool g) = Some child /\
     parent child = Some node /\ move child = m /\ visits child = 0 /\
     ex_player ex = - cp /\ ex_state ex = apply_move state m /\
     moves_count child
     = snd (fst (get_legal_moves MAX_MOVES_POOL (ex_state ex) (ex_player ex) mp)) /\
     ex_terminal ex = (moves_count child =? 0) /\
     ex_win_prob ex
     = (if ex_terminal ex then (if ex_player ex =? root_player then 0 else 1) else 0)%Q /\
     pool_ptr mp = pool_ptr (move_pool g)).
Proof.
  unfold expand. intros Hex Hn. rewrite Hn in Hex. cbn [mbind option_bind] in Hex.
  assert (Hnl : (node < length (node_pool g))%nat) by (eapply lookup_lt_Some; exact Hn).
  destruct (Z.ltb_spec 0 (moves_count n)) as [Hpos|Hnpos].
  - match type of Hex with context [pool_at (move_pool g) ?b] =>
      destruct (pool_at (move_pool g) b) as [m|]; [|discriminate] end.
    cbn [mbind option_bind] in Hex.
    match type of Hex with context [pool_at (move_pool g) ?b] =>
      destruct (pool_at (move_pool g) b) as [ml|]; [|discriminate] end.
    cbn [mbind option_bind] in Hex.
    unfold new_node in Hex. cbn [node_pool] in Hex.
    unfold pool_ptr in *. rewrite length_insert in Hex.
    destruct (Z.leb_spec MAX_NODES (Z.of_nat (length (node_pool g)))) as [Hfull|Hroom].
    + right. right. left. apply (inj Some) in Hex. subst ex.
      cbn [ex_new ex_node ex_terminal ex_player ex_globals node_pool].
      rewrite length_insert. repeat split; assumption.
    + right. right. right. apply (inj Some) in Hex. subst ex.
      cbn [ex_new ex_node ex_terminal ex_player ex_globals ex_state ex_win_prob
           node_pool move_pool set_node_pool].
      split; [exact Hpos|]. split; [exact Hroom|].
      eexists _, m, _. split; [reflexivity|]. split; [reflexivity|].
      split.
      { rewrite list_lookup_insert_ne by lia.
        apply list_lookup_insert_eq. rewrite length_app, length_insert. cbn [length]. lia. }
      cbn [set_next_sibling set_moves node_init parent move visits moves_count].
      split; [reflexivity|]. split; [reflexivity|]. split; [reflexivity|].
      split; [reflexivity|]. split; [reflexivity|]. split; [reflexivity|].
      split; [reflexivity|]. split; [reflexivity|].
      unfold pool_ptr. rewrite !length_pool_set. reflexivity.
  - case_bool_decide as Hfc.
    + left. apply (inj Some) in Hex. subst ex. repeat split; [lia|exact Hfc].
    + right. left. apply (inj Some) in Hex. subst ex. repeat split; [lia|exact Hfc].
Qed.

(** ** The parents of the nodes are never rewritten *)

Lemma backprop_parents (fuel root : nat) (root_player : Z) (win_prob : Q) :
  forall (g g' : Globals) (node : option nat),
    backprop fuel root root_player win_prob g node = Some g' ->
    forall j nj, node_pool g !! j = Some nj ->
      exists nj', node_pool g' !! j = Some nj' /\ parent nj' = parent nj.
Proof.
  induction fuel as [|fuel IH]; intros g g' node Hrun j nj Hj.
  - destruct node as [i|]; [discriminate Hrun|].
    cbn [backprop] in Hrun. apply (inj Some) in Hrun. subst g'.
    exists nj. split; [exact Hj|reflexivity].
  - destruct node as [i|].
    + cbn [backprop] in Hrun.
      destruct (node_pool g !! i) as [n|] eqn:Hn; [|discriminate Hrun].
      cbn [mbind option_bind] in Hrun.
      assert (Hstep : exists nj1,
                 node_pool (backprop_node root root_player win_prob g i n) !! j = Some nj1 /\
                 parent nj1 = parent nj).
      { unfold backprop_node.
        assert (Hpool : forall g1, node_pool g1 = node_pool g ->
                  exists nj1,
                    node_pool (set_node_pool g1
                                 (<[i := set_stats n
                                          (if player_just_moved n =? root_player
                                           then wins n + win_prob
                                           else wins n + (1 - win_prob))%Q
                                          (visits n + 1)]> (node_pool g1))) !! j = Some nj1 /\
                    parent nj1 = parent nj).
        { intros g1 Hg1. cbn [set_node_pool node_pool]. rewrite Hg1.
          destruct (decide (i = j)) as [->|Hne].
          - rewrite list_lookup_insert_eq by (eapply lookup_lt_Some; exact Hj).
            rewrite Hn in Hj. apply (inj Some) in Hj. subst nj.
            eexists. split; [reflexivity|]. reflexivity.
          - rewrite list_lookup_insert_ne by exact Hne.
            exists nj. split; [exact Hj|reflexivity]. }
        destruct (bool_decide (parent n = Some root) && (max_visits_global g <? visits n + 1)).
        - apply Hpool. reflexivity.
        - apply Hpool. reflexivity. }
      destruct Hstep as (nj1 & Hj1 & Hp1).
      destruct (IH _ _ _ Hrun j nj1 Hj1) as (nj' & Hj' & Hp').
      exists nj'. split; [exact Hj'|congruence].
    + cbn [backprop] in Hrun. apply (inj Some) in Hrun. subst g'.
      exists nj. split; [exact Hj|reflexivity].
Qed.

(** The three steps of an iteration. *)
Lemma iterate_unfold MAX_NODES MAX_MOVES_POOL flog fsqrt (root_state : Board)
    (root_player turn : Z) (C : Q) (g : Globals) (it : Iteration) :
  iterate MAX_NODES MAX_MOVES_POOL flog fsqrt root_state root_player turn C 0 g = Some it ->
  exists state cp,
    select_loop flog fsqrt (length (node_pool g)) (node_pool g) C 0 root_state root_player
      = Some (it_selected it, state, cp) /\
    expand MAX_NODES MAX_MOVES_POOL root_player g (it_selected it) state cp
      = Some (it_expanded it) /\
    backprop (length (node_pool (ex_globals (it_expanded it)))) 0 root_player (it_win_prob it)
      (ex_globals (it_expanded it)) (Some (ex_node (it_expanded it))) = Some (it_globals it).
Proof.
  unfold iterate. intros Hit.
  destruct (select_loop flog fsqrt (length (node_pool g)) (node_pool g) C 0 root_state
              root_player) as [[[node state] cp]|] eqn:Hsel; [|discriminate Hit].
  cbn [mbind option_bind] in Hit.
  destruct (expand MAX_NODES MAX_MOVES_POOL root_player g node state cp) as [ex|] eqn:Hex;
    [|discriminate Hit].
  cbn [mbind option_bind] in Hit.
  match type of Hit with context [backprop ?f ?r ?p ?w ?gg ?n] =>
    destruct (backprop f r p w gg n) as [g'|] eqn:Hbp; [|discriminate Hit] end.
  cbn [mbind option_bind] in Hit. apply (inj Some) in Hit. subst it.
  cbn [it_selected it_expanded it_win_prob it_globals].
  exists state, cp. split; [reflexivity|]. split; [exact Hex|exact Hbp].
Qed.

Lemma iterate_parents MAX_NODES MAX_MOVES_POOL flog fsqrt (root_state : Board)
    (root_player turn : Z) (C : Q) (g : Globals) (it : Iteration) :
  iterate MAX_NODES MAX_MOVES_POOL flog fsqrt root_state root_player turn C 0 g = Some it ->
  forall j nj, node_pool g !! j = Some nj ->
    exists nj', node_pool (it_globals it) !! j = Some nj' /\ parent nj' = parent nj.
Proof.
  intros Hit j nj Hj.
  destruct (iterate_unfold _ _ _ _ _ _ _ _ _ _ Hit) as (state & cp & _ & Hex & Hbp).
  destruct (expand_old_nodes _ _ _ _ _ _ _ _ j nj Hex Hj) as (nj1 & Hj1 & _ & _ & _ & Hp1).
  destruct (backprop_parents _ _ _ _ _ _ _ Hbp j nj1 Hj1) as (nj' & Hj' & Hp').
  exists nj'. split; [exact Hj'|congruence].
Qed.

Lemma iterate_n_parents MAX_NODES MAX_MOVES_POOL flog fsqrt (root_state : Board)
    (root_player turn : Z) (C : Q) (n : nat) :
  forall (g gn : Globals),
    iterate_n MAX_NODES MAX_MOVES_POOL flog fsqrt n root_state root_player turn C 0 g
      = Some gn ->
    forall j nj, node_pool g !! j = Some nj ->
      exists nj', node_pool gn !! j = Some nj' /\ parent nj' = parent nj.
Proof.
  induction n as [|n IH]; intros g gn Hn j nj Hj.
  - cbn [iterate_n] in Hn. apply (inj Some) in Hn. subst gn.
    exists nj. split; [exact Hj|reflexivity].
  - cbn [iterate_n] in Hn.
    destruct (iterate MAX_NODES MAX_MOVES_POOL flog fsqrt root_state root_player turn C 0 g)
      as [it|] eqn:Hit; [|discriminate Hn].
    cbn [mbind option_bind] in Hn.
    destruct (iterate_parents _ _ _ _ _ _ _ _ _ _ Hit j nj Hj) as (nj1 & Hj1 & Hp1).
    destruct (IH _ _ Hn j nj1 Hj1) as (nj' & Hj' & Hp').
    exists nj'. split; [exact Hj'|congruence].
Qed.

(** ** The claims on the search *)

Section Claims.

Variable MAX_NODES : Z.
Variable MAX_MOVES_POOL : Z.
Variable flog : Q -> Q.
Variable fsqrt : Q -> Q.
Variable fexp : Q -> Q.
Variable now_ge_deadline : nat -> bool.
Variable root_state : Board.
Variable root_player : Z.
Variable turn : Z.
Variable seed : Z.

Hypothesis fsqrt_nonneg : forall x, (0 <= fsqrt x)%Q.
Hypothesis fexp_nonneg : forall x, (0 <= fexp x)%Q.
Hypothesis root_side : root_player = BLACK \/ root_player = WHITE.
Hypothesis nodes_capacity : 0 < MAX_NODES.
Hypothesis moves_capacity : 0 <= MAX_MOVES_POOL.

Local Abbreviation root_moves := (root_legal_moves MAX_MOVES_POOL root_state root_player).
Local Abbreviation inv := (search_inv MAX_NODES MAX_MOVES_POOL root_player root_moves).
Local Abbreviation C := (ucb_constant fexp turn).

Lemma root_moves_unfold :
  root_moves = returned_moves (get_legal_moves MAX_MOVES_POOL root_state root_player []).
Proof. unfold root_legal_moves. exact eq_refl. Qed.

Lemma C_nonneg : (0 <= C)%Q.
Proof. apply ucb_constant_nonneg. exact fexp_nonneg. Qed.


Lemma NO_MOVE_not_generated (m : Move) : In m root_moves -> m <> NO_MOVE.
Proof.
  unfold root_legal_moves. intros Hm Heq.
  apply list_elem_of_In in Hm. apply returned_moves_ok in Hm.
  destruct Hm as (Hon & _). rewrite Heq in Hon. apply on_board_spec in Hon.
  change (x0 NO_MOVE) with (-1) in Hon. lia.
Qed.

(** What [search] returns from globals satisfying the invariant. *)
Lemma search_result_ok (g : Globals) :
  inv g ->
  exists mv rn,
    search_result 0 g = Some mv /\ node_pool g !! 0%nat = Some rn /\
    ((first_child rn = None /\ mv = NO_MOVE /\
      forall c nc, node_pool g !! c = Some nc -> parent nc <> Some 0%nat) \/
     (first_child rn <> None /\ mv <> NO_MOVE /\ In mv root_moves /\
      exists b nb,
        node_pool g !! b = Some nb /\ parent nb = Some 0%nat /\ mv = move nb /\
        forall c nc, node_pool g !! c = Some nc -> parent nc = Some 0%nat ->
                     visits nc <= visits nb)).
Proof.
  intros [Hok Hbest]. pose proof Hok as ((rn & Hrn & Hrc) & Hnodes & _).
  destruct Hbest as (_ & Hle & _ & Hb). unfold search_result.
  destruct (best_child_global g) as [b|].
  - destruct Hb as (nb & Hnb & Hpb & Hvb). rewrite Hnb. cbn [fmap option_fmap option_map].
    exists (move nb), rn. split; [reflexivity|]. split; [exact Hrn|]. right.
    destruct (Hnodes b nb Hnb) as (_ & _ & _ & _ & _ & _ & _ & Hmv).
    split; [intros Hfc; exact (Hrc Hfc b nb Hnb Hpb)|].
    split; [apply NO_MOVE_not_generated, Hmv, Hpb|]. split; [apply Hmv, Hpb|].
    exists b, nb. split; [exact Hnb|]. split; [exact Hpb|]. split; [reflexivity|].
    intros c nc Hc Hp. rewrite Hvb. apply (Hle c nc Hc Hp). discriminate.
  - destruct Hb as [_ Hnone]. rewrite Hrn. cbn [mbind option_bind].
    assert (Hno : forall c nc, node_pool g !! c = Some nc -> parent nc <> Some 0%nat).
    { intros c nc Hc Hp. specialize (Hnone c nc Hc Hp). discriminate. }
    destruct (first_child rn) as [c|] eqn:Hfc.
    + exfalso. destruct (Hnodes 0%nat rn Hrn) as (_ & Hfcn & _).
      destruct (Hfcn c Hfc) as (nc & Hc & Hp). exact (Hno c nc Hc Hp).
    + exists NO_MOVE, rn. split; [reflexivity|]. split; [first [exact Hrn|reflexivity]|]. left.
      split; [exact Hfc|]. split; [reflexivity|exact Hno].
Qed.

(** [search] runs to the end of its loop once the deadline passes. *)
Lemma search_run_ok (k fuel : nat) :
  now_ge_deadline k = true -> (256 * k < fuel)%nat ->
  exists g0 l K,
    search_init MAX_NODES MAX_MOVES_POOL root_state root_player seed = Some (0%nat, g0) /\
    inv g0 /\
    search_run MAX_NODES MAX_MOVES_POOL flog fsqrt fexp now_ge_deadline fuel
      root_state root_player turn seed = Some (0%nat, l) /\
    (K <= k)%nat /\
    loop_exit MAX_NODES MAX_MOVES_POOL flog fsqrt now_ge_deadline root_state root_player
      turn C root_moves g0 0 0%nat l K.
Proof.
  intros Hk Hfuel.
  destruct (search_init_ok MAX_NODES MAX_MOVES_POOL root_state root_player root_side
              nodes_capacity moves_capacity root_moves root_moves_unfold seed)
    as (g0 & rn & Hinit & Hinv & _).
  destruct (search_loop_ok MAX_NODES MAX_MOVES_POOL flog fsqrt now_ge_deadline root_state
              root_player turn fsqrt_nonneg root_side root_moves C k C_nonneg Hk fuel
              (mkLoop g0 0 0%nat))
    as (l & K & Hloop & HK & Hexit); cbn [lp_globals lp_iterations lp_reads];
    try assumption; try lia.
  exists g0, l, K. split; [exact Hinit|]. split; [exact Hinv|].
  split; [|split; [exact HK|exact Hexit]].
  unfold search_run. rewrite Hinit. cbn [mbind option_bind fst snd].
  rewrite Hloop. reflexivity.
Qed.


(** The first iteration gives the root a child when a move was generated
    for it and the node pool has room. *)
Lemma first_iteration_child (g0 : Globals) (rn : MCTSNode) (it : Iteration) :
  node_pool g0 = [rn] -> moves_count rn = pool_ptr root_moves -> root_moves <> [] ->
  2 <= MAX_NODES ->
  iterate MAX_NODES MAX_MOVES_POOL flog fsqrt root_state root_player turn C 0 g0 = Some it ->
  exists nc, node_pool (it_globals it) !! 1%nat = Some nc /\ parent nc = Some 0%nat.
Proof.
  intros Hpool Hmc Hne Hcap Hit.
  assert (Hpos : 0 < moves_count rn).
  { rewrite Hmc. unfold pool_ptr. destruct root_moves; [congruence|cbn [length]; lia]. }
  destruct (iterate_unfold _ _ _ _ _ _ _ _ _ _ Hit) as (state & cp & Hsel & Hex & Hbp).
  rewrite Hpool in Hsel. cbn [length select_loop lookup list_lookup mbind option_bind] in Hsel.
  destruct (Z.eqb_spec (moves_count rn) 0) as [Hz|_]; [lia|].
  cbn [andb] in Hsel. apply (inj Some) in Hsel.
  assert (Hnode : it_selected it = 0%nat) by congruence.
  rewrite Hnode in Hex.
  assert (Hrn : node_pool g0 !! 0%nat = Some rn) by (rewrite Hpool; reflexivity).
  destruct (expand_cases _ _ _ _ _ _ _ _ _ Hex Hrn)
    as [(Hle & _)|[(Hle & _)|[(_ & Hfull & _)|(_ & _ & Hchild)]]]; try lia.
  - unfold pool_ptr in Hfull. rewrite Hpool in Hfull. cbn [length] in Hfull. lia.
  - destruct Hchild as (child & m & mp & _ & _ & Hlk & Hpar & _).
    rewrite Hpool in Hlk. cbn [length] in Hlk.
    destruct (backprop_parents _ _ _ _ _ _ _ Hbp 1%nat child Hlk) as (nc & Hnc & Hp).
    exists nc. split; [exact Hnc|congruence].
Qed.

(** The root has no child exactly when no move was generated for it or no
    iteration was made. *)
Lemma root_childless (g0 : Globals) (K : nat) (l : Loop) (rn : MCTSNode) :
  search_init MAX_NODES MAX_MOVES_POOL root_state root_player seed = Some (0%nat, g0) ->
  loop_exit MAX_NODES MAX_MOVES_POOL flog fsqrt now_ge_deadline root_state root_player
    turn C root_moves g0 0 0%nat l K ->
  node_pool (lp_globals l) !! 0%nat = Some rn ->
  2 <= MAX_NODES ->
  (first_child rn = None <-> root_moves = [] \/ lp_iterations l = 0).
Proof.
  intros Hinit Hexit Hrn Hcap.
  destruct (search_init_ok MAX_NODES MAX_MOVES_POOL root_state root_player root_side
              nodes_capacity moves_capacity root_moves root_moves_unfold seed)
    as (g0' & rn0 & Hinit' & _ & Hpool & _ & Hfc0 & _ & Hmc & _).
  rewrite Hinit in Hinit'. apply (inj Some) in Hinit'.
  assert (Hg : g0' = g0) by congruence. subst g0'. clear Hinit'.
  destruct Hexit as (Hinv & Hits & _ & Hrun & _).
  pose proof Hinv as [((rn' & Hrn' & Hrc) & Hnodes & _) _].
  rewrite Hrn in Hrn'. apply (inj Some) in Hrn'. subst rn'.
  split.
  - intros Hfc.
    destruct (decide (root_moves = [])) as [He|Hne]; [left; exact He|right].
    destruct K as [|K]; [rewrite Hits; reflexivity|exfalso].
    replace (Z.to_nat (256 * Z.of_nat (S K) - 0)) with (S (256 * K + 255)) in Hrun by lia.
    cbn [iterate_n] in Hrun.
    destruct (iterate MAX_NODES MAX_MOVES_POOL flog fsqrt root_state root_player turn C 0 g0)
      as [it|] eqn:Hit; [|discriminate Hrun].
    cbn [mbind option_bind] in Hrun.
    destruct (first_iteration_child g0 rn0 it Hpool Hmc Hne Hcap Hit) as (nc & Hnc & Hp).
    destruct (iterate_n_parents _ _ _ _ _ _ _ _ _ _ _ Hrun 1%nat nc Hnc) as (nc' & Hnc' & Hp').
    apply (Hrc Hfc 1%nat nc' Hnc'). congruence.
  - intros [He|Hz].
    + destruct (first_child rn) as [c|] eqn:Hfc; [exfalso|reflexivity].
      destruct (Hnodes 0%nat rn Hrn) as (_ & Hfcn & _).
      destruct (Hfcn c Hfc) as (nc & Hc & Hp).
      destruct (Hnodes c nc Hc) as (_ & _ & _ & _ & _ & _ & _ & Hmv).
      specialize (Hmv Hp). rewrite He in Hmv. destruct Hmv.
    + assert (HK : K = 0%nat) by lia. subst K.
      cbn in Hrun. apply (inj Some) in Hrun. rewrite <- Hrun in Hrn.
      rewrite Hpool in Hrn. cbn in Hrn. apply (inj Some) in Hrn. subst rn. exact Hfc0.
Qed.

(** [search] returns the sentinel or a move generated for the root. *)
Lemma search_returns (k fuel : nat) :
  now_ge_deadline k = true -> (256 * k < fuel)%nat ->
  exists mv,
    search MAX_NODES MAX_MOVES_POOL flog fsqrt fexp now_ge_deadline fuel
      root_state root_player turn seed = Some mv /\
    (mv = NO_MOVE \/ In mv root_moves).
Proof.
  intros Hk Hfuel.
  destruct (search_run_ok k fuel Hk Hfuel) as (g0 & l & K & Hinit & _ & Hrun & HK & Hexit).
  pose proof Hexit as (Hinv & _).
  destruct (search_result_ok (lp_globals l) Hinv) as (mv & rn & Hres & Hrn & Hcases).
  exists mv. split.
  - unfold search. rewrite Hrun. cbn [mbind option_bind fst snd]. exact Hres.
  - destruct Hcases as [(_ & He & _)|(_ & _ & Hin & _)]; [left; exact He|right; exact Hin].
Qed.

(** With a move to play, room in the pools and the deadline not passed at
    the first reading of the clock, [search] returns a move generated for
    the root. *)
Lemma search_returns_move (k fuel : nat) :
  now_ge_deadline k = true -> (256 * k < fuel)%nat ->
  now_ge_deadline 0%nat = false -> root_moves <> [] ->
  501 <= MAX_NODES -> pool_ptr root_moves <= MAX_MOVES_POOL - 5000 ->
  exists mv,
    search MAX_NODES MAX_MOVES_POOL flog fsqrt fexp now_ge_deadline fuel
      root_state root_player turn seed = Some mv /\
    In mv root_moves.
Proof.
  intros Hk Hfuel H0 Hne Hcn Hcm.
  destruct (search_run_ok k fuel Hk Hfuel) as (g0 & l & K & Hinit & _ & Hrun & HK & Hexit).
  pose proof Hexit as (Hinv & Hits & _ & Hn & _ & Hstop & _).
  destruct (search_result_ok (lp_globals l) Hinv) as (mv & rn & Hres & Hrn & Hcases).
  exists mv. split.
  - unfold search. rewrite Hrun. cbn [mbind option_bind fst snd]. exact Hres.
  - destruct Hcases as [(Hfc & _)|(_ & _ & Hin & _)]; [exfalso|exact Hin].
    apply (root_childless g0 K l rn Hinit Hexit Hrn) in Hfc; [|lia].
    destruct Hfc as [He|Hz]; [exact (Hne He)|].
    assert (HK0 : K = 0%nat) by lia. subst K.
    cbn in Hn. apply (inj Some) in Hn.
    destruct (search_init_ok MAX_NODES MAX_MOVES_POOL root_state root_player root_side
                nodes_capacity moves_capacity root_moves root_moves_unfold seed)
      as (g0' & rn0 & Hinit' & _ & Hpool & Hmp & _).
    rewrite Hinit in Hinit'. apply (inj Some) in Hinit'.
    assert (Hg : g0' = g0) by congruence. subst g0'.
    destruct Hstop as [Hd|Hnear]; [rewrite H0 in Hd; discriminate Hd|].
    rewrite <- Hn in Hnear. unfold near_capacity in Hnear. rewrite Hpool, Hmp in Hnear.
    clear - Hnear Hcn Hcm. revert Hnear Hcm. generalize root_moves. intros rm Hnear Hcm.
    unfold pool_ptr in Hnear, Hcm. cbn [length] in Hnear. lia.
Qed.

(** C3: the move [search] returns is the move of a child of the root whose
    visit count is the greatest among the children of the root, and it is
    the sentinel [(-1,-1,-1,-1,-1,-1)] exactly when the root has no child;
    the root (in a node pool with room for two nodes) has no child exactly
    when it has no legal move or the loop was left at its first check,
    before any iteration. *)
Theorem C3_robust_child (k fuel : nat) :
  now_ge_deadline k = true -> (256 * k < fuel)%nat ->
  robust_child_result MAX_NODES MAX_MOVES_POOL flog fsqrt fexp now_ge_deadline
    root_state root_player turn seed fuel.
Proof.
  intros Hk Hfuel.
  destruct (search_run_ok k fuel Hk Hfuel) as (g0 & l & K & Hinit & _ & Hrun & HK & Hexit).
  pose proof Hexit as (Hinv & _).
  destruct (search_result_ok (lp_globals l) Hinv) as (mv & rn & Hres & Hrn & Hcases).
  exists mv, l, rn. split; [|split; [exact Hrun|split; [exact Hrn|split]]].
  - unfold search. rewrite Hrun. cbn [mbind option_bind fst snd]. exact Hres.
  - destruct Hcases as [H|(Hfc & Hne & _ & Hb)]; [left; exact H|right].
    split; [exact Hfc|]. split; [exact Hne|exact Hb].
  - intros Hcap. exact (root_childless g0 K l rn Hinit Hexit Hrn Hcap).
Qed.





End Claims.

(** ** The claims at the constants of the program *)


Lemma C3_witness :
  (BLACK = BLACK \/ BLACK = WHITE) /\ deadline_from 2 2 = true /\ (256 * 2 < 600)%nat /\
  robust_child_result bot026_MAX_NODES bot026_MAX_MOVES_POOL approx_log approx_sqrt approx_exp
    (deadline_from 2) new_Board BLACK 1 1 600.
Proof.
  split; [left; reflexivity|]. split; [reflexivity|]. split; [lia|].
  apply (C3_robust_child bot026_MAX_NODES bot026_MAX_MOVES_POOL approx_log approx_sqrt
           approx_exp (deadline_from 2) new_Board BLACK 1 1
           approx_sqrt_nonneg approx_exp_nonneg (or_introl eq_refl) eq_refl) with (k := 2%nat).
  - discriminate.
  - reflexivity.
  - lia.
Defined.





(** * The programs *)

(** The colour [main] gives the engine is one of the two sides. *)
Lemma read_request_color (input : list string) (rq : Request) :
  read_request input = inr rq -> rq_color rq = BLACK \/ rq_color rq = WHITE.
Proof.
  unfold read_request. intros H.
  destruct input as [|line rest]; [discriminate H|].
  destruct (stoi line) as [t|]; [|discriminate H].
  destruct (negb (in_int (2 * t) && in_int (2 * t - 1))); [discriminate H|].
  destruct (read_lines (Z.to_nat (2 * t - 1)) rest) as [|l0 ls] eqn:Hl; [discriminate H|].
  destruct (replay (l0 :: ls) new_Board) as [board|]; [|discriminate H].
  apply (inj inr) in H. subst rq. cbn [rq_color]. unfold color_of_line.
  destruct (snd (extract_int (stringstream_ l0))) as [v|]; [|right; reflexivity].
  destruct (v =? -1); [left|right]; reflexivity.
Qed.

(** A generated move is not printed as the sentinel. *)
Lemma print_best_generated MAX_MOVES_POOL (grid : Board) (color : Z) (m : Move) :
  In m (root_legal_moves MAX_MOVES_POOL grid color) -> print_best m = print_move m.
Proof.
  unfold root_legal_moves. intros Hm.
  apply list_elem_of_In in Hm. apply returned_moves_ok in Hm.
  destruct Hm as (Hon & _). apply on_board_spec in Hon.
  unfold print_best. destruct (Z.eqb_spec (x0 m) (-1)) as [He|_]; [lia|reflexivity].
Qed.

(** The move [bot.cpp] draws is one of the list. *)
Lemma bot_main_draw (rand : Z) (input : list string) (board : Board) (color : Z) :
  Bot.read_request input = inr (board, color) ->
  bot_emits_generated_move rand input board color.
Proof.
  intros Hrq. unfold bot_emits_generated_move, Bot.main. rewrite Hrq.
  generalize (Bot.get_legal_moves board color). intros legal.
  destruct legal as [|m0 ms] eqn:Hl.
  - eexists. split; [reflexivity|]. left. split; reflexivity.
  - rewrite <- Hl.
    assert (Hlen : 0 < Z.of_nat (length legal)) by (rewrite Hl; cbn [length]; lia).
    pose proof (Z.mod_pos_bound rand (Z.of_nat (length legal)) Hlen) as Hb.
    destruct (legal !! Z.to_nat (rand mod Z.of_nat (length legal))) as [m|] eqn:Hm.
    + exists m. split; [reflexivity|]. right.
      apply list_elem_of_In. eapply list_elem_of_lookup_2. exact Hm.
    + apply lookup_ge_None in Hm. lia.
Qed.

Section Programs.

Variable MAX_NODES : Z.
Variable MAX_MOVES_POOL : Z.
Variable flog : Q -> Q.
Variable fsqrt : Q -> Q.
Variable fexp : Q -> Q.
Variable now_ge_deadline : nat -> bool.

Hypothesis fsqrt_nonneg : forall x, (0 <= fsqrt x)%Q.
Hypothesis fexp_nonneg : forall x, (0 <= fexp x)%Q.
Hypothesis nodes_capacity : 0 < MAX_NODES.
Hypothesis moves_capacity : 0 <= MAX_MOVES_POOL.

(** C10: whenever [main] of [bot026.cpp] gets to its search it writes one
    line, which is the sentinel or the line of a move that
    [get_legal_moves] generated for the board rebuilt from the history and
    the colour of the engine; and [main] of [bot.cpp] writes the line of a
    move drawn from the list its generator gave for its board and colour
    (the sentinel when the list is empty). *)
Theorem C10_output_is_generated (clock : Z) (k fuel : nat) (rand : Z) (input : list string)
    (rq : Request) (board : Board) (color : Z) :
  read_request input = inr rq ->
  now_ge_deadline k = true -> (256 * k < fuel)%nat ->
  Bot.read_request input = inr (board, color) ->
  emits_generated_move MAX_NODES MAX_MOVES_POOL flog fsqrt fexp now_ge_deadline
    clock fuel input rq /\
  bot_emits_generated_move rand input board color.
Proof.
  intros Hrq Hk Hfuel Hbot. split; [|exact (bot_main_draw rand input board color Hbot)].
  pose proof (read_request_color input rq Hrq) as Hside.
  destruct (search_returns MAX_NODES MAX_MOVES_POOL flog fsqrt fexp now_ge_deadline
              (rq_board rq) (rq_color rq) (rq_turn rq) (seed_rng clock)
              fsqrt_nonneg fexp_nonneg Hside nodes_capacity moves_capacity k fuel Hk Hfuel)
    as (mv & Hmv & Hcases).
  unfold emits_generated_move, main. rewrite Hrq, Hmv. cbn [mbind option_bind].
  eexists. split; [reflexivity|].
  destruct Hcases as [->|Hin].
  - left. reflexivity.
  - right. exists mv. split; [exact Hin|].
    exact (print_best_generated MAX_MOVES_POOL (rq_board rq) (rq_color rq) mv Hin).
Qed.


End Programs.

(** ** The claims on the programs at the constants of [bot026.cpp] *)

(** The first request of a game, to the player of BLACK. *)
Lemma C10_witness :
  read_request ["1"; "-1 -1 -1 -1 -1 -1"]%string = inr (mkRequest 1 new_Board BLACK) /\
  Bot.read_request ["1"; "-1 -1 -1 -1 -1 -1"]%string = inr (new_Board, BLACK) /\
  emits_generated_move bot026_MAX_NODES bot026_MAX_MOVES_POOL approx_log approx_sqrt
    approx_exp (deadline_from 1) 1 300 ["1"; "-1 -1 -1 -1 -1 -1"]%string
    (mkRequest 1 new_Board BLACK) /\
  bot_emits_generated_move 5 ["1"; "-1 -1 -1 -1 -1 -1"]%string new_Board BLACK.
Proof.
  split; [vm_compute; reflexivity|]. split; [vm_compute; reflexivity|].
  apply (C10_output_is_generated bot026_MAX_NODES bot026_MAX_MOVES_POOL approx_log
           approx_sqrt approx_exp (deadline_from 1) approx_sqrt_nonneg approx_exp_nonneg
           eq_refl) with (k := 1%nat).
  - discriminate.
  - vm_compute; reflexivity.
  - reflexivity.
  - lia.
  - vm_compute; reflexivity.
Defined.



(** [iteration_after] computes what [reaches] describes. *)
Lemma iteration_after_reaches MAX_NODES MAX_MOVES_POOL flog fsqrt fexp (root_state : Board)
    (root_player turn seed : Z) (n : nat) (gn : Globals) (it : Iteration) :
  search_init MAX_NODES MAX_MOVES_POOL root_state root_player seed
  = Some (0%nat, snd (default (0%nat, mkGlobals [] [] 0 None 0)
                        (search_init MAX_NODES MAX_MOVES_POOL root_state root_player seed))) ->
  iteration_after MAX_NODES MAX_MOVES_POOL flog fsqrt fexp root_state root_player turn seed n
  = Some (gn, it) ->
  reaches MAX_NODES MAX_MOVES_POOL flog fsqrt fexp root_state root_player turn seed n gn it.
Proof.
  unfold iteration_after, reaches. intros Hinit H.
  destruct (search_init MAX_NODES MAX_MOVES_POOL root_state root_player seed)
    as [[r g0]|]; [|discriminate H].
  cbn [default snd] in Hinit. cbn [mbind option_bind snd] in H.
  exists g0. split; [exact Hinit|].
  destruct (iterate_n MAX_NODES MAX_MOVES_POOL flog fsqrt n root_state root_player turn
              (ucb_constant fexp turn) 0 g0) as [gn'|]; [|discriminate H].
  cbn [mbind option_bind] in H.
  destruct (iterate MAX_NODES MAX_MOVES_POOL flog fsqrt root_state root_player turn
              (ucb_constant fexp turn) 0 gn') as [it'|] eqn:Hit; [|discriminate H].
  cbn [mbind option_bind] in H. apply (inj Some) in H.
  assert (Hg : gn' = gn) by congruence. assert (Hi : it' = it) by congruence.
  subst gn' it'. split; [reflexivity|exact Hit].
Qed.


(** * The loops end by their own tests

    The loops of the source that the embedding runs on fuel leave by a test
    of their own before the fuel is used up: more fuel changes nothing. *)

(** A step along a direction that stays on the board uses up one cell of
    the room left. *)
Lemma ray_step (dr dc x y : Z) :
  -1 <= dr <= 1 -> -1 <= dc <= 1 -> dr <> 0 \/ dc <> 0 ->
  on_board (x + dr) (y + dc) = true ->
  0 <= ray_room dr dc (x + dr) (y + dc) /\
  ray_room dr dc (x + dr) (y + dc) = ray_room dr dc x y - 1.
Proof.
  intros Hr Hc Hnz Hon. apply on_board_spec in Hon. unfold ray_room.
  destruct (Z.eqb_spec dr 1), (Z.eqb_spec dr (-1)), (Z.eqb_spec dc 1); lia.
Qed.

Lemma ray_room_on_board (dr dc x y : Z) :
  on_board x y = true -> 0 <= ray_room dr dc x y <= 7.
Proof.
  intros Hon. apply on_board_spec in Hon. unfold ray_room.
  destruct (dr =? 1), (dr =? -1), (dc =? 1); lia.
Qed.

Section GeneratorFuel.

Variable MAX_MOVES_POOL : Z.
Variable grid : Board.
Variables p px py : Z.

Lemma shot_loop_fuel (nx ny dr dc : Z) :
  -1 <= dr <= 1 -> -1 <= dc <= 1 -> dr <> 0 \/ dc <> 0 ->
  forall (f1 f2 : nat) (ax ay : Z) (pool : list Move),
    ray_room dr dc ax ay < Z.of_nat f1 -> ray_room dr dc ax ay < Z.of_nat f2 ->
    shot_loop MAX_MOVES_POOL f1 grid p px py nx ny dr dc ax ay pool
    = shot_loop MAX_MOVES_POOL f2 grid p px py nx ny dr dc ax ay pool.
Proof.
  intros Hr Hc Hnz.
  assert (Hstop : forall f ax ay pool,
            ray_room dr dc ax ay < 0 ->
            shot_loop MAX_MOVES_POOL f grid p px py nx ny dr dc ax ay pool = pool).
  { intros [|f] ax ay pool Hroom; [reflexivity|]. cbn [shot_loop].
    destruct (on_board (ax + dr) (ay + dc)) eqn:Hon; [|reflexivity].
    destruct (ray_step dr dc ax ay Hr Hc Hnz Hon). lia. }
  induction f1 as [|f1 IH]; intros f2 ax ay pool H1 H2.
  - rewrite (Hstop f2) by lia. reflexivity.
  - destruct f2 as [|f2]; [rewrite (Hstop (S f1)) by lia; reflexivity|].
    cbn [shot_loop].
    destruct (on_board (ax + dr) (ay + dc)) eqn:Hon; [|reflexivity]. cbn [negb].
    destruct (ray_step dr dc ax ay Hr Hc Hnz Hon) as [_ Hroom].
    destruct (negb (grid_at grid ((ax + dr) * 8 + (ay + dc)) =? EMPTY)
              && negb ((ax + dr) * 8 + (ay + dc) =? p)); [reflexivity|].
    destruct (pool_ptr pool <? MAX_MOVES_POOL); [|reflexivity].
    apply IH; lia.
Qed.

Lemma slide_loop_fuel (dr dc : Z) :
  -1 <= dr <= 1 -> -1 <= dc <= 1 -> dr <> 0 \/ dc <> 0 ->
  forall (f1 f2 : nat) (nx ny : Z) (pool : list Move),
    ray_room dr dc nx ny < Z.of_nat f1 -> ray_room dr dc nx ny < Z.of_nat f2 ->
    slide_loop MAX_MOVES_POOL f1 grid p px py dr dc nx ny pool
    = slide_loop MAX_MOVES_POOL f2 grid p px py dr dc nx ny pool.
Proof.
  intros Hr Hc Hnz.
  assert (Hstop : forall f nx ny pool,
            ray_room dr dc nx ny < 0 ->
            slide_loop MAX_MOVES_POOL f grid p px py dr dc nx ny pool = pool).
  { intros [|f] nx ny pool Hroom; [reflexivity|]. cbn [slide_loop].
    destruct (on_board (nx + dr) (ny + dc)) eqn:Hon; [|reflexivity].
    destruct (ray_step dr dc nx ny Hr Hc Hnz Hon). lia. }
  induction f1 as [|f1 IH]; intros f2 nx ny pool H1 H2.
  - rewrite (Hstop f2) by lia. reflexivity.
  - destruct f2 as [|f2]; [rewrite (Hstop (S f1)) by lia; reflexivity|].
    cbn [slide_loop].
    destruct (on_board (nx + dr) (ny + dc)) eqn:Hon; [|reflexivity]. cbn [negb].
    destruct (ray_step dr dc nx ny Hr Hc Hnz Hon) as [_ Hroom].
    destruct (negb (grid_at grid ((nx + dr) * 8 + (ny + dc)) =? EMPTY)); [reflexivity|].
    apply IH; lia.
Qed.

End GeneratorFuel.

(** X: in [get_legal_moves] the loop that slides the piece and the loop
    that shoots the arrow, entered on a cell of the board along one of the
    eight directions, stop within eight turns: run on any more fuel than
    the eight the generator gives them they write the same moves. *)
Theorem generator_rays_end (MAX_MOVES_POOL : Z) (grid : Board) (p px py nx ny : Z)
    (d : Z * Z) (extra : nat) (pool : list Move) :
  In d DIRECTIONS -> on_board nx ny = true ->
  shot_loop MAX_MOVES_POOL (8 + extra) grid p px py nx ny (fst d) (snd d) nx ny pool
  = shot_loop MAX_MOVES_POOL 8 grid p px py nx ny (fst d) (snd d) nx ny pool /\
  slide_loop MAX_MOVES_POOL (8 + extra) grid p px py (fst d) (snd d) nx ny pool
  = slide_loop MAX_MOVES_POOL 8 grid p px py (fst d) (snd d) nx ny pool.
Proof.
  intros Hd Hon. destruct (DIRECTIONS_step d Hd) as (Hr & Hc & Hnz).
  pose proof (ray_room_on_board (fst d) (snd d) nx ny Hon) as Hroom.
  split.
  - apply shot_loop_fuel; try assumption; lia.
  - apply slide_loop_fuel; try assumption; lia.
Qed.

Lemma generator_rays_end_witness :
  In (1, -1) DIRECTIONS /\ on_board 3 4 = true /\
  shot_loop 100 (8 + 5) new_Board 2 0 2 3 4 1 (-1) 3 4 []
  = shot_loop 100 8 new_Board 2 0 2 3 4 1 (-1) 3 4 [] /\
  slide_loop 100 (8 + 5) new_Board 2 0 2 1 (-1) 3 4 []
  = slide_loop 100 8 new_Board 2 0 2 1 (-1) 3 4 [].
Proof.
  assert (Hd : In (1, -1) DIRECTIONS) by (unfold DIRECTIONS; cbn [In]; tauto).
  split; [exact Hd|]. split; [reflexivity|].
  exact (generator_rays_end 100 new_Board 2 0 2 3 4 (1, -1) 5 [] Hd eq_refl).
Defined.

(** The ray of [calc_mobility]. *)
Lemma mob_ray_fuel (grid : Board) (dr dc : Z) :
  -1 <= dr <= 1 -> -1 <= dc <= 1 -> dr <> 0 \/ dc <> 0 ->
  forall (f1 f2 : nat) (nx ny mob : Z),
    (on_board nx ny = true -> ray_room dr dc nx ny < Z.of_nat f1) ->
    (on_board nx ny = true -> ray_room dr dc nx ny < Z.of_nat f2) ->
    mob_ray f1 grid dr dc nx ny mob = mob_ray f2 grid dr dc nx ny mob.
Proof.
  intros Hr Hc Hnz.
  assert (Hstop : forall f nx ny mob,
            on_board nx ny = false -> mob_ray f grid dr dc nx ny mob = mob).
  { intros [|f] nx ny mob Hoff; [reflexivity|]. cbn [mob_ray]. rewrite Hoff. reflexivity. }
  induction f1 as [|f1 IH]; intros f2 nx ny mob H1 H2.
  - destruct (on_board nx ny) eqn:Hon.
    + specialize (H1 eq_refl). pose proof (ray_room_on_board dr dc nx ny Hon). lia.
    + rewrite (Hstop f2) by exact Hon. reflexivity.
  - destruct f2 as [|f2].
    + destruct (on_board nx ny) eqn:Hon.
      * specialize (H2 eq_refl). pose proof (ray_room_on_board dr dc nx ny Hon). lia.
      * rewrite (Hstop (S f1)) by exact Hon. reflexivity.
    + cbn [mob_ray]. destruct (on_board nx ny) eqn:Hon; [|reflexivity].
      destruct (negb (grid_at grid (nx * 8 + ny) =? EMPTY)); [reflexivity|].
      apply IH; intros Hon'; destruct (ray_step dr dc nx ny Hr Hc Hnz Hon') as [_ Hroom];
        [specialize (H1 eq_refl)|specialize (H2 eq_refl)]; lia.
Qed.

(** X: the ray loop of [calc_mobility], entered one step away from a piece
    on the board, stops within eight turns. *)
Theorem mobility_ray_ends (grid : Board) (p : Z) (d : Z * Z) (extra : nat) (mob : Z) :
  In d DIRECTIONS -> 0 <= p < NUM_SQUARES ->
  mob_ray (8 + extra) grid (fst d) (snd d) (p / 8 + fst d) (p mod 8 + snd d) mob
  = mob_ray 8 grid (fst d) (snd d) (p / 8 + fst d) (p mod 8 + snd d) mob.
Proof.
  intros Hd Hp. destruct (DIRECTIONS_step d Hd) as (Hr & Hc & Hnz).
  assert (Hon : on_board (p / 8) (p mod 8) = true).
  { apply on_board_spec. unfold NUM_SQUARES in Hp.
    pose proof (Z.mod_pos_bound p 8 ltac:(lia)).
    assert (0 <= p / 8) by (apply Z.div_pos; lia).
    assert (p / 8 < 8) by (apply Z.div_lt_upper_bound; lia). lia. }
  pose proof (ray_room_on_board (fst d) (snd d) _ _ Hon) as Hroom.
  apply mob_ray_fuel; try assumption;
    intros Hon'; destruct (ray_step _ _ _ _ Hr Hc Hnz Hon'); lia.
Qed.

Lemma mobility_ray_ends_witness :
  In (0, 1) DIRECTIONS /\ 0 <= 16 < NUM_SQUARES /\
  mob_ray (8 + 3) new_Board 0 1 (16 / 8 + 0) (16 mod 8 + 1) 0
  = mob_ray 8 new_Board 0 1 (16 / 8 + 0) (16 mod 8 + 1) 0.
Proof.
  assert (Hd : In (0, 1) DIRECTIONS) by (unfold DIRECTIONS; cbn [In]; tauto).
  assert (Hp : 0 <= 16 < NUM_SQUARES) by (unfold NUM_SQUARES; lia).
  split; [exact Hd|]. split; [exact Hp|].
  exact (mobility_ray_ends new_Board 16 (0, 1) 3 0 Hd Hp).
Defined.

(** ** The breadth-first loop of [run_bfs] *)

Lemma sumZ_nonneg (l : list Z) : Forall (fun v => 0 <= v) l -> 0 <= sumZ l.
Proof.
  induction 1 as [|v l Hv _ IH]; cbn [sumZ fold_right]; [lia|].
  unfold sumZ in IH. lia.
Qed.

Lemma sumZ_bound (b : Z) (l : list Z) :
  Forall (fun v => 0 <= v <= b) l -> sumZ l <= b * Z.of_nat (length l).
Proof.
  induction 1 as [|v l Hv _ IH]; cbn [sumZ fold_right length]; [lia|].
  unfold sumZ in IH. lia.
Qed.

Lemma sumZ_insert (l : list Z) (n : nat) (old d : Z) :
  l !! n = Some old -> sumZ (<[n := d]> l) = sumZ l - old + d.
Proof.
  unfold sumZ. revert n. induction l as [|v l IH]; intros [|n] Hn; try discriminate Hn.
  - simpl in Hn. injection Hn as ->. simpl. lia.
  - simpl in Hn. specialize (IH n Hn). simpl in *. lia.
Qed.

Lemma grid_at_nonneg (dist : list Z) (i : Z) :
  Forall (fun v => 0 <= v) dist -> 0 <= grid_at dist i.
Proof.
  intros H. unfold grid_at. destruct (i <? 0); [lia|].
  destruct (dist !! Z.to_nat i) as [v|] eqn:Hv; cbn [default]; [|lia].
  rewrite Forall_forall in H. apply H. eapply list_elem_of_lookup_2. exact Hv.
Qed.

(** One relaxation keeps the distances non-negative and does not raise the
    measure. *)
Lemma bfs_relax_measure (grid : Board) (d cx cy : Z) (st : list Z * list Z) (dir : Z * Z)
    (M : Z) :
  1 <= d ->
  Forall (fun v => 0 <= v) (fst st) /\ bfs_measure (fst st) (snd st) <= M ->
  Forall (fun v => 0 <= v) (fst (bfs_relax grid d cx cy st dir)) /\
  bfs_measure (fst (bfs_relax grid d cx cy st dir)) (snd (bfs_relax grid d cx cy st dir)) <= M.
Proof.
  intros Hd [Hpos HM]. unfold bfs_relax.
  destruct (on_board (cx + fst dir) (cy + snd dir)) eqn:Hon; [|split; assumption].
  destruct (grid_at grid ((cx + fst dir) * 8 + (cy + snd dir)) =? EMPTY);
    [|split; assumption].
  cbn [andb].
  destruct (Z.ltb_spec d (grid_at (fst st) ((cx + fst dir) * 8 + (cy + snd dir))))
    as [Hlt|_]; [|split; assumption].
  apply on_board_spec in Hon. cbn [fst snd].
  unfold grid_at in Hlt. unfold grid_set.
  destruct (Z.ltb_spec ((cx + fst dir) * 8 + (cy + snd dir)) 0) as [Hneg|_]; [lia|].
  destruct (fst st !! Z.to_nat ((cx + fst dir) * 8 + (cy + snd dir))) as [old|] eqn:Hold;
    cbn [default] in Hlt; [|lia].
  unfold id in Hlt. split.
  - apply Forall_insert; [exact Hpos|lia].
  - unfold bfs_measure in *. rewrite (sumZ_insert _ _ old d Hold), length_app.
    cbn [length]. lia.
Qed.

Lemma bfs_loop_fuel (grid : Board) :
  forall (f1 f2 : nat) (dist : list Z) (queue : list Z),
    Forall (fun v => 0 <= v) dist ->
    bfs_measure dist queue < Z.of_nat f1 -> bfs_measure dist queue < Z.of_nat f2 ->
    bfs_loop f1 grid dist queue = bfs_loop f2 grid dist queue.
Proof.
  induction f1 as [|f1 IH]; intros f2 dist queue Hpos H1 H2.
  - pose proof (sumZ_nonneg dist Hpos). unfold bfs_measure in H1. lia.
  - destruct f2 as [|f2].
    + pose proof (sumZ_nonneg dist Hpos). unfold bfs_measure in H2. lia.
    + cbn [bfs_loop]. destruct queue as [|curr rest]; [reflexivity|].
      assert (Hd : 1 <= grid_at dist curr + 1)
        by (pose proof (grid_at_nonneg dist curr Hpos); lia).
      assert (Hfold :
        Forall (fun v => 0 <= v)
          (fst (fold_left (bfs_relax grid (grid_at dist curr + 1) (curr / 8) (curr mod 8))
                  DIRECTIONS (dist, rest))) /\
        bfs_measure
          (fst (fold_left (bfs_relax grid (grid_at dist curr + 1) (curr / 8) (curr mod 8))
                  DIRECTIONS (dist, rest)))
          (snd (fold_left (bfs_relax grid (grid_at dist curr + 1) (curr / 8) (curr mod 8))
                  DIRECTIONS (dist, rest)))
        <= bfs_measure dist rest).
      { apply (fold_left_preserves
                 (fun st => Forall (fun v => 0 <= v) (fst st) /\
                            bfs_measure (fst st) (snd st) <= bfs_measure dist rest)).
        - intros st dir Hst. apply bfs_relax_measure; assumption.
        - cbn [fst snd]. split; [exact Hpos|lia]. }
      destruct Hfold as [Hpos' HM'].
      assert (Hrest : bfs_measure dist (curr :: rest) = bfs_measure dist rest + 1)
        by (unfold bfs_measure; cbn [length]; lia).
      apply IH; [exact Hpos'|lia|lia].
Qed.

(** The distances [run_bfs] starts from: 0 on the sources, 99 elsewhere. *)
Lemma bfs_start_bounds (cells : list Z) :
  forall dist, Forall (fun v => 0 <= v <= 99) dist ->
    Forall (fun v => 0 <= v <= 99) (fold_left (fun dist s => grid_set dist s 0) cells dist) /\
    length (fold_left (fun dist s => grid_set dist s 0) cells dist) = length dist.
Proof.
  induction cells as [|s cells IH]; intros dist Hd; cbn [fold_left]; [split; [exact Hd|reflexivity]|].
  assert (Hs : Forall (fun v => 0 <= v <= 99) (grid_set dist s 0)).
  { unfold grid_set. destruct (s <? 0); [exact Hd|]. apply Forall_insert; [exact Hd|lia]. }
  destruct (IH _ Hs) as [H1 H2]. split; [exact H1|].
  rewrite H2. apply length_grid_set.
Qed.

Lemma bfs_fuel_value : Z.of_nat bfs_fuel = 12677.
Proof. vm_compute. reflexivity. Qed.

(** X: the loop of [run_bfs] ends with its queue empty before the fuel of
    the embedding is used up, whatever the board and the sources: every
    turn pops a cell and every push lowers a distance, which start from 99
    at most on 64 cells. With more fuel the distances are the same. *)
Theorem run_bfs_ends (grid : Board) (sources : list Z) (extra : nat) :
  bfs_loop (bfs_fuel + extra) grid
    (fold_left (fun dist s => grid_set dist s 0) (four sources) (replicate 64 99))
    (four sources)
  = run_bfs grid sources.
Proof.
  unfold run_bfs.
  assert (H99 : Forall (fun v => 0 <= v <= 99) (replicate 64 99)).
  { apply Forall_replicate. lia. }
  destruct (bfs_start_bounds (four sources) (replicate 64 99) H99) as [Hb Hlen].
  revert Hb Hlen.
  generalize (fold_left (fun dist s => grid_set dist s 0) (four sources) (replicate 64 99)).
  intros dist Hb Hlen. rewrite length_replicate in Hlen.
  assert (Hq : (length (four sources) <= 4)%nat).
  { unfold four. rewrite length_take. lia. }
  pose proof (sumZ_bound 99 dist Hb) as Hsum. rewrite Hlen in Hsum.
  assert (HM : bfs_measure dist (four sources) < 12677) by (unfold bfs_measure; lia).
  assert (Hpos : Forall (fun v => 0 <= v) dist).
  { eapply Forall_impl; [exact Hb|]. intros v Hv. cbn beta in Hv. lia. }
  apply bfs_loop_fuel; [exact Hpos| |].
  - rewrite Nat2Z.inj_add, bfs_fuel_value. lia.
  - rewrite bfs_fuel_value. lia.
Qed.

(** * The evaluator *)

Lemma fast_sigmoid_inside (x : Q) : (0 < fast_sigmoid x < 1)%Q.
Proof.
  unfold fast_sigmoid.
  assert (Ha : (0 <= Qabs x)%Q) by apply Qabs_nonneg.
  assert (Hx : (x <= Qabs x)%Q) by apply Qle_Qabs.
  assert (Hx' : (- x <= Qabs x)%Q) by (rewrite <- (Qabs_opp x); apply Qle_Qabs).
  assert (Hd : (0 < 1 + Qabs x)%Q) by lra.
  assert (Hlo : (- (1) < x / (1 + Qabs x))%Q) by (apply Qlt_shift_div_l; [exact Hd|lra]).
  assert (Hhi : (x / (1 + Qabs x) < 1)%Q) by (apply Qlt_shift_div_r; [exact Hd|lra]).
  lra.
Qed.



(** X: [evaluate] never returns 0 or 1, the two scores the search keeps for
    lost and won terminal positions: its result lies strictly between. *)
Theorem evaluate_strictly_inside (grid : Board) (root_player turn : Z) :
  (0 < evaluate grid root_player turn < 1)%Q.
Proof. unfold evaluate. apply fast_sigmoid_inside. Qed.





(** * The move generator and the board *)

(** X: [get_legal_moves] only appends to the move pool: it returns the old
    pointer as start index and the number of moves appended as count, the
    cells below the old pointer keep their moves, a pointer within the
    capacity stays within it, and every move appended has its three cells
    on the board, a piece of the mover on the source, an empty destination
    and a shot cell that is empty or the source. *)
Theorem get_legal_moves_appends (MAX_MOVES_POOL : Z) (grid : Board) (color : Z)
    (pool : list Move) :
  fst (fst (get_legal_moves MAX_MOVES_POOL grid color pool)) = pool_ptr pool /\
  snd (get_legal_moves MAX_MOVES_POOL grid color pool)
  = pool ++ returned_moves (get_legal_moves MAX_MOVES_POOL grid color pool) /\
  snd (fst (get_legal_moves MAX_MOVES_POOL grid color pool))
  = Z.of_nat (length (returned_moves (get_legal_moves MAX_MOVES_POOL grid color pool))) /\
  (pool_ptr pool <= MAX_MOVES_POOL ->
   pool_ptr (snd (get_legal_moves MAX_MOVES_POOL grid color pool)) <= MAX_MOVES_POOL) /\
  Forall (gen_ok grid color)
    (returned_moves (get_legal_moves MAX_MOVES_POOL grid color pool)).
Proof.
  destruct (get_legal_moves_shape MAX_MOVES_POOL grid color pool) as (Hs & Hc & Hp & Hok).
  split; [exact Hs|]. split; [exact Hp|]. split; [exact Hc|]. split; [|exact Hok].
  apply get_legal_moves_cap.
Qed.

(** X: called on a full move pool, [get_legal_moves] writes nothing: the
    pool is left as it was and the count returned is 0, whatever the board
    holds (the caller then sees a node without moves). *)
Theorem get_legal_moves_full_pool (MAX_MOVES_POOL : Z) (grid : Board) (color : Z)
    (pool : list Move) :
  MAX_MOVES_POOL <= pool_ptr pool ->
  get_legal_moves MAX_MOVES_POOL grid color pool = (pool_ptr pool, 0, pool) /\
  returned_moves (get_legal_moves MAX_MOVES_POOL grid color pool) = [].
Proof.
  intros Hfull. rewrite (get_legal_moves_full MAX_MOVES_POOL grid color pool Hfull).
  split; [reflexivity|]. unfold returned_moves. cbn [fst snd]. apply take_0.
Qed.

Lemma get_legal_moves_full_pool_witness :
  2 <= pool_ptr [NO_MOVE; NO_MOVE] /\
  get_legal_moves 2 new_Board BLACK [NO_MOVE; NO_MOVE]
  = (pool_ptr [NO_MOVE; NO_MOVE], 0, [NO_MOVE; NO_MOVE]) /\
  returned_moves (get_legal_moves 2 new_Board BLACK [NO_MOVE; NO_MOVE]) = [].
Proof.
  assert (H : 2 <= pool_ptr [NO_MOVE; NO_MOVE]) by (unfold pool_ptr; cbn [length]; lia).
  split; [exact H|].
  exact (get_legal_moves_full_pool 2 new_Board BLACK [NO_MOVE; NO_MOVE] H).
Defined.

(** X: [apply_move] writes three cells at most: the board keeps its size
    and every cell other than the source, the destination and the shot cell
    keeps its content, whatever the move (generated or not). *)
Theorem apply_move_three_cells (grid : Board) (m : Move) (i : Z) :
  length (apply_move grid m) = length grid /\
  (i <> x0 m * 8 + y0 m -> i <> x1 m * 8 + y1 m -> i <> x2 m * 8 + y2 m ->
   grid_at (apply_move grid m) i = grid_at grid i).
Proof.
  split; [apply length_apply_move|]. intros H0 H1 H2.
  apply apply_move_frame; assumption.
Qed.

(** * The generator writes the moves of the game, and all of them *)

Lemma clear_path_step (free : Z -> Prop) (x y : Z) (d : Z * Z) (k : Z) :
  0 <= k -> clear_path free x y d k ->
  on_board (x + (k + 1) * fst d) (y + (k + 1) * snd d) = true ->
  free ((x + (k + 1) * fst d) * 8 + (y + (k + 1) * snd d)) ->
  clear_path free x y d (k + 1).
Proof.
  intros Hk Hpath Hon Hfree j Hj.
  destruct (Z.eq_dec j (k + 1)) as [->|Hne]; [split; assumption|].
  apply Hpath. lia.
Qed.

Lemma clear_path_0 (free : Z -> Prop) (x y : Z) (d : Z * Z) : clear_path free x y d 0.
Proof. intros j Hj. lia. Qed.

Section GeneratorSound.

Variable MAX_MOVES_POOL : Z.
Variable grid : Board.
Variable color : Z.

Lemma shot_loop_legal fuel p px py nx ny (d ad : Z * Z) (kd : Z) :
  on_board px py = true -> p = px * 8 + py -> grid_at grid p = color ->
  In d DIRECTIONS -> 1 <= kd -> nx = px + kd * fst d -> ny = py + kd * snd d ->
  clear_path (fun i => grid_at grid i = EMPTY) px py d kd ->
  In ad DIRECTIONS ->
  forall k ax ay pool,
    0 <= k -> ax = nx + k * fst ad -> ay = ny + k * snd ad ->
    clear_path (fun i => grid_at grid i = EMPTY \/ i = p) nx ny ad k ->
    extends (legal_move grid color) pool
      (shot_loop MAX_MOVES_POOL fuel grid p px py nx ny (fst ad) (snd ad) ax ay pool).
Proof.
  intros Hp -> Hsrc Hd Hkd Hnx Hny Hslide Had.
  pose proof Hp as Hp'. apply on_board_spec in Hp'.
  assert (Hn : 0 <= nx < 8 /\ 0 <= ny < 8).
  { destruct (Hslide kd ltac:(lia)) as [Hon _]. apply on_board_spec in Hon. lia. }
  induction fuel as [|fuel IH]; intros k ax ay pool Hk Hax Hay Hpath; cbn [shot_loop].
  - apply extends_refl.
  - destruct (on_board (ax + fst ad) (ay + snd ad)) eqn:Hon; cbn [negb];
      [|apply extends_refl].
    destruct (negb (grid_at grid ((ax + fst ad) * 8 + (ay + snd ad)) =? EMPTY)
              && negb ((ax + fst ad) * 8 + (ay + snd ad) =? px * 8 + py)) eqn:Hblk;
      [apply extends_refl|].
    destruct (pool_ptr pool <? MAX_MOVES_POOL); [|apply extends_refl].
    assert (Hax' : ax + fst ad = nx + (k + 1) * fst ad) by lia.
    assert (Hay' : ay + snd ad = ny + (k + 1) * snd ad) by lia.
    assert (Hpath' : clear_path (fun i => grid_at grid i = EMPTY \/ i = px * 8 + py)
                       nx ny ad (k + 1)).
    { apply clear_path_step; [exact Hk|exact Hpath| |].
      - rewrite <- Hax', <- Hay'. exact Hon.
      - rewrite <- Hax', <- Hay'.
        apply andb_false_iff in Hblk. destruct Hblk as [H|H].
        + left. apply negb_false_iff, Z.eqb_eq in H. exact H.
        + right. apply negb_false_iff, Z.eqb_eq in H. exact H. }
    eapply extends_trans; [apply extends_snoc|apply (IH (k + 1)); [lia|lia|lia|exact Hpath']].
    pose proof Hon as Hon'. apply on_board_spec in Hon'.
    unfold legal_move, Move_. cbn [x0 y0 x1 y1 x2 y2].
    rewrite !int8_small by lia.
    split; [exact Hp|]. split; [exact Hsrc|]. split.
    + exists d, kd. split; [exact Hd|]. split; [exact Hkd|]. split; [exact Hnx|].
      split; [exact Hny|exact Hslide].
    + exists ad, (k + 1). split; [exact Had|]. split; [lia|]. split; [lia|].
      split; [lia|exact Hpath'].
Qed.

Lemma shot_phase_legal p px py nx ny (d : Z * Z) (kd : Z) pool :
  on_board px py = true -> p = px * 8 + py -> grid_at grid p = color ->
  In d DIRECTIONS -> 1 <= kd -> nx = px + kd * fst d -> ny = py + kd * snd d ->
  clear_path (fun i => grid_at grid i = EMPTY) px py d kd ->
  extends (legal_move grid color) pool (shot_phase MAX_MOVES_POOL grid p px py nx ny pool).
Proof.
  intros Hp Hpe Hsrc Hd Hkd Hnx Hny Hslide. unfold shot_phase.
  apply fold_left_extends. intros ad q Had.
  apply (shot_loop_legal 8 p px py nx ny d ad kd Hp Hpe Hsrc Hd Hkd Hnx Hny Hslide Had 0);
    [lia|lia|lia|apply clear_path_0].
Qed.

Lemma slide_loop_legal fuel p px py (d : Z * Z) :
  on_board px py = true -> p = px * 8 + py -> grid_at grid p = color ->
  In d DIRECTIONS ->
  forall k nx ny pool,
    0 <= k -> nx = px + k * fst d -> ny = py + k * snd d ->
    clear_path (fun i => grid_at grid i = EMPTY) px py d k ->
    extends (legal_move grid color) pool
      (slide_loop MAX_MOVES_POOL fuel grid p px py (fst d) (snd d) nx ny pool).
Proof.
  intros Hp Hpe Hsrc Hd.
  induction fuel as [|fuel IH]; intros k nx ny pool Hk Hnx Hny Hpath; cbn [slide_loop].
  - apply extends_refl.
  - destruct (on_board (nx + fst d) (ny + snd d)) eqn:Hon; cbn [negb];
      [|apply extends_refl].
    destruct (Z.eqb_spec (grid_at grid ((nx + fst d) * 8 + (ny + snd d))) EMPTY) as [He|He];
      cbn [negb]; [|apply extends_refl].
    assert (Hnx' : nx + fst d = px + (k + 1) * fst d) by lia.
    assert (Hny' : ny + snd d = py + (k + 1) * snd d) by lia.
    assert (Hpath' : clear_path (fun i => grid_at grid i = EMPTY) px py d (k + 1)).
    { apply clear_path_step; [exact Hk|exact Hpath| |];
        rewrite <- Hnx', <- Hny'; assumption. }
    eapply extends_trans; [|apply (IH (k + 1)); [lia|lia|lia|exact Hpath']].
    apply (shot_phase_legal p px py _ _ d (k + 1)); try assumption; lia.
Qed.

Lemma piece_moves_legal pool p :
  0 <= p < 64 ->
  extends (legal_move grid color) pool (piece_moves MAX_MOVES_POOL grid color pool p).
Proof.
  intros Hp. unfold piece_moves.
  destruct (Z.eqb_spec (grid_at grid p) color) as [He|He]; cbn [negb];
    [|apply extends_refl].
  apply fold_left_extends. intros d q Hd.
  apply (slide_loop_legal 8 p (p / 8) (p mod 8) d) with (k := 0);
    [| |exact He|exact Hd|lia|lia|lia|apply clear_path_0].
  - apply on_board_spec.
    pose proof (Z.div_pos p 8). pose proof (Z.mod_pos_bound p 8).
    assert (p / 8 < 8) by (apply Z.div_lt_upper_bound; lia). lia.
  - pose proof (Z.div_mod p 8). lia.
Qed.

Lemma get_legal_moves_legal pool :
  Forall (legal_move grid color)
    (returned_moves (get_legal_moves MAX_MOVES_POOL grid color pool)).
Proof.
  assert (Hext : extends (legal_move grid color) pool
                   (snd (get_legal_moves MAX_MOVES_POOL grid color pool))).
  { rewrite get_legal_moves_unfold. cbn [snd].
    apply fold_left_extends. intros p q Hp. apply piece_moves_legal.
    apply list_elem_of_In, elem_of_seqZ in Hp. unfold NUM_SQUARES in Hp. lia. }
  destruct Hext as (l & Hl & HP).
  destruct (get_legal_moves_shape MAX_MOVES_POOL grid color pool) as (_ & _ & Hpool & _).
  rewrite Hl in Hpool. apply app_inv_head in Hpool. rewrite <- Hpool. exact HP.
Qed.

End GeneratorSound.

(** ** Every move of the game is written, while the pool has room *)

Lemma prefix_In {A} (a b : list A) (m : A) : a `prefix_of` b -> In m a -> In m b.
Proof. intros [k ->] H. apply in_or_app. left. exact H. Qed.

Lemma prefix_pool_ptr {A} (a b : list A) : a `prefix_of` b -> pool_ptr a <= pool_ptr b.
Proof. intros H. apply prefix_length in H. unfold pool_ptr. lia. Qed.

Lemma fold_left_prefix {A B} (f : list A -> B -> list A) (l : list B) :
  (forall a x, a `prefix_of` f a x) -> forall a, a `prefix_of` fold_left f l a.
Proof.
  intros Hf. induction l as [|x l IH]; intros a; cbn [fold_left]; [reflexivity|].
  etransitivity; [apply Hf|apply IH].
Qed.

Lemma shot_loop_prefix M fuel grid p px py nx ny dr dc :
  forall ax ay pool, pool `prefix_of` shot_loop M fuel grid p px py nx ny dr dc ax ay pool.
Proof.
  induction fuel as [|fuel IH]; intros ax ay pool; cbn [shot_loop]; [reflexivity|].
  destruct (negb (on_board (ax + dr) (ay + dc))); [reflexivity|].
  destruct (negb (grid_at grid ((ax + dr) * 8 + (ay + dc)) =? EMPTY)
            && negb ((ax + dr) * 8 + (ay + dc) =? p)); [reflexivity|].
  destruct (pool_ptr pool <? M); [|reflexivity].
  etransitivity; [apply prefix_app_r; reflexivity|apply IH].
Qed.

Lemma shot_phase_prefix M grid p px py nx ny pool :
  pool `prefix_of` shot_phase M grid p px py nx ny pool.
Proof.
  unfold shot_phase. apply fold_left_prefix. intros a ad. apply shot_loop_prefix.
Qed.

Lemma slide_loop_prefix M fuel grid p px py dr dc :
  forall nx ny pool, pool `prefix_of` slide_loop M fuel grid p px py dr dc nx ny pool.
Proof.
  induction fuel as [|fuel IH]; intros nx ny pool; cbn [slide_loop]; [reflexivity|].
  destruct (negb (on_board (nx + dr) (ny + dc))); [reflexivity|].
  destruct (negb (grid_at grid ((nx + dr) * 8 + (ny + dc)) =? EMPTY)); [reflexivity|].
  etransitivity; [apply shot_phase_prefix|apply IH].
Qed.

Lemma piece_moves_prefix M grid color pool p :
  pool `prefix_of` piece_moves M grid color pool p.
Proof.
  unfold piece_moves. destruct (negb (grid_at grid p =? color)); [reflexivity|].
  apply fold_left_prefix. intros a d. apply slide_loop_prefix.
Qed.

Lemma appends_prefix_r (m : Move) (a b c : list Move) :
  appends m a b -> b `prefix_of` c -> appends m a c.
Proof.
  intros (l & -> & Hin) [k ->]. exists (l ++ k). split; [symmetry; apply app_assoc|].
  apply in_or_app. left. exact Hin.
Qed.

Lemma appends_prefix_l (m : Move) (a' a b : list Move) :
  a' `prefix_of` a -> appends m a b -> appends m a' b.
Proof.
  intros [k ->] (l & -> & Hin). exists (k ++ l). split; [symmetry; apply app_assoc|].
  apply in_or_app. right. exact Hin.
Qed.

Lemma appends_snoc (m : Move) (a : list Move) : appends m a (a ++ [m]).
Proof. exists [m]. split; [reflexivity|left; reflexivity]. Qed.

(** In a fold of steps that only append, what one step writes when the
    pool has room at its end is written by the fold when the pool has room
    at the end of the fold. *)
Lemma fold_left_reach {B} (M : Z) (f : list Move -> B -> list Move) (m : Move) (x : B)
    (l : list B) :
  (forall a y, a `prefix_of` f a y) -> In x l ->
  (forall a, pool_ptr (f a x) < M -> appends m a (f a x)) ->
  forall a0, pool_ptr (fold_left f l a0) < M -> appends m a0 (fold_left f l a0).
Proof.
  intros Hpre Hx Hstep. induction l as [|y l IH]; intros a0 Hroom; [destruct Hx|].
  cbn [fold_left] in *. destruct Hx as [->|Hx].
  - pose proof (fold_left_prefix f l Hpre (f a0 x)) as Hp.
    apply (appends_prefix_r m a0 (f a0 x)); [|exact Hp]. apply Hstep.
    pose proof (prefix_pool_ptr _ _ Hp). lia.
  - apply (appends_prefix_l m a0 (f a0 y)); [apply Hpre|]. apply IH; assumption.
Qed.

Lemma ray_length (d : Z * Z) (x y k : Z) :
  In d DIRECTIONS -> 0 <= k -> on_board x y = true ->
  on_board (x + k * fst d) (y + k * snd d) = true -> k <= 7.
Proof.
  intros Hd Hk H0 H1. destruct (DIRECTIONS_step d Hd) as (Hr & Hc & Hnz).
  apply on_board_spec in H0. apply on_board_spec in H1.
  assert (Hr' : fst d = -1 \/ fst d = 0 \/ fst d = 1) by lia.
  assert (Hc' : snd d = -1 \/ snd d = 0 \/ snd d = 1) by lia.
  destruct Hr' as [Er|[Er|Er]], Hc' as [Ec|[Ec|Ec]]; rewrite Er, Ec in *; lia.
Qed.

Section GeneratorComplete.

Variable MAX_MOVES_POOL : Z.
Variable grid : Board.
Variable color : Z.

Lemma shot_loop_reach p px py nx ny (ad : Z * Z) (K : Z) :
  on_board px py = true -> p = px * 8 + py -> on_board nx ny = true ->
  clear_path (fun i => grid_at grid i = EMPTY \/ i = p) nx ny ad K ->
  forall (fuel : nat) k ax ay pool,
    0 <= k < K -> ax = nx + k * fst ad -> ay = ny + k * snd ad ->
    K - k <= Z.of_nat fuel ->
    pool_ptr (shot_loop MAX_MOVES_POOL fuel grid p px py nx ny (fst ad) (snd ad) ax ay pool)
    < MAX_MOVES_POOL ->
    appends (mkMove px py nx ny (nx + K * fst ad) (ny + K * snd ad)) pool
      (shot_loop MAX_MOVES_POOL fuel grid p px py nx ny (fst ad) (snd ad) ax ay pool).
Proof.
  intros Hp -> Hn Hpath. apply on_board_spec in Hp. apply on_board_spec in Hn.
  induction fuel as [|fuel IH]; intros k ax ay pool Hk Hax Hay Hfuel; [lia|].
  cbn [shot_loop].
  destruct (Hpath (k + 1) ltac:(lia)) as [Hon Hfree].
  replace (nx + (k + 1) * fst ad) with (ax + fst ad) in Hon, Hfree by lia.
  replace (ny + (k + 1) * snd ad) with (ay + snd ad) in Hon, Hfree by lia.
  rewrite Hon. cbn [negb].
  assert (Hblk : negb (grid_at grid ((ax + fst ad) * 8 + (ay + snd ad)) =? EMPTY)
                 && negb ((ax + fst ad) * 8 + (ay + snd ad) =? px * 8 + py) = false).
  { apply andb_false_iff. destruct Hfree as [He|He]; [left|right];
      apply negb_false_iff, Z.eqb_eq; exact He. }
  rewrite Hblk.
  destruct (Z.ltb_spec (pool_ptr pool) MAX_MOVES_POOL) as [Hroom|Hfull]; [|lia].
  intros Hres. apply on_board_spec in Hon.
  destruct (Z.eq_dec (k + 1) K) as [HK|HK].
  - eapply appends_prefix_r; [|apply shot_loop_prefix].
    replace (Move_ px py nx ny (ax + fst ad) (ay + snd ad))
      with (mkMove px py nx ny (nx + K * fst ad) (ny + K * snd ad));
      [apply appends_snoc|].
    unfold Move_. rewrite !int8_small by lia. f_equal; lia.
  - eapply appends_prefix_l; [|apply (IH (k + 1)); [lia|lia|lia|lia|exact Hres]].
    apply prefix_app_r. reflexivity.
Qed.

Lemma shot_phase_reach p px py nx ny (ad : Z * Z) (K : Z) pool :
  on_board px py = true -> p = px * 8 + py -> on_board nx ny = true ->
  In ad DIRECTIONS -> 1 <= K ->
  clear_path (fun i => grid_at grid i = EMPTY \/ i = p) nx ny ad K ->
  pool_ptr (shot_phase MAX_MOVES_POOL grid p px py nx ny pool) < MAX_MOVES_POOL ->
  appends (mkMove px py nx ny (nx + K * fst ad) (ny + K * snd ad)) pool
    (shot_phase MAX_MOVES_POOL grid p px py nx ny pool).
Proof.
  intros Hp Hpe Hn Had HK Hpath. unfold shot_phase.
  apply (fold_left_reach MAX_MOVES_POOL
           (fun pool ad => shot_loop MAX_MOVES_POOL 8 grid p px py nx ny (fst ad) (snd ad)
                             nx ny pool)
           _ ad DIRECTIONS); [|exact Had|].
  - intros a y. apply shot_loop_prefix.
  - intros a Hroom.
    assert (HK7 : K <= 7).
    { destruct (Hpath K ltac:(lia)) as [Hon _].
      exact (ray_length ad nx ny K Had ltac:(lia) Hn Hon). }
    apply (shot_loop_reach p px py nx ny ad K Hp Hpe Hn Hpath 8 0); [lia|lia|lia|lia|].
    exact Hroom.
Qed.

Lemma slide_loop_reach p px py (d ad : Z * Z) (Kd Ka : Z) :
  on_board px py = true -> p = px * 8 + py ->
  In ad DIRECTIONS -> 1 <= Ka ->
  clear_path (fun i => grid_at grid i = EMPTY) px py d Kd ->
  clear_path (fun i => grid_at grid i = EMPTY \/ i = p)
    (px + Kd * fst d) (py + Kd * snd d) ad Ka ->
  forall (fuel : nat) k nx ny pool,
    0 <= k < Kd -> nx = px + k * fst d -> ny = py + k * snd d ->
    Kd - k <= Z.of_nat fuel ->
    pool_ptr (slide_loop MAX_MOVES_POOL fuel grid p px py (fst d) (snd d) nx ny pool)
    < MAX_MOVES_POOL ->
    appends (mkMove px py (px + Kd * fst d) (py + Kd * snd d)
               (px + Kd * fst d + Ka * fst ad) (py + Kd * snd d + Ka * snd ad)) pool
      (slide_loop MAX_MOVES_POOL fuel grid p px py (fst d) (snd d) nx ny pool).
Proof.
  intros Hp Hpe Had HKa Hslide Hshot.
  induction fuel as [|fuel IH]; intros k nx ny pool Hk Hnx Hny Hfuel; [lia|].
  cbn [slide_loop].
  destruct (Hslide (k + 1) ltac:(lia)) as [Hon Hfree].
  replace (px + (k + 1) * fst d) with (nx + fst d) in Hon, Hfree by lia.
  replace (py + (k + 1) * snd d) with (ny + snd d) in Hon, Hfree by lia.
  rewrite Hon. cbn [negb]. cbn beta in Hfree. rewrite Hfree.
  change (EMPTY =? EMPTY) with true. cbn [negb].
  intros Hres.
  destruct (Z.eq_dec (k + 1) Kd) as [HK|HK].
  - eapply appends_prefix_r; [|apply slide_loop_prefix].
    replace (px + Kd * fst d) with (nx + fst d) by lia.
    replace (py + Kd * snd d) with (ny + snd d) by lia.
    apply (shot_phase_reach p px py (nx + fst d) (ny + snd d) ad Ka pool Hp Hpe Hon Had HKa).
    + replace (nx + fst d) with (px + Kd * fst d) by lia.
      replace (ny + snd d) with (py + Kd * snd d) by lia. exact Hshot.
    + pose proof (prefix_pool_ptr _ _
                    (slide_loop_prefix MAX_MOVES_POOL fuel grid p px py (fst d) (snd d)
                       (nx + fst d) (ny + snd d)
                       (shot_phase MAX_MOVES_POOL grid p px py (nx + fst d) (ny + snd d) pool))).
      lia.
  - eapply appends_prefix_l; [|apply (IH (k + 1)); [lia|lia|lia|lia|exact Hres]].
    apply shot_phase_prefix.
Qed.

Lemma get_legal_moves_reach pool (m : Move) :
  legal_move grid color m ->
  pool_ptr (snd (get_legal_moves MAX_MOVES_POOL grid color pool)) < MAX_MOVES_POOL ->
  appends m pool (snd (get_legal_moves MAX_MOVES_POOL grid color pool)).
Proof.
  intros (Hsrc & Hcol & (d & Kd & Hd & HKd & Hx1 & Hy1 & Hslide)
         & (ad & Ka & Had & HKa & Hx2 & Hy2 & Hshot)).
  rewrite get_legal_moves_unfold. cbn [snd].
  destruct m as [mx0 my0 mx1 my1 mx2 my2]. cbn [x0 y0 x1 y1 x2 y2] in *.
  pose proof Hsrc as Hsrc'. apply on_board_spec in Hsrc'.
  set (p := mx0 * 8 + my0) in *.
  assert (Hpx : p / 8 = mx0).
  { unfold p. rewrite Z.div_add_l by lia. rewrite Z.div_small by lia. lia. }
  assert (Hpy : p mod 8 = my0).
  { unfold p. rewrite Z.add_comm, Z.mod_add by lia. apply Z.mod_small. lia. }
  apply (fold_left_reach MAX_MOVES_POOL (piece_moves MAX_MOVES_POOL grid color) _ p
           (seqZ 0 NUM_SQUARES)).
  - intros a y. apply piece_moves_prefix.
  - apply list_elem_of_In, elem_of_seqZ. unfold NUM_SQUARES, p. lia.
  - intros a. unfold piece_moves. rewrite Hcol, Z.eqb_refl. cbn [negb].
    rewrite Hpx, Hpy.
    apply (fold_left_reach MAX_MOVES_POOL
             (fun pool d => slide_loop MAX_MOVES_POOL 8 grid p mx0 my0 (fst d) (snd d)
                              mx0 my0 pool)
             _ d DIRECTIONS); [|exact Hd|].
    + intros b y. apply slide_loop_prefix.
    + intros b Hroom. subst mx1 my1 mx2 my2.
      assert (HK7 : Kd <= 7).
      { destruct (Hslide Kd ltac:(lia)) as [Hon _].
        exact (ray_length d mx0 my0 Kd Hd ltac:(lia) Hsrc Hon). }
      apply (slide_loop_reach p mx0 my0 d ad Kd Ka Hsrc eq_refl Had HKa Hslide Hshot 8 0);
        [lia|lia|lia|lia|exact Hroom].
Qed.

End GeneratorComplete.

(** X: every move [get_legal_moves] returns is a move of the game for the
    side asked: a piece of that side slides like a queen over empty cells,
    and its arrow flies like a queen from the destination over cells that
    are empty or the vacated source. *)
Theorem get_legal_moves_sound (MAX_MOVES_POOL : Z) (grid : Board) (color : Z)
    (pool : list Move) (m : Move) :
  In m (returned_moves (get_legal_moves MAX_MOVES_POOL grid color pool)) ->
  legal_move grid color m.
Proof.
  intros Hm. pose proof (get_legal_moves_legal MAX_MOVES_POOL grid color pool) as H.
  rewrite Forall_forall in H. apply H, list_elem_of_In, Hm.
Qed.

Lemma get_legal_moves_sound_witness :
  In (mkMove 0 2 1 2 2 2) (returned_moves (get_legal_moves 100 new_Board BLACK [])) /\
  legal_move new_Board BLACK (mkMove 0 2 1 2 2 2).
Proof.
  assert (Hin : mkMove 0 2 1 2 2 2 ∈ returned_moves (get_legal_moves 100 new_Board BLACK [])).
  { apply list_elem_of_lookup. exists 1%nat. vm_compute. reflexivity. }
  pose proof (proj1 (list_elem_of_In (returned_moves (get_legal_moves 100 new_Board BLACK []))
                       (mkMove 0 2 1 2 2 2)) Hin) as H.
  split; [exact H|].
  exact (get_legal_moves_sound 100 new_Board BLACK [] (mkMove 0 2 1 2 2 2) H).
Defined.

(** X: when the move pool still has room after the call, every move of the
    game for the side asked on the board is among the moves
    [get_legal_moves] returned: the generator misses none. *)
Theorem get_legal_moves_complete (MAX_MOVES_POOL : Z) (grid : Board) (color : Z)
    (pool : list Move) (m : Move) :
  pool_ptr (snd (get_legal_moves MAX_MOVES_POOL grid color pool)) < MAX_MOVES_POOL ->
  legal_move grid color m ->
  In m (returned_moves (get_legal_moves MAX_MOVES_POOL grid color pool)).
Proof.
  intros Hroom Hm.
  destruct (get_legal_moves_reach MAX_MOVES_POOL grid color pool m Hm Hroom)
    as (l & Hl & Hin).
  destruct (get_legal_moves_shape MAX_MOVES_POOL grid color pool) as (_ & _ & Hpool & _).
  rewrite Hl in Hpool. apply app_inv_head in Hpool. rewrite <- Hpool. exact Hin.
Qed.

(** The move 0 2 -> 3 2 with the arrow back on 0 2, on the opening board. *)
Lemma opening_move_legal : legal_move new_Board BLACK (mkMove 0 2 3 2 0 2).
Proof.
  unfold legal_move. cbn [x0 y0 x1 y1 x2 y2].
  split; [reflexivity|]. split; [reflexivity|]. split.
  - exists (1, 0), 3. split; [unfold DIRECTIONS; cbn [In]; tauto|].
    split; [lia|]. split; [reflexivity|]. split; [reflexivity|].
    intros j Hj. cbn [fst snd].
    assert (Hc : j = 1 \/ j = 2 \/ j = 3) by lia.
    destruct Hc as [-> | [-> | ->]]; split; reflexivity.
  - exists (-1, 0), 3. split; [unfold DIRECTIONS; cbn [In]; tauto|].
    split; [lia|]. split; [reflexivity|]. split; [reflexivity|].
    intros j Hj. cbn [fst snd].
    assert (Hc : j = 1 \/ j = 2 \/ j = 3) by lia.
    destruct Hc as [-> | [-> | ->]]; (split; [reflexivity|]);
      [left; reflexivity|left; reflexivity|right; reflexivity].
Qed.

Lemma get_legal_moves_complete_witness :
  pool_ptr (snd (get_legal_moves 5000 new_Board BLACK [])) < 5000 /\
  In (mkMove 0 2 3 2 0 2) (returned_moves (get_legal_moves 5000 new_Board BLACK [])).
Proof.
  assert (H : pool_ptr (snd (get_legal_moves 5000 new_Board BLACK [])) < 5000)
    by (vm_compute; reflexivity).
  split; [exact H|].
  exact (get_legal_moves_complete 5000 new_Board BLACK [] (mkMove 0 2 3 2 0 2) H
           opening_move_legal).
Defined.

(** * The generator of [bot.cpp] *)

Lemma Bot_DIRECTIONS_same (d : Z * Z) : In d Bot.DIRECTIONS <-> In d DIRECTIONS.
Proof. unfold Bot.DIRECTIONS, DIRECTIONS. cbn [In]. tauto. Qed.

Lemma Bot_is_valid_on_board (x y : Z) : Bot.is_valid x y = on_board x y.
Proof. reflexivity. Qed.

Section BotGenerator.

Variable grid : Board.
Variable color : Z.

Lemma Bot_arrow_loop_prefix fuel px py nx ny adx ady :
  forall ax ay moves,
    moves `prefix_of` Bot.arrow_loop fuel grid px py nx ny adx ady ax ay moves.
Proof.
  induction fuel as [|fuel IH]; intros ax ay moves; cbn [Bot.arrow_loop]; [reflexivity|].
  destruct (Bot.is_valid ax ay); [|reflexivity].
  destruct (negb (Bot.cell grid ax ay =? EMPTY) && negb ((ax =? px) && (ay =? py)));
    [reflexivity|].
  etransitivity; [apply prefix_app_r; reflexivity|apply IH].
Qed.

Lemma Bot_arrows_prefix px py nx ny moves :
  moves `prefix_of` Bot.arrows grid px py nx ny moves.
Proof.
  unfold Bot.arrows. apply fold_left_prefix. intros a ad. apply Bot_arrow_loop_prefix.
Qed.

Lemma Bot_slide_loop_prefix fuel px py dx dy :
  forall nx ny moves,
    moves `prefix_of` Bot.slide_loop fuel grid px py dx dy nx ny moves.
Proof.
  induction fuel as [|fuel IH]; intros nx ny moves; cbn [Bot.slide_loop]; [reflexivity|].
  destruct (Bot.is_valid nx ny && (Bot.cell grid nx ny =? EMPTY)); [|reflexivity].
  etransitivity; [apply Bot_arrows_prefix|apply IH].
Qed.

Lemma Bot_piece_moves_prefix px py moves :
  moves `prefix_of` Bot.piece_moves grid color px py moves.
Proof.
  unfold Bot.piece_moves. destruct (negb (Bot.cell grid px py =? color)); [reflexivity|].
  apply fold_left_prefix. intros a d. apply Bot_slide_loop_prefix.
Qed.

(** *** Only moves of the game are pushed *)

Lemma Bot_arrow_loop_legal fuel px py nx ny (d ad : Z * Z) (kd : Z) :
  on_board px py = true -> grid_at grid (px * 8 + py) = color ->
  In d DIRECTIONS -> 1 <= kd -> nx = px + kd * fst d -> ny = py + kd * snd d ->
  clear_path (fun i => grid_at grid i = EMPTY) px py d kd ->
  In ad DIRECTIONS ->
  forall k ax ay moves,
    1 <= k -> ax = nx + k * fst ad -> ay = ny + k * snd ad ->
    clear_path (fun i => grid_at grid i = EMPTY \/ i = px * 8 + py) nx ny ad (k - 1) ->
    extends (legal_move grid color) moves
      (Bot.arrow_loop fuel grid px py nx ny (fst ad) (snd ad) ax ay moves).
Proof.
  intros Hp Hsrc Hd Hkd Hnx Hny Hslide Had.
  induction fuel as [|fuel IH]; intros k ax ay moves Hk Hax Hay Hpath;
    cbn [Bot.arrow_loop].
  - apply extends_refl.
  - rewrite Bot_is_valid_on_board.
    destruct (on_board ax ay) eqn:Hon; [|apply extends_refl].
    destruct (negb (Bot.cell grid ax ay =? EMPTY) && negb ((ax =? px) && (ay =? py)))
      eqn:Hblk; [apply extends_refl|].
    assert (Hpath' : clear_path (fun i => grid_at grid i = EMPTY \/ i = px * 8 + py)
                       nx ny ad k).
    { replace k with (k - 1 + 1) by lia.
      apply clear_path_step; [lia|exact Hpath| |];
        replace (k - 1 + 1) with k by lia; rewrite <- Hax, <- Hay; [exact Hon|].
      apply andb_false_iff in Hblk. destruct Hblk as [H|H].
      - left. apply negb_false_iff, Z.eqb_eq in H. exact H.
      - right. apply negb_false_iff, andb_true_iff in H. destruct H as [H1 H2].
        apply Z.eqb_eq in H1, H2. rewrite H1, H2. reflexivity. }
    eapply extends_trans; [apply extends_snoc|apply (IH (k + 1)); [lia|lia|lia|]].
    + unfold legal_move. cbn [x0 y0 x1 y1 x2 y2].
      split; [exact Hp|]. split; [exact Hsrc|]. split.
      * exists d, kd. split; [exact Hd|]. split; [exact Hkd|]. split; [exact Hnx|].
        split; [exact Hny|exact Hslide].
      * exists ad, k. split; [exact Had|]. split; [lia|]. split; [lia|].
        split; [lia|exact Hpath'].
    + replace (k + 1 - 1) with k by lia. exact Hpath'.
Qed.

Lemma Bot_arrows_legal px py nx ny (d : Z * Z) (kd : Z) moves :
  on_board px py = true -> grid_at grid (px * 8 + py) = color ->
  In d DIRECTIONS -> 1 <= kd -> nx = px + kd * fst d -> ny = py + kd * snd d ->
  clear_path (fun i => grid_at grid i = EMPTY) px py d kd ->
  extends (legal_move grid color) moves (Bot.arrows grid px py nx ny moves).
Proof.
  intros Hp Hsrc Hd Hkd Hnx Hny Hslide. unfold Bot.arrows.
  apply fold_left_extends. intros ad q Had. apply Bot_DIRECTIONS_same in Had.
  apply (Bot_arrow_loop_legal 8 px py nx ny d ad kd Hp Hsrc Hd Hkd Hnx Hny Hslide Had 1);
    [lia|lia|lia|apply clear_path_0].
Qed.

Lemma Bot_slide_loop_legal fuel px py (d : Z * Z) :
  on_board px py = true -> grid_at grid (px * 8 + py) = color ->
  In d DIRECTIONS ->
  forall k nx ny moves,
    1 <= k -> nx = px + k * fst d -> ny = py + k * snd d ->
    clear_path (fun i => grid_at grid i = EMPTY) px py d (k - 1) ->
    extends (legal_move grid color) moves
      (Bot.slide_loop fuel grid px py (fst d) (snd d) nx ny moves).
Proof.
  intros Hp Hsrc Hd.
  induction fuel as [|fuel IH]; intros k nx ny moves Hk Hnx Hny Hpath;
    cbn [Bot.slide_loop].
  - apply extends_refl.
  - rewrite Bot_is_valid_on_board.
    destruct (on_board nx ny) eqn:Hon; cbn [andb]; [|apply extends_refl].
    destruct (Z.eqb_spec (Bot.cell grid nx ny) EMPTY) as [He|He]; [|apply extends_refl].
    assert (Hpath' : clear_path (fun i => grid_at grid i = EMPTY) px py d k).
    { replace k with (k - 1 + 1) by lia.
      apply clear_path_step; [lia|exact Hpath| |];
        replace (k - 1 + 1) with k by lia; rewrite <- Hnx, <- Hny; assumption. }
    eapply extends_trans; [|apply (IH (k + 1)); [lia|lia|lia|]].
    + apply (Bot_arrows_legal px py nx ny d k); try assumption.
    + replace (k + 1 - 1) with k by lia. exact Hpath'.
Qed.

Lemma Bot_piece_moves_legal px py moves :
  on_board px py = true ->
  extends (legal_move grid color) moves (Bot.piece_moves grid color px py moves).
Proof.
  intros Hp. unfold Bot.piece_moves.
  destruct (Z.eqb_spec (Bot.cell grid px py) color) as [He|He]; cbn [negb];
    [|apply extends_refl].
  apply fold_left_extends. intros d q Hd. apply Bot_DIRECTIONS_same in Hd.
  apply (Bot_slide_loop_legal 8 px py d Hp He Hd 1); [lia|lia|lia|apply clear_path_0].
Qed.

Lemma Bot_get_legal_moves_legal :
  Forall (legal_move grid color) (Bot.get_legal_moves grid color).
Proof.
  assert (H : extends (legal_move grid color) [] (Bot.get_legal_moves grid color)).
  { unfold Bot.get_legal_moves.
    apply fold_left_extends. intros px q Hpx.
    apply fold_left_extends. intros py q' Hpy.
    apply Bot_piece_moves_legal. apply on_board_spec.
    apply list_elem_of_In, elem_of_seqZ in Hpx. apply list_elem_of_In, elem_of_seqZ in Hpy.
    lia. }
  destruct H as (l & Hl & HP). rewrite Hl. exact HP.
Qed.

(** *** Every move of the game is pushed *)

Lemma Bot_arrow_loop_reach px py nx ny (ad : Z * Z) (K : Z) :
  on_board px py = true ->
  clear_path (fun i => grid_at grid i = EMPTY \/ i = px * 8 + py) nx ny ad K ->
  forall (fuel : nat) k ax ay moves,
    1 <= k <= K -> ax = nx + k * fst ad -> ay = ny + k * snd ad ->
    K - k < Z.of_nat fuel ->
    appends (mkMove px py nx ny (nx + K * fst ad) (ny + K * snd ad)) moves
      (Bot.arrow_loop fuel grid px py nx ny (fst ad) (snd ad) ax ay moves).
Proof.
  intros Hp Hpath. apply on_board_spec in Hp.
  induction fuel as [|fuel IH]; intros k ax ay moves Hk Hax Hay Hfuel; [lia|].
  cbn [Bot.arrow_loop]. rewrite Bot_is_valid_on_board.
  destruct (Hpath k ltac:(lia)) as [Hon Hfree].
  rewrite <- Hax, <- Hay in Hon, Hfree. rewrite Hon.
  assert (Hblk : negb (Bot.cell grid ax ay =? EMPTY) && negb ((ax =? px) && (ay =? py))
                 = false).
  { apply andb_false_iff. apply on_board_spec in Hon. destruct Hfree as [He|He].
    - left. apply negb_false_iff, Z.eqb_eq. exact He.
    - right. apply negb_false_iff, andb_true_iff. split; apply Z.eqb_eq; lia. }
  rewrite Hblk.
  destruct (Z.eq_dec k K) as [HK|HK].
  - eapply appends_prefix_r; [|apply Bot_arrow_loop_prefix].
    replace (mkMove px py nx ny ax ay)
      with (mkMove px py nx ny (nx + K * fst ad) (ny + K * snd ad));
      [apply appends_snoc|f_equal; lia].
  - eapply appends_prefix_l; [|apply (IH (k + 1)); lia].
    apply prefix_app_r. reflexivity.
Qed.

Lemma fold_left_appends {B} (f : list Move -> B -> list Move) (m : Move) (x : B)
    (l : list B) :
  (forall a y, a `prefix_of` f a y) -> In x l ->
  (forall a, appends m a (f a x)) ->
  forall a0, appends m a0 (fold_left f l a0).
Proof.
  intros Hpre Hx Hstep a0.
  apply (fold_left_reach (pool_ptr (fold_left f l a0) + 1) f m x l Hpre Hx); [|lia].
  intros a _. apply Hstep.
Qed.

Lemma Bot_arrows_reach px py nx ny (ad : Z * Z) (K : Z) moves :
  on_board px py = true -> on_board nx ny = true -> In ad DIRECTIONS -> 1 <= K ->
  clear_path (fun i => grid_at grid i = EMPTY \/ i = px * 8 + py) nx ny ad K ->
  appends (mkMove px py nx ny (nx + K * fst ad) (ny + K * snd ad)) moves
    (Bot.arrows grid px py nx ny moves).
Proof.
  intros Hp Hn Had HK Hpath. unfold Bot.arrows.
  apply (fold_left_appends
           (fun mv ad => Bot.arrow_loop 8 grid px py nx ny (fst ad) (snd ad)
                           (nx + fst ad) (ny + snd ad) mv)
           _ ad Bot.DIRECTIONS).
  - intros a y. apply Bot_arrow_loop_prefix.
  - apply Bot_DIRECTIONS_same. exact Had.
  - intros a.
    assert (HK7 : K <= 7).
    { destruct (Hpath K ltac:(lia)) as [Hon _].
      exact (ray_length ad nx ny K Had ltac:(lia) Hn Hon). }
    apply (Bot_arrow_loop_reach px py nx ny ad K Hp Hpath 8 1); lia.
Qed.

Lemma Bot_slide_loop_reach px py (d ad : Z * Z) (Kd Ka : Z) :
  on_board px py = true -> In ad DIRECTIONS -> 1 <= Ka ->
  clear_path (fun i => grid_at grid i = EMPTY) px py d Kd ->
  clear_path (fun i => grid_at grid i = EMPTY \/ i = px * 8 + py)
    (px + Kd * fst d) (py + Kd * snd d) ad Ka ->
  forall (fuel : nat) k nx ny moves,
    1 <= k <= Kd -> nx = px + k * fst d -> ny = py + k * snd d ->
    Kd - k < Z.of_nat fuel ->
    appends (mkMove px py (px + Kd * fst d) (py + Kd * snd d)
               (px + Kd * fst d + Ka * fst ad) (py + Kd * snd d + Ka * snd ad)) moves
      (Bot.slide_loop fuel grid px py (fst d) (snd d) nx ny moves).
Proof.
  intros Hp Had HKa Hslide Hshot.
  induction fuel as [|fuel IH]; intros k nx ny moves Hk Hnx Hny Hfuel; [lia|].
  cbn [Bot.slide_loop]. rewrite Bot_is_valid_on_board.
  destruct (Hslide k ltac:(lia)) as [Hon Hfree].
  rewrite <- Hnx, <- Hny in Hon, Hfree. rewrite Hon. cbn [andb].
  cbn beta in Hfree. unfold Bot.cell. rewrite Hfree.
  change (EMPTY =? EMPTY) with true. cbn iota.
  destruct (Z.eq_dec k Kd) as [HK|HK].
  - eapply appends_prefix_r; [|apply Bot_slide_loop_prefix].
    replace (px + Kd * fst d) with nx by lia.
    replace (py + Kd * snd d) with ny by lia.
    apply (Bot_arrows_reach px py nx ny ad Ka moves Hp Hon Had HKa).
    replace nx with (px + Kd * fst d) by lia.
    replace ny with (py + Kd * snd d) by lia. exact Hshot.
  - eapply appends_prefix_l; [|apply (IH (k + 1)); lia].
    apply Bot_arrows_prefix.
Qed.

Lemma Bot_get_legal_moves_reach (m : Move) :
  legal_move grid color m -> In m (Bot.get_legal_moves grid color).
Proof.
  intros (Hsrc & Hcol & (d & Kd & Hd & HKd & Hx1 & Hy1 & Hslide)
         & (ad & Ka & Had & HKa & Hx2 & Hy2 & Hshot)).
  destruct m as [mx0 my0 mx1 my1 mx2 my2]. cbn [x0 y0 x1 y1 x2 y2] in *.
  pose proof Hsrc as Hsrc'. apply on_board_spec in Hsrc'.
  assert (Happ : appends (mkMove mx0 my0 mx1 my1 mx2 my2) []
                   (Bot.get_legal_moves grid color)).
  { unfold Bot.get_legal_moves.
    apply (fold_left_appends
             (fun mv px => fold_left (fun mv py => Bot.piece_moves grid color px py mv)
                             (seqZ 0 8) mv)
             _ mx0 (seqZ 0 8)).
    - intros a y. apply fold_left_prefix. intros b py. apply Bot_piece_moves_prefix.
    - apply list_elem_of_In, elem_of_seqZ. lia.
    - intros a.
      apply (fold_left_appends (fun mv py => Bot.piece_moves grid color mx0 py mv)
               _ my0 (seqZ 0 8)).
      + intros b py. apply Bot_piece_moves_prefix.
      + apply list_elem_of_In, elem_of_seqZ. lia.
      + intros b. unfold Bot.piece_moves, Bot.cell. rewrite Hcol, Z.eqb_refl. cbn [negb].
        apply (fold_left_appends
                 (fun mv d => Bot.slide_loop 8 grid mx0 my0 (fst d) (snd d)
                                (mx0 + fst d) (my0 + snd d) mv)
                 _ d Bot.DIRECTIONS).
        * intros c y. apply Bot_slide_loop_prefix.
        * apply Bot_DIRECTIONS_same. exact Hd.
        * intros c. subst mx1 my1 mx2 my2.
          assert (HK7 : Kd <= 7).
          { destruct (Hslide Kd ltac:(lia)) as [Hon _].
            exact (ray_length d mx0 my0 Kd Hd ltac:(lia) Hsrc Hon). }
          apply (Bot_slide_loop_reach mx0 my0 d ad Kd Ka Hsrc Had HKa Hslide Hshot 8 1);
            lia. }
  destruct Happ as (l & Hl & Hin). rewrite Hl. exact Hin.
Qed.

End BotGenerator.

(** X: [Board::get_legal_moves] of [bot.cpp] returns exactly the moves of
    the game for the colour asked, on every board. *)
Theorem bot_get_legal_moves_exact (grid : Board) (color : Z) (m : Move) :
  In m (Bot.get_legal_moves grid color) <-> legal_move grid color m.
Proof.
  split.
  - intros Hm. pose proof (Bot_get_legal_moves_legal grid color) as H.
    rewrite Forall_forall in H. apply H, list_elem_of_In, Hm.
  - apply Bot_get_legal_moves_reach.
Qed.

(** X: the generator of the search engine and the generator of the random
    player agree: when the move pool has room left after the call, the
    moves [get_legal_moves] of [bot026.cpp] returns are, as a set, the
    moves [get_legal_moves] of [bot.cpp] returns for the same board and
    colour. *)
Theorem generators_agree (MAX_MOVES_POOL : Z) (grid : Board) (color : Z)
    (pool : list Move) (m : Move) :
  pool_ptr (snd (get_legal_moves MAX_MOVES_POOL grid color pool)) < MAX_MOVES_POOL ->
  (In m (returned_moves (get_legal_moves MAX_MOVES_POOL grid color pool))
   <-> In m (Bot.get_legal_moves grid color)).
Proof.
  intros Hroom. split.
  - intros Hm. apply Bot_get_legal_moves_reach.
    pose proof (get_legal_moves_legal MAX_MOVES_POOL grid color pool) as H.
    rewrite Forall_forall in H. apply H, list_elem_of_In, Hm.
  - intros Hm.
    assert (Hl : legal_move grid color m).
    { pose proof (Bot_get_legal_moves_legal grid color) as H.
      rewrite Forall_forall in H. apply H, list_elem_of_In, Hm. }
    destruct (get_legal_moves_reach MAX_MOVES_POOL grid color pool m Hl Hroom)
      as (l & Hl' & Hin).
    destruct (get_legal_moves_shape MAX_MOVES_POOL grid color pool) as (_ & _ & Hpool & _).
    rewrite Hl' in Hpool. apply app_inv_head in Hpool. rewrite <- Hpool. exact Hin.
Qed.

Lemma generators_agree_witness :
  pool_ptr (snd (get_legal_moves 5000 new_Board WHITE [])) < 5000 /\
  (In (mkMove 0 5 1 5 0 5) (returned_moves (get_legal_moves 5000 new_Board WHITE []))
   <-> In (mkMove 0 5 1 5 0 5) (Bot.get_legal_moves new_Board WHITE)).
Proof.
  assert (H : pool_ptr (snd (get_legal_moves 5000 new_Board WHITE [])) < 5000)
    by (vm_compute; reflexivity).
  split; [exact H|].
  exact (generators_agree 5000 new_Board WHITE [] (mkMove 0 5 1 5 0 5) H).
Defined.

(** * The statistics of the tree *)

(** The expansion creates a node with no win and no visit and leaves the
    statistics of the others. *)
Lemma expand_stats (P : Q -> Z -> Prop) MAX_NODES MAX_MOVES_POOL root_player
    (g : Globals) (node : nat) (state : Board) (cp : Z) (ex : Expanded) :
  P 0%Q 0 ->
  (forall j nj, node_pool g !! j = Some nj -> P (wins nj) (visits nj)) ->
  expand MAX_NODES MAX_MOVES_POOL root_player g node state cp = Some ex ->
  forall j nj, node_pool (ex_globals ex) !! j = Some nj -> P (wins nj) (visits nj).
Proof.
  intros H0 Hold Hex. unfold expand in Hex.
  destruct (node_pool g !! node) as [n|] eqn:Hn; [|discriminate Hex].
  cbn [mbind option_bind] in Hex.
  destruct (0 <? moves_count n).
  - match type of Hex with context [pool_at (move_pool g) ?b] =>
      destruct (pool_at (move_pool g) b) as [m|]; [|discriminate Hex] end.
    cbn [mbind option_bind] in Hex.
    match type of Hex with context [pool_at (move_pool g) ?b] =>
      destruct (pool_at (move_pool g) b) as [ml|]; [|discriminate Hex] end.
    cbn [mbind option_bind] in Hex.
    unfold new_node in Hex. cbn [node_pool] in Hex.
    match type of Hex with context [MAX_NODES <=? ?b] => destruct (MAX_NODES <=? b) end.
    + apply (inj Some) in Hex. subst ex. cbn [ex_globals node_pool].
      intros j nj Hj. apply list_lookup_insert_Some in Hj.
      destruct Hj as [(_ & <- & _)|(_ & Hj)]; [|exact (Hold j nj Hj)].
      cbn [set_moves wins visits]. exact (Hold node n Hn).
    + apply (inj Some) in Hex. subst ex. cbn [ex_globals node_pool set_node_pool].
      intros j nj Hj. apply list_lookup_insert_Some in Hj.
      destruct Hj as [(_ & <- & _)|(_ & Hj)].
      { cbn [set_first_child set_moves wins visits]. exact (Hold node n Hn). }
      apply list_lookup_insert_Some in Hj.
      destruct Hj as [(_ & <- & _)|(_ & Hj)].
      { cbn [set_next_sibling set_moves node_init wins visits]. exact H0. }
      apply lookup_app_Some in Hj. destruct Hj as [Hj|(_ & Hj)].
      * apply list_lookup_insert_Some in Hj.
        destruct Hj as [(_ & <- & _)|(_ & Hj)]; [|exact (Hold j nj Hj)].
        cbn [set_moves wins visits]. exact (Hold node n Hn).
      * apply list_lookup_singleton_Some in Hj. destruct Hj as [_ <-].
        cbn [node_init wins visits]. exact H0.
  - destruct (bool_decide (first_child n = None)); apply (inj Some) in Hex; subst ex;
      exact Hold.
Qed.

(** Backpropagation adds one visit, and [win_prob] or its complement to
    the wins, on the nodes it passes. *)
Lemma backprop_stats (P : Q -> Z -> Prop) (root : nat) (root_player : Z) (win_prob : Q) :
  (forall w v, P w v -> P (w + win_prob)%Q (v + 1) /\ P (w + (1 - win_prob))%Q (v + 1)) ->
  forall (fuel : nat) (g g' : Globals) (node : option nat),
    (forall j nj, node_pool g !! j = Some nj -> P (wins nj) (visits nj)) ->
    backprop fuel root root_player win_prob g node = Some g' ->
    forall j nj, node_pool g' !! j = Some nj -> P (wins nj) (visits nj).
Proof.
  intros Hstep. induction fuel as [|fuel IH]; intros g g' node Hold Hrun.
  - destruct node as [i|]; [discriminate Hrun|].
    cbn [backprop] in Hrun. apply (inj Some) in Hrun. subst g'. exact Hold.
  - destruct node as [i|].
    + cbn [backprop] in Hrun.
      destruct (node_pool g !! i) as [n|] eqn:Hn; [|discriminate Hrun].
      cbn [mbind option_bind] in Hrun.
      refine (IH _ _ _ _ Hrun).
      intros k nk Hk. unfold backprop_node in Hk.
      assert (Hcase : <[i := set_stats n
                               (if player_just_moved n =? root_player
                                then wins n + win_prob
                                else wins n + (1 - win_prob))%Q
                               (visits n + 1)]> (node_pool g) !! k = Some nk).
      { destruct (bool_decide (parent n = Some root)
                  && (max_visits_global g <? visits n + 1)); exact Hk. }
      apply list_lookup_insert_Some in Hcase.
      destruct Hcase as [(_ & <- & _)|(_ & Hk')]; [|exact (Hold k nk Hk')].
      cbn [set_stats wins visits].
      destruct (Hstep _ _ (Hold i n Hn)) as [H1 H2].
      destruct (player_just_moved n =? root_player); assumption.
    + cbn [backprop] in Hrun. apply (inj Some) in Hrun. subst g'. exact Hold.
Qed.

Section TreeStatistics.

Variable MAX_NODES : Z.
Variable MAX_MOVES_POOL : Z.
Variable flog : Q -> Q.
Variable fsqrt : Q -> Q.
Variable fexp : Q -> Q.
Variable root_state : Board.
Variable root_player : Z.
Variable turn : Z.
Variable seed : Z.

Hypothesis fsqrt_nonneg : forall x, (0 <= fsqrt x)%Q.
Hypothesis fexp_nonneg : forall x, (0 <= fexp x)%Q.
Hypothesis root_side : root_player = BLACK \/ root_player = WHITE.
Hypothesis nodes_capacity : 0 < MAX_NODES.
Hypothesis moves_capacity : 0 <= MAX_MOVES_POOL.

Local Abbreviation root_moves := (root_legal_moves MAX_MOVES_POOL root_state root_player).
Local Abbreviation inv := (search_inv MAX_NODES MAX_MOVES_POOL root_player root_moves).
Local Abbreviation C := (ucb_constant fexp turn).

Lemma iterate_stats (g : Globals) (it : Iteration) :
  inv g -> stats_ok g ->
  iterate MAX_NODES MAX_MOVES_POOL flog fsqrt root_state root_player turn C 0 g = Some it ->
  stats_ok (it_globals it).
Proof.
  intros Hinv Hst Hit.
  destruct (iterate_ok MAX_NODES MAX_MOVES_POOL flog fsqrt root_state root_player turn
              fsqrt_nonneg root_side root_moves g C Hinv
              (ucb_constant_nonneg fexp turn fexp_nonneg))
    as (it' & sel & st & cp & Hrun & _ & _ & Hnode & _ & _ & _ & Hex & _ & Hwp & _).
  rewrite Hit in Hrun. apply (inj Some) in Hrun. subst it'.
  destruct (iterate_unfold _ _ _ _ _ _ _ _ _ _ Hit) as (st' & cp' & _ & _ & Hbp).
  assert (Hbound : (0 <= it_win_prob it <= 1)%Q).
  { rewrite Hwp.
    destruct (ex_terminal (it_expanded it)) eqn:Hterm; [|apply evaluate_bounds].
    destruct (expand_cases _ _ _ _ _ _ _ _ _ Hex Hnode)
      as [(_ & _ & Heq)|[(_ & _ & Heq)|[(_ & _ & _ & _ & Hnt & _)|(_ & _ & Hchild)]]].
    - rewrite Heq. cbn [ex_win_prob].
      destruct (player_just_moved sel =? root_player); lra.
    - rewrite Heq. cbn [ex_win_prob]. lra.
    - congruence.
    - destruct Hchild as (child & m & mp & _ & _ & _ & _ & _ & _ & _ & _ & _ & _ & Hwin & _).
      rewrite Hwin, Hterm.
      destruct (ex_player (it_expanded it) =? root_player); lra. }
  unfold stats_ok.
  refine (backprop_stats (fun w v => (0 <= w <= inject_Z v)%Q) 0 root_player (it_win_prob it)
            _ _ _ _ _ _ Hbp).
  - intros w v Hw. rewrite inject_Z_plus. change (inject_Z 1) with 1%Q. split; lra.
  - refine (expand_stats (fun w v => (0 <= w <= inject_Z v)%Q) _ _ _ _ _ _ _ _ _ Hst Hex).
    change (inject_Z 0) with 0%Q. lra.
Qed.

Lemma iterate_n_stats (n : nat) :
  forall g, inv g -> stats_ok g ->
    exists gn rn rn',
      iterate_n MAX_NODES MAX_MOVES_POOL flog fsqrt n root_state root_player turn C 0 g
        = Some gn /\
      inv gn /\ stats_ok gn /\
      node_pool g !! 0%nat = Some rn /\ node_pool gn !! 0%nat = Some rn' /\
      visits rn' = visits rn + Z.of_nat n.
Proof.
  induction n as [|n IH]; intros g Hinv Hst.
  - pose proof Hinv as [((rn & Hrn & _) & _) _].
    exists g, rn, rn. split; [reflexivity|]. split; [exact Hinv|]. split; [exact Hst|].
    split; [exact Hrn|]. split; [exact Hrn|]. cbn. lia.
  - destruct (iterate_ok MAX_NODES MAX_MOVES_POOL flog fsqrt root_state root_player turn
                fsqrt_nonneg root_side root_moves g C Hinv
                (ucb_constant_nonneg fexp turn fexp_nonneg))
      as (it & sel & st & cp & Hrun & Hinv' & _ & _ & _ & _ & _ & _ & _ & _ & _ & _
          & rn & rn1 & Hrn & Hrn1 & Hv).
    pose proof (iterate_stats g it Hinv Hst Hrun) as Hst'.
    destruct (IH (it_globals it) Hinv' Hst') as (gn & rn1' & rn' & Hn & Hinvn & Hstn & Hr1
                                                 & Hrn' & Hv').
    rewrite Hrn1 in Hr1. apply (inj Some) in Hr1. subst rn1'.
    exists gn, rn, rn'. cbn [iterate_n]. rewrite Hrun. cbn [mbind option_bind].
    split; [exact Hn|]. split; [exact Hinvn|]. split; [exact Hstn|].
    split; [exact Hrn|]. split; [exact Hrn'|]. lia.
Qed.

(** X: the counters of the tree count what they should. After [n]
    iterations of a search the root has been visited [n] times, and every
    node has wins between 0 and its number of visits, so that the mean
    score [wins / visits] of a visited node lies between 0 and 1. *)
Theorem tree_statistics (n : nat) :
  exists gn it rn,
    reaches MAX_NODES MAX_MOVES_POOL flog fsqrt fexp root_state root_player turn seed n gn it /\
    node_pool gn !! 0%nat = Some rn /\ visits rn = Z.of_nat n /\
    forall j nj, node_pool gn !! j = Some nj -> (0 <= wins nj <= inject_Z (visits nj))%Q.
Proof.
  destruct (search_init_ok MAX_NODES MAX_MOVES_POOL root_state root_player root_side
              nodes_capacity moves_capacity root_moves
              (root_moves_unfold MAX_MOVES_POOL root_state root_player) seed)
    as (g0 & rn0 & Hinit & Hinv & Hpool & _ & _ & Hv0 & _).
  assert (Hst0 : stats_ok g0).
  { pose proof (search_init_unfold MAX_NODES MAX_MOVES_POOL root_state root_player
                  nodes_capacity seed) as Hun.
    rewrite Hinit in Hun. apply (inj Some) in Hun.
    assert (Hg : g0 = snd (0%nat, g0)) by reflexivity. rewrite Hun in Hg.
    cbn [snd] in Hg. rewrite Hg. intros j nj Hj. cbn [node_pool] in Hj.
    apply list_lookup_singleton_Some in Hj. destruct Hj as [_ <-].
    cbn [set_moves node_init wins visits]. change (inject_Z 0) with 0%Q. lra. }
  destruct (iterate_n_stats n g0 Hinv Hst0)
    as (gn & rn & rn' & Hn & Hinvn & Hstn & Hr & Hr' & Hv).
  destruct (iterate_ok MAX_NODES MAX_MOVES_POOL flog fsqrt root_state root_player turn
              fsqrt_nonneg root_side root_moves gn C Hinvn
              (ucb_constant_nonneg fexp turn fexp_nonneg))
    as (it & _ & _ & _ & Hrun & _).
  exists gn, it, rn'. split.
  - exists g0. split; [exact Hinit|]. split; [exact Hn|exact Hrun].
  - split; [exact Hr'|]. split; [|exact Hstn].
    rewrite Hpool in Hr. cbn in Hr. apply (inj Some) in Hr. subst rn. lia.
Qed.

End TreeStatistics.

Lemma tree_statistics_witness :
  (BLACK = BLACK \/ BLACK = WHITE) /\ 0 < bot026_MAX_NODES /\
  exists gn it rn,
    reaches bot026_MAX_NODES bot026_MAX_MOVES_POOL approx_log approx_sqrt approx_exp
      new_Board BLACK 1 1 4 gn it /\
    node_pool gn !! 0%nat = Some rn /\ visits rn = Z.of_nat 4 /\
    forall j nj, node_pool gn !! j = Some nj -> (0 <= wins nj <= inject_Z (visits nj))%Q.
Proof.
  split; [left; reflexivity|]. split; [reflexivity|].
  apply (tree_statistics bot026_MAX_NODES bot026_MAX_MOVES_POOL approx_log approx_sqrt
           approx_exp new_Board BLACK 1 1 approx_sqrt_nonneg approx_exp_nonneg
           (or_introl eq_refl) eq_refl).
  discriminate.
Defined.

(** * The move the search returns *)

Lemma pool_ptr_nonneg {A} (l : list A) : 0 <= pool_ptr l.
Proof. unfold pool_ptr. lia. Qed.

(** X: the search plays by the rules. When the root side has a move of the
    game, the pools have room for the root (its moves leave the margin of
    5000 cells, the node pool holds more than 500 nodes), and the deadline
    has not passed at the first reading of the clock but has at a later
    one, [search] returns a move of the game for the root side on the root
    board, never the sentinel. *)
Theorem search_returns_legal_move (MAX_NODES MAX_MOVES_POOL : Z) (flog fsqrt fexp : Q -> Q)
    (now_ge_deadline : nat -> bool) (root_state : Board) (root_player turn seed : Z)
    (k fuel : nat) (m0 : Move) :
  (forall x, (0 <= fsqrt x)%Q) -> (forall x, (0 <= fexp x)%Q) ->
  root_player = BLACK \/ root_player = WHITE ->
  501 <= MAX_NODES ->
  pool_ptr (root_legal_moves MAX_MOVES_POOL root_state root_player) <= MAX_MOVES_POOL - 5000 ->
  now_ge_deadline 0%nat = false -> now_ge_deadline k = true -> (256 * k < fuel)%nat ->
  legal_move root_state root_player m0 ->
  exists mv,
    search MAX_NODES MAX_MOVES_POOL flog fsqrt fexp now_ge_deadline fuel
      root_state root_player turn seed = Some mv /\
    legal_move root_state root_player mv /\ mv <> NO_MOVE.
Proof.
  intros Hsqrt Hexp Hside Hcn Hcm H0 Hk Hfuel Hm0.
  assert (Hmc : 0 <= MAX_MOVES_POOL).
  { pose proof (pool_ptr_nonneg (root_legal_moves MAX_MOVES_POOL root_state root_player)).
    lia. }
  assert (Hfacts :
    root_legal_moves MAX_MOVES_POOL root_state root_player <> [] /\
    forall mv, In mv (root_legal_moves MAX_MOVES_POOL root_state root_player) ->
               legal_move root_state root_player mv).
  { pose proof (root_moves_unfold MAX_MOVES_POOL root_state root_player) as Hrm.
    destruct (get_legal_moves_shape MAX_MOVES_POOL root_state root_player [])
      as (_ & _ & Hpool & _).
    pose proof (get_legal_moves_legal MAX_MOVES_POOL root_state root_player []) as Hall.
    pose proof (get_legal_moves_reach MAX_MOVES_POOL root_state root_player [] m0 Hm0)
      as Hreach.
    revert Hrm Hpool Hall Hreach Hcm.
    generalize (root_legal_moves MAX_MOVES_POOL root_state root_player).
    generalize (get_legal_moves MAX_MOVES_POOL root_state root_player []).
    intros r rm Hrm Hpool Hall Hreach Hcm. subst rm.
    revert Hpool Hall Hreach Hcm.
    generalize (returned_moves r). generalize (snd r).
    intros final l Hpool Hall Hreach Hcm. subst final.
    change ([] ++ l) with l in Hreach.
    destruct (Hreach ltac:(lia)) as (l' & Hl' & Hin). change ([] ++ l') with l' in Hl'.
    subst l'. split.
    - intros He. rewrite He in Hin. exact Hin.
    - intros mv Hmv. rewrite Forall_forall in Hall. apply Hall.
      apply (proj2 (list_elem_of_In l mv)). exact Hmv. }
  destruct Hfacts as [Hne Hall].
  destruct (search_returns_move MAX_NODES MAX_MOVES_POOL flog fsqrt fexp now_ge_deadline
              root_state root_player turn seed Hsqrt Hexp Hside ltac:(lia) Hmc
              k fuel Hk Hfuel H0 Hne Hcn Hcm) as (mv & Hmv & Hin').
  exists mv. split; [exact Hmv|].
  pose proof (Hall mv Hin') as Hlegal.
  split; [exact Hlegal|].
  intros He. destruct Hlegal as (Hon & _). rewrite He in Hon. discriminate Hon.
Qed.

Lemma search_returns_legal_move_witness :
  pool_ptr (root_legal_moves bot026_MAX_MOVES_POOL new_Board BLACK)
  <= bot026_MAX_MOVES_POOL - 5000 /\
  legal_move new_Board BLACK (mkMove 0 2 3 2 0 2) /\
  exists mv,
    search bot026_MAX_NODES bot026_MAX_MOVES_POOL approx_log approx_sqrt approx_exp
      (deadline_from 2) 600 new_Board BLACK 1 1 = Some mv /\
    legal_move new_Board BLACK mv /\ mv <> NO_MOVE.
Proof.
  assert (Hlen : length (root_legal_moves bot026_MAX_MOVES_POOL new_Board BLACK) = 1232%nat)
    by (vm_compute; reflexivity).
  assert (Hcm : pool_ptr (root_legal_moves bot026_MAX_MOVES_POOL new_Board BLACK)
                <= bot026_MAX_MOVES_POOL - 5000).
  { unfold pool_ptr. rewrite Hlen. discriminate. }
  split; [exact Hcm|]. split; [exact opening_move_legal|].
  apply (search_returns_legal_move bot026_MAX_NODES bot026_MAX_MOVES_POOL approx_log
           approx_sqrt approx_exp (deadline_from 2) new_Board BLACK 1 1 2 600
           (mkMove 0 2 3 2 0 2) approx_sqrt_nonneg approx_exp_nonneg (or_introl eq_refl)).
  - discriminate.
  - exact Hcm.
  - reflexivity.
  - reflexivity.
  - lia.
  - exact opening_move_legal.
Defined.

(** * The programs on incomplete and on well formed requests *)

Lemma Bot_read_lines_None (count : nat) :
  forall input, (length input < count)%nat -> Bot.read_lines count input = None.
Proof.
  induction count as [|count IH]; intros input Hlen; [lia|].
  destruct input as [|l rest]; [reflexivity|].
  cbn [Bot.read_lines]. rewrite IH by (cbn [length] in Hlen; lia). reflexivity.
Qed.

Lemma read_lines_padded (count : nat) :
  forall input, (length input < count)%nat -> In EmptyString (read_lines count input).
Proof.
  induction count as [|count IH]; intros input Hlen; [lia|].
  destruct input as [|l rest]; cbn [read_lines].
  - left. reflexivity.
  - right. apply IH. cbn [length] in Hlen. lia.
Qed.

Lemma replay_empty_line (lines : list string) :
  In EmptyString lines -> forall board, replay lines board = None.
Proof.
  induction lines as [|l lines IH]; intros Hin board; [destruct Hin|].
  cbn [replay]. destruct Hin as [->|Hin].
  - reflexivity.
  - destruct (history_line l) as [|m|]; [apply IH, Hin| |reflexivity].
    destruct (move_in_grid m); [apply IH, Hin|reflexivity].
Qed.

(** X: a history cut short. When fewer than [2 * turn - 1] lines follow
    the turn line, [bot.cpp] ends without writing ([getline] fails and
    [main] returns 0), while [bot026.cpp], which does not look at the result
    of [getline], replays the missing lines as empty lines and reads
    coordinates that no extraction wrote: undefined behaviour. *)
Theorem history_cut_short (MAX_NODES MAX_MOVES_POOL : Z) (flog fsqrt fexp : Q -> Q)
    (now_ge_deadline : nat -> bool) (clock : Z) (fuel : nat) (rand : Z)
    (line : string) (rest : list string) (turn : Z) :
  stoi line = Some turn -> in_int (2 * turn) = true ->
  Z.of_nat (length rest) < 2 * turn - 1 ->
  Bot.main rand (line :: rest) = Silent /\
  main MAX_NODES MAX_MOVES_POOL flog fsqrt fexp now_ge_deadline clock fuel (line :: rest)
  = Some Undefined.
Proof.
  intros Hturn H2 Hlen.
  assert (H1 : in_int (2 * turn - 1) = true).
  { unfold in_int, INT_MIN, INT_MAX in *.
    apply andb_true_iff in H2. destruct H2 as [Ha Hb].
    apply Z.leb_le in Ha, Hb. apply andb_true_iff. split; apply Z.leb_le; lia. }
  assert (Hcount : (length rest < Z.to_nat (2 * turn - 1))%nat) by lia.
  split.
  - unfold Bot.main, Bot.read_request. rewrite Hturn, H2, H1. cbn [andb negb].
    rewrite (Bot_read_lines_None _ rest Hcount). reflexivity.
  - unfold main, read_request. rewrite Hturn, H2, H1. cbn [andb negb].
    pose proof (read_lines_padded _ rest Hcount) as Hpad.
    destruct (read_lines (Z.to_nat (2 * turn - 1)) rest) as [|l0 ls] eqn:Hl;
      [reflexivity|].
    rewrite (replay_empty_line (l0 :: ls) Hpad). reflexivity.
Qed.

Lemma history_cut_short_witness :
  stoi "2" = Some 2 /\ Z.of_nat (length ["-1 -1 -1 -1 -1 -1"%string]) < 2 * 2 - 1 /\
  Bot.main 0 ["2"; "-1 -1 -1 -1 -1 -1"]%string = Silent /\
  main bot026_MAX_NODES bot026_MAX_MOVES_POOL approx_log approx_sqrt approx_exp
    (deadline_from 1) 1 300 ["2"; "-1 -1 -1 -1 -1 -1"]%string
  = Some Undefined.
Proof.
  split; [reflexivity|]. split; [cbn [length]; lia|].
  apply (history_cut_short bot026_MAX_NODES bot026_MAX_MOVES_POOL approx_log approx_sqrt
           approx_exp (deadline_from 1) 1 300 0 "2" ["-1 -1 -1 -1 -1 -1"%string] 2).
  - reflexivity.
  - reflexivity.
  - cbn [length]. lia.
Defined.




(** * The loops of [bot.cpp] *)

Lemma Bot_arrow_loop_fuel (grid : Board) (px py nx ny dr dc : Z) :
  -1 <= dr <= 1 -> -1 <= dc <= 1 -> dr <> 0 \/ dc <> 0 ->
  forall (f1 f2 : nat) (ax ay : Z) (moves : list Move),
    (on_board ax ay = true -> ray_room dr dc ax ay < Z.of_nat f1) ->
    (on_board ax ay = true -> ray_room dr dc ax ay < Z.of_nat f2) ->
    Bot.arrow_loop f1 grid px py nx ny dr dc ax ay moves
    = Bot.arrow_loop f2 grid px py nx ny dr dc ax ay moves.
Proof.
  intros Hr Hc Hnz.
  assert (Hstop : forall f ax ay moves,
            on_board ax ay = false ->
            Bot.arrow_loop f grid px py nx ny dr dc ax ay moves = moves).
  { intros [|f] ax ay moves Hoff; [reflexivity|]. cbn [Bot.arrow_loop].
    rewrite Bot_is_valid_on_board, Hoff. reflexivity. }
  induction f1 as [|f1 IH]; intros f2 ax ay moves H1 H2.
  - destruct (on_board ax ay) eqn:Hon.
    + specialize (H1 eq_refl). pose proof (ray_room_on_board dr dc ax ay Hon). lia.
    + rewrite (Hstop f2) by exact Hon. reflexivity.
  - destruct f2 as [|f2].
    + destruct (on_board ax ay) eqn:Hon.
      * specialize (H2 eq_refl). pose proof (ray_room_on_board dr dc ax ay Hon). lia.
      * rewrite (Hstop (S f1)) by exact Hon. reflexivity.
    + cbn [Bot.arrow_loop]. rewrite Bot_is_valid_on_board.
      destruct (on_board ax ay) eqn:Hon; [|reflexivity].
      destruct (negb (Bot.cell grid ax ay =? EMPTY) && negb ((ax =? px) && (ay =? py)));
        [reflexivity|].
      apply IH; intros Hon'; destruct (ray_step dr dc ax ay Hr Hc Hnz Hon') as [_ Hroom];
        [specialize (H1 eq_refl)|specialize (H2 eq_refl)]; lia.
Qed.

Lemma Bot_slide_loop_fuel (grid : Board) (px py dr dc : Z) :
  -1 <= dr <= 1 -> -1 <= dc <= 1 -> dr <> 0 \/ dc <> 0 ->
  forall (f1 f2 : nat) (nx ny : Z) (moves : list Move),
    (on_board nx ny = true -> ray_room dr dc nx ny < Z.of_nat f1) ->
    (on_board nx ny = true -> ray_room dr dc nx ny < Z.of_nat f2) ->
    Bot.slide_loop f1 grid px py dr dc nx ny moves
    = Bot.slide_loop f2 grid px py dr dc nx ny moves.
Proof.
  intros Hr Hc Hnz.
  assert (Hstop : forall f nx ny moves,
            on_board nx ny = false ->
            Bot.slide_loop f grid px py dr dc nx ny moves = moves).
  { intros [|f] nx ny moves Hoff; [reflexivity|]. cbn [Bot.slide_loop].
    rewrite Bot_is_valid_on_board, Hoff. reflexivity. }
  induction f1 as [|f1 IH]; intros f2 nx ny moves H1 H2.
  - destruct (on_board nx ny) eqn:Hon.
    + specialize (H1 eq_refl). pose proof (ray_room_on_board dr dc nx ny Hon). lia.
    + rewrite (Hstop f2) by exact Hon. reflexivity.
  - destruct f2 as [|f2].
    + destruct (on_board nx ny) eqn:Hon.
      * specialize (H2 eq_refl). pose proof (ray_room_on_board dr dc nx ny Hon). lia.
      * rewrite (Hstop (S f1)) by exact Hon. reflexivity.
    + cbn [Bot.slide_loop]. rewrite Bot_is_valid_on_board.
      destruct (on_board nx ny) eqn:Hon; [|reflexivity]. cbn [andb].
      destruct (Bot.cell grid nx ny =? EMPTY); [|reflexivity].
      apply IH; intros Hon'; destruct (ray_step dr dc nx ny Hr Hc Hnz Hon') as [_ Hroom];
        [specialize (H1 eq_refl)|specialize (H2 eq_refl)]; lia.
Qed.

(** X: the two [while] loops of [Board::get_legal_moves] of [bot.cpp],
    entered one step away from a cell of the board along one of the eight
    directions, leave within eight turns by their own [is_valid] test. *)
Theorem bot_rays_end (grid : Board) (px py x y : Z) (d : Z * Z) (extra : nat)
    (moves : list Move) :
  In d Bot.DIRECTIONS -> Bot.is_valid x y = true ->
  Bot.arrow_loop (8 + extra) grid px py x y (fst d) (snd d) (x + fst d) (y + snd d) moves
  = Bot.arrow_loop 8 grid px py x y (fst d) (snd d) (x + fst d) (y + snd d) moves /\
  Bot.slide_loop (8 + extra) grid x y (fst d) (snd d) (x + fst d) (y + snd d) moves
  = Bot.slide_loop 8 grid x y (fst d) (snd d) (x + fst d) (y + snd d) moves.
Proof.
  intros Hd Hon. apply Bot_DIRECTIONS_same in Hd.
  destruct (DIRECTIONS_step d Hd) as (Hr & Hc & Hnz).
  rewrite Bot_is_valid_on_board in Hon.
  pose proof (ray_room_on_board (fst d) (snd d) x y Hon) as Hroom.
  split.
  - apply Bot_arrow_loop_fuel; try assumption;
      intros Hon'; destruct (ray_step _ _ _ _ Hr Hc Hnz Hon'); lia.
  - apply Bot_slide_loop_fuel; try assumption;
      intros Hon'; destruct (ray_step _ _ _ _ Hr Hc Hnz Hon'); lia.
Qed.

Lemma bot_rays_end_witness :
  In (-1, 1) Bot.DIRECTIONS /\ Bot.is_valid 5 0 = true /\
  Bot.arrow_loop (8 + 2) new_Board 5 0 5 0 (-1) 1 (5 + -1) (0 + 1) []
  = Bot.arrow_loop 8 new_Board 5 0 5 0 (-1) 1 (5 + -1) (0 + 1) [] /\
  Bot.slide_loop (8 + 2) new_Board 5 0 (-1) 1 (5 + -1) (0 + 1) []
  = Bot.slide_loop 8 new_Board 5 0 (-1) 1 (5 + -1) (0 + 1) [].
Proof.
  assert (Hd : In (-1, 1) Bot.DIRECTIONS) by (unfold Bot.DIRECTIONS; cbn [In]; tauto).
  split; [exact Hd|]. split; [reflexivity|].
  exact (bot_rays_end new_Board 5 0 5 0 (-1, 1) 2 [] Hd eq_refl).
Defined.

(** * Reading integers *)

Lemma skip_space_length (s : list ascii) : (length (skip_space s) <= length s)%nat.
Proof.
  induction s as [|c s IH]; cbn [skip_space length]; [lia|].
  destruct (isspace c); cbn [length]; lia.
Qed.

Lemma read_digits_length (s : list ascii) :
  forall acc any,
    (length (snd (read_digits s acc any)) <= length s)%nat /\
    (snd (fst (read_digits s acc any)) = true -> any = false ->
     (length (snd (read_digits s acc any)) < length s)%nat).
Proof.
  induction s as [|c s IH]; intros acc any; cbn [read_digits].
  - cbn [fst snd length]. split; [lia|]. intros -> H. discriminate H.
  - destruct (digit c) as [d|].
    + destruct (IH (10 * acc + d) true) as [Hle _]. cbn [length]. split; lia.
    + cbn [fst snd length]. split; [lia|]. intros -> H. discriminate H.
Qed.

Lemma read_integer_shrinks (s : list ascii) (v : Z) :
  fst (read_integer s) = Some v -> (length (snd (read_integer s)) < length s)%nat.
Proof.
  unfold read_integer.
  set (sg := match s with
             | "-"%char :: r => (true, r)
             | "+"%char :: r => (false, r)
             | _ => (false, s)
             end).
  assert (Hsg : (length (snd sg) <= length s)%nat).
  { unfold sg. destruct s as [|c r]; [cbn; lia|].
    destruct (ascii_dec c "-") as [->|Hm]; [cbn; lia|].
    destruct (ascii_dec c "+") as [->|Hp]; [cbn; lia|].
    destruct c as [[] [] [] [] [] [] [] []]; cbn; lia. }
  destruct sg as [neg s1]. cbn [snd] in Hsg.
  pose proof (read_digits_length s1 0 false) as [_ Hlt].
  destruct (read_digits s1 0 false) as [[v' any] rest]. cbn [fst snd] in *.
  destruct any; cbn [fst snd]; [|discriminate].
  intros _. specialize (Hlt eq_refl eq_refl). lia.
Qed.

(** An extraction that succeeds takes at least one character. *)
Lemma extract_int_shrinks (ss : stringstream) :
  ss_fail (fst (extract_int ss)) = false -> ss_fail ss = false ->
  (length (ss_text (fst (extract_int ss))) < length (ss_text ss))%nat.
Proof.
  unfold extract_int. intros Hok Hss. rewrite Hss in *.
  pose proof (read_integer_shrinks (skip_space (ss_text ss))) as Hsh.
  pose proof (skip_space_length (ss_text ss)) as Hsk.
  destruct (read_integer (skip_space (ss_text ss))) as [[v|] rest]; cbn [fst snd] in *.
  - specialize (Hsh v eq_refl).
    destruct (in_int v); cbn [fst ss_text ss_fail] in *; [lia|discriminate Hok].
  - cbn [fst ss_fail] in Hok. discriminate Hok.
Qed.

Lemma extract_int_failed (ss : stringstream) :
  ss_fail ss = true -> extract_int ss = (ss, None).
Proof. intros H. unfold extract_int. rewrite H. reflexivity. Qed.

Lemma extract_loop_fuel :
  forall (f1 f2 : nat) (ss : stringstream),
    (length (ss_text ss) < f1)%nat -> (length (ss_text ss) < f2)%nat ->
    Bot.extract_loop f1 ss = Bot.extract_loop f2 ss.
Proof.
  induction f1 as [|f1 IH]; intros f2 ss H1 H2; [lia|].
  destruct f2 as [|f2]; [lia|]. cbn [Bot.extract_loop].
  destruct (ss_fail ss) eqn:Hfail.
  - rewrite (extract_int_failed ss Hfail). reflexivity.
  - pose proof (extract_int_shrinks ss) as Hsh.
    destruct (extract_int ss) as [ss' [v|]]; [|reflexivity]. cbn [fst] in Hsh.
    destruct (ss_fail ss') eqn:Hfail'; [reflexivity|].
    specialize (Hsh eq_refl Hfail). f_equal. apply IH; lia.
Qed.

Lemma length_list_ascii (l : string) :
  length (list_ascii_of_string l) = String.length l.
Proof. induction l as [|c l IH]; cbn; [reflexivity|]. rewrite IH. reflexivity. Qed.

(** X: the loop [while (iss >> v) coords.push_back(v)] of [bot.cpp] ends on
    every line: an extraction that succeeds takes at least one character of
    the line, so the loop makes no more turns than the line has characters,
    plus the one that fails; the fuel of the embedding is never what stops
    it. *)
Theorem coords_loop_ends (l : string) (extra : nat) :
  Bot.extract_loop (S (String.length l) + extra) (stringstream_ l) = Bot.coords_of l.
Proof.
  unfold Bot.coords_of. apply extract_loop_fuel;
    unfold stringstream_; cbn [ss_text]; rewrite length_list_ascii; lia.
Qed.

(** * A move written is a move read *)

Lemma list_ascii_app (s1 s2 : string) :
  list_ascii_of_string (s1 ++ s2)
  = list_ascii_of_string s1 ++ list_ascii_of_string s2.
Proof. induction s1 as [|c s1 IH]; cbn; [reflexivity|]. rewrite IH. reflexivity. Qed.

Lemma coordinate_cases (v : Z) :
  0 <= v <= 7 -> v = 0 \/ v = 1 \/ v = 2 \/ v = 3 \/ v = 4 \/ v = 5 \/ v = 6 \/ v = 7.
Proof. lia. Qed.

(** A coordinate of the board is written as its digit. *)
Lemma coordinate_text (v : Z) :
  0 <= v <= 7 ->
  list_ascii_of_string (print_int v) = [ascii_of_nat (Z.to_nat (v + 48))].
Proof.
  intros Hv. apply coordinate_cases in Hv.
  repeat (destruct Hv as [-> | Hv]; [reflexivity|]). subst v. reflexivity.
Qed.

Lemma extract_coordinate_first (v : Z) (rest : list ascii) :
  0 <= v <= 7 -> rest = [] \/ (exists r, rest = " "%char :: r) ->
  extract_int (mkStream (ascii_of_nat (Z.to_nat (v + 48)) :: rest) false)
  = (mkStream rest false, Some v).
Proof.
  intros Hv Hrest. apply coordinate_cases in Hv.
  destruct Hrest as [-> | [r ->]];
    repeat (destruct Hv as [-> | Hv]; [vm_compute; reflexivity|]);
    subst v; vm_compute; reflexivity.
Qed.

Lemma extract_coordinate_next (v : Z) (rest : list ascii) :
  0 <= v <= 7 -> rest = [] \/ (exists r, rest = " "%char :: r) ->
  extract_int (mkStream (" "%char :: ascii_of_nat (Z.to_nat (v + 48)) :: rest) false)
  = (mkStream rest false, Some v).
Proof.
  intros Hv Hrest. apply coordinate_cases in Hv.
  destruct Hrest as [-> | [r ->]];
    repeat (destruct Hv as [-> | Hv]; [vm_compute; reflexivity|]);
    subst v; vm_compute; reflexivity.
Qed.

Lemma print_move_text (m : Move) :
  0 <= x0 m <= 7 -> 0 <= y0 m <= 7 -> 0 <= x1 m <= 7 -> 0 <= y1 m <= 7 ->
  0 <= x2 m <= 7 -> 0 <= y2 m <= 7 ->
  list_ascii_of_string (print_move m)
  = [ascii_of_nat (Z.to_nat (x0 m + 48)); " "%char;
     ascii_of_nat (Z.to_nat (y0 m + 48)); " "%char;
     ascii_of_nat (Z.to_nat (x1 m + 48)); " "%char;
     ascii_of_nat (Z.to_nat (y1 m + 48)); " "%char;
     ascii_of_nat (Z.to_nat (x2 m + 48)); " "%char;
     ascii_of_nat (Z.to_nat (y2 m + 48))].
Proof.
  intros H0 H1 H2 H3 H4 H5. unfold print_move.
  rewrite !list_ascii_app, !coordinate_text by assumption. reflexivity.
Qed.

(** X: a move written by [main] is read back as the same move. For a move
    whose six coordinates are on the board, the line [main] of either
    program prints is replayed by [bot026.cpp] as that move, and
    [bot.cpp] reads from it the six coordinates in order: the engine can
    read the moves it and its opponent write. *)
Theorem printed_move_read_back (m : Move) :
  on_board (x0 m) (y0 m) = true -> on_board (x1 m) (y1 m) = true ->
  on_board (x2 m) (y2 m) = true ->
  history_line (print_move m) = Replay m /\
  Bot.coords_of (print_move m) = [x0 m; y0 m; x1 m; y1 m; x2 m; y2 m].
Proof.
  intros H0 H1 H2.
  apply on_board_spec in H0. apply on_board_spec in H1. apply on_board_spec in H2.
  assert (Htext := print_move_text m ltac:(lia) ltac:(lia) ltac:(lia) ltac:(lia)
                     ltac:(lia) ltac:(lia)).
  split.
  - unfold history_line, stringstream_. rewrite Htext.
    rewrite extract_coordinate_first by (try lia; right; eexists; reflexivity).
    cbv beta iota.
    destruct (Z.eqb_spec (x0 m) (-1)) as [He|_]; [lia|].
    cbn [extract_ints].
    rewrite extract_coordinate_next by (try lia; right; eexists; reflexivity).
    cbv beta iota.
    rewrite extract_coordinate_next by (try lia; right; eexists; reflexivity).
    cbv beta iota.
    rewrite extract_coordinate_next by (try lia; right; eexists; reflexivity).
    cbv beta iota.
    rewrite extract_coordinate_next by (try lia; right; eexists; reflexivity).
    cbv beta iota.
    rewrite extract_coordinate_next by (try lia; left; reflexivity).
    cbv beta iota.
    unfold Move_. rewrite !int8_small by lia. destruct m. reflexivity.
  - unfold Bot.coords_of.
    rewrite (extract_loop_fuel _ 12).
    + unfold stringstream_. rewrite Htext. cbn [Bot.extract_loop].
      rewrite extract_coordinate_first by (try lia; right; eexists; reflexivity).
      cbv beta iota. cbn [ss_fail].
      rewrite extract_coordinate_next by (try lia; right; eexists; reflexivity).
      cbv beta iota. cbn [ss_fail].
      rewrite extract_coordinate_next by (try lia; right; eexists; reflexivity).
      cbv beta iota. cbn [ss_fail].
      rewrite extract_coordinate_next by (try lia; right; eexists; reflexivity).
      cbv beta iota. cbn [ss_fail].
      rewrite extract_coordinate_next by (try lia; right; eexists; reflexivity).
      cbv beta iota. cbn [ss_fail].
      rewrite extract_coordinate_next by (try lia; left; reflexivity).
      cbv beta iota. cbn [ss_fail].
      reflexivity.
    + unfold stringstream_. cbn [ss_text]. rewrite length_list_ascii. lia.
    + unfold stringstream_. cbn [ss_text]. rewrite Htext. cbn [length]. lia.
Qed.

Lemma printed_move_read_back_witness :
  on_board 0 2 = true /\ on_board 3 2 = true /\
  history_line (print_move (mkMove 0 2 3 2 0 2)) = Replay (mkMove 0 2 3 2 0 2) /\
  Bot.coords_of (print_move (mkMove 0 2 3 2 0 2)) = [0; 2; 3; 2; 0; 2].
Proof.
  split; [reflexivity|]. split; [reflexivity|].
  exact (printed_move_read_back (mkMove 0 2 3 2 0 2) eq_refl eq_refl eq_refl).
Defined.
